(** * breizorro: noise estimation and mask construction

    A shallow embedding of [breizorro/breizorro.py] ([get_image],
    [flush_fits], [make_noise_map] and [main]) together with the numpy /
    scipy.ndimage operations the functions call.

    Number model.  Pixel intensities are IEEE doubles in the program; here
    they are exact rationals ([Q], compared with [==]), and images with
    [nan] pixels are outside the model.  The noise map is given twice.
    [make_noise_map] is the map where all of its values are numbers: where a
    value is not (the [inf] and [nan] of a division by a calibration ratio of
    0, the median of an empty array) it ends in [NonFinite].
    [Ieee.make_noise_map] carries those values along as numpy does, negates
    in the dtype of the image, and agrees with the former where that returns
    ([make_noise_map_finite]).  The standard normal distribution function
    [0.5 * (1.0 + erf(x / sqrt(2.0)))] is not rational: it is a parameter
    [Phi : Q -> Q] of the calibration, constrained in the theorems by the
    properties of the normal distribution they use. *)

From Stdlib Require Import QArith Qabs Qminmax Qpower ZArith List Bool Lia Lqa.
From Stdlib Require String Ascii.
Import String.StringSyntax Ascii.AsciiSyntax.
Delimit Scope string_scope with string.
Delimit Scope char_scope with char.
Import ListNotations.

Local Open Scope Q_scope.

(** ** Outcomes *)

(** What a run can end in besides a value.  [SystemExit] is [sys.exit()],
    [IndexError] numpy's out-of-range index, [NonFinite] a value outside the
    rationals, [OutOfFuel] a bounded loop that was cut before it finished
    (shown below never to happen on rectangular arrays). *)
Inductive failure : Set :=
  | SystemExit
  | IndexError
  | NonFinite
  | OutOfFuel.

Inductive result (A : Type) : Type :=
  | Ok (a : A)
  | Fail (e : failure).

Arguments Ok {A} a.
Arguments Fail {A} e.

Definition bind {A B : Type} (r : result A) (k : A -> result B) : result B :=
  match r with
  | Ok a => k a
  | Fail e => Fail e
  end.

Notation "x <- r ;; k" := (bind r (fun x => k))
  (at level 61, r at next level, right associativity).

(** ** Two-dimensional arrays *)

Definition grid (A : Type) : Type := list (list A).

Definition Image : Type := grid Q.
Definition NoiseMap : Type := grid Q.
Definition Mask : Type := grid bool.

Section Grid.
Context {A : Type}.

Definition height (g : grid A) : nat := length g.
Definition width (g : grid A) : nat := length (hd [] g).

(** A numpy array of shape [(h, w)]: every row has the same length. *)
Definition shaped (h w : nat) (g : grid A) : Prop :=
  length g = h /\ Forall (fun row => length row = w) g.

(** An array is rectangular when it has the shape its own height and
    width say. *)
Definition rect (g : grid A) : Prop := shaped (height g) (width g) g.

Definition get (d : A) (g : grid A) (i j : nat) : A := nth j (nth i g []) d.

(** The array whose element [(i, j)] is [f i j]. *)
Definition tabulate (h w : nat) (f : nat -> nat -> A) : grid A :=
  map (fun i => map (f i) (seq 0 w)) (seq 0 h).

Definition in_range (g : grid A) (i j : Z) : bool :=
  ((0 <=? i) && (i <? Z.of_nat (height g)) &&
   (0 <=? j) && (j <? Z.of_nat (width g)))%Z.

(** Element [(i, j)], or [bv] when the position lies outside the array. *)
Definition px (bv : A) (g : grid A) (i j : Z) : A :=
  if in_range g i j then get bv g (Z.to_nat i) (Z.to_nat j) else bv.

Definition flatten (g : grid A) : list A := concat g.

Fixpoint upd (n : nat) (x : A) (l : list A) : list A :=
  match l, n with
  | [], _ => []
  | _ :: t, O => x :: t
  | y :: t, S n' => y :: upd n' x t
  end.
End Grid.

Definition gmap {A B : Type} (f : A -> B) (g : grid A) : grid B :=
  map (map f) g.

(** ** Comparisons on rationals as booleans *)

Definition Qltb (a b : Q) : bool := negb (Qle_bool b a).

(** ** numpy *)

Module Numpy.

(** [numpy.linspace(start, stop, num)]: [arange(num) * step + start] with
    [step = (stop - start) / (num - 1)]. *)
Definition linspace (start stop : Q) (num : nat) : list Q :=
  let step := (stop - start) / inject_Z (Z.of_nat (num - 1)) in
  map (fun i => inject_Z (Z.of_nat i) * step + start) (seq 0 num).

(** [numpy.zeros(shape, bool)] *)
Definition zeros (h w : nat) : Mask := tabulate h w (fun _ _ => false).

(** Number of leading elements of [xp] that are [<= x]. *)
Fixpoint leading_le (x : Q) (xp : list Q) : nat :=
  match xp with
  | [] => O
  | y :: t => if Qle_bool y x then S (leading_le x t) else O
  end.

(** The index [j] with [xp[j] <= x < xp[j+1]] that the search of
    [numpy.interp] returns on an ascending [xp]. *)
Definition search (x : Q) (xp : list Q) : nat := pred (leading_le x xp).

(** [numpy.interp(x, xp, fp)] for a scalar [x]. *)
Definition interp (x : Q) (xp fp : list Q) : Q :=
  let last := (length xp - 1)%nat in
  if Qltb (nth last xp 0) x then nth last fp 0
  else if Qltb x (nth 0 xp 0) then nth 0 fp 0
  else
    let j := search x xp in
    if (j =? last)%nat then nth j fp 0
    else if Qeq_bool (nth j xp 0) x then nth j fp 0
    else
      let slope :=
        (nth (S j) fp 0 - nth j fp 0) / (nth (S j) xp 0 - nth j xp 0) in
      slope * (x - nth j xp 0) + nth j fp 0.

Fixpoint insert (x : Q) (l : list Q) : list Q :=
  match l with
  | [] => [x]
  | y :: t => if Qle_bool x y then x :: l else y :: insert x t
  end.

Definition sort (l : list Q) : list Q := fold_right insert [] l.

(** [numpy.median] of a flattened array: the middle element of the sorted
    values, or the mean of the two middle ones; [nan] on an empty array. *)
Definition median (l : list Q) : result Q :=
  let s := sort l in
  let n := length s in
  match n with
  | O => Fail NonFinite
  | _ =>
      if Nat.odd n then Ok (nth (n / 2) s 0)
      else Ok ((nth (n / 2 - 1) s 0 + nth (n / 2) s 0) / 2)
  end.

End Numpy.

(** ** scipy.ndimage *)

Module Ndimage.

(** Index into a line of length [n] under [mode='reflect']
    ([d c b a | a b c d | d c b a]). *)
Definition reflect (n : nat) (i : Z) : nat :=
  let p := (i mod (2 * Z.of_nat n))%Z in
  Z.to_nat (if (p <? Z.of_nat n)%Z then p else 2 * Z.of_nat n - 1 - p)%Z.

(** The positions a filter of length [size] (origin 0) reads for output
    position [i]: [i - size / 2 .. i - size / 2 + size - 1]. *)
Definition window (size : Z) (i : nat) : list Z :=
  map (fun k => (Z.of_nat i - size / 2 + Z.of_nat k)%Z)
      (seq 0 (Z.to_nat size)).

Definition minimum (l : list Q) : Q :=
  match l with
  | [] => 0
  | x :: t => fold_left Qmin t x
  end.

(** [minimum_filter1d(input, size, axis=0)]. *)
Definition minimum_filter_rows (size : Z) (img : grid Q) : grid Q :=
  let h := height img in
  tabulate h (width img) (fun i j =>
    minimum (map (fun k => get 0 img (reflect h k) j) (window size i))).

(** [minimum_filter1d(input, size, axis=1)]. *)
Definition minimum_filter_cols (size : Z) (img : grid Q) : grid Q :=
  let w := width img in
  tabulate (height img) w (fun i j =>
    minimum (map (fun k => get 0 img i (reflect w k)) (window size j))).

(** [minimum_filter(input, size=box)]: a rectangular window is filtered one
    axis after the other, and an axis whose size is not above 1 is left
    alone. *)
Definition minimum_filter (img : grid Q) (box : Z * Z) : grid Q :=
  let a0 := if (1 <? fst box)%Z then minimum_filter_rows (fst box) img
            else img in
  if (1 <? snd box)%Z then minimum_filter_cols (snd box) a0 else a0.

(** One pass of binary dilation with the default structuring element
    [generate_binary_structure(2, 1)], the 4-connected cross.  Positions
    outside the array read as [border_value]; where a [mask] is given, only
    the elements it marks are modified. *)
Definition dilate1 (border_value : bool) (mask : option Mask) (m : Mask)
  : Mask :=
  tabulate (height m) (width m) (fun i j =>
    let y := Z.of_nat i in
    let x := Z.of_nat j in
    let grown :=
      px border_value m y x
      || px border_value m (y - 1) x || px border_value m (y + 1) x
      || px border_value m y (x - 1) || px border_value m y (x + 1) in
    match mask with
    | None => grown
    | Some k => if get false k i j then grown else get false m i j
    end).

Definition row_eqb (a b : list bool) : bool :=
  (length a =? length b)%nat && forallb (fun p => eqb (fst p) (snd p)) (combine a b).

Definition mask_eqb (a b : Mask) : bool :=
  (length a =? length b)%nat && forallb (fun p => row_eqb (fst p) (snd p)) (combine a b).

(** Repeat [step] until an application changes nothing. *)
Fixpoint until_stable (fuel : nat) (step : Mask -> Mask) (m : Mask)
  : result Mask :=
  match fuel with
  | O => Fail OutOfFuel
  | S fuel' =>
      let m' := step m in
      if mask_eqb m' m then Ok m' else until_stable fuel' step m'
  end.

Fixpoint repeat_step (n : nat) (step : Mask -> Mask) (m : Mask) : Mask :=
  match n with
  | O => m
  | S n' => repeat_step n' step (step m)
  end.

(** [binary_dilation(input, iterations=..., mask=..., border_value=...)]:
    the dilation is repeated [iterations] times, and until the result no
    longer changes when [iterations] is less than 1. *)
Definition binary_dilation (input : Mask) (iterations : Z)
    (mask : option Mask) (border_value : bool) : result Mask :=
  let step := dilate1 border_value mask in
  if (iterations <? 1)%Z
  then until_stable (S (height input * width input)) step input
  else Ok (repeat_step (Z.to_nat iterations) step input).

(** [binary_fill_holes(input)]: the complement of the input is flooded
    from the outside of the array, and what the flood does not reach is
    set. *)
Definition binary_fill_holes (input : Mask) : result Mask :=
  let mask := gmap negb input in
  let tmp := Numpy.zeros (height input) (width input) in
  out <- binary_dilation tmp (-1) (Some mask) true ;;
  Ok (gmap negb out).

End Ndimage.

(** ** breizorro *)

(** The standard normal distribution function, [0.5 * (1.0 + erf(x /
    sqrt(2.0)))], as far as the calibration uses it: on the sampled interval
    it respects equality of rationals, increases strictly, is symmetric about
    0 and stays inside (0, 1), and its slope is at most 2/5 (the density is
    at most [1 / sqrt(2 pi)], about 0.3989). *)
Record normal_cdf (Phi : Q -> Q) : Prop := {
  cdf_compat : forall a b, a == b -> Phi a == Phi b;
  cdf_incr : forall a b, -10 <= a -> a < b -> b <= 10 -> Phi a < Phi b;
  cdf_sym : forall a, -10 <= a <= 10 -> Phi (- a) == 1 - Phi a;
  cdf_range : forall a, -10 <= a <= 10 -> 0 < Phi a < 1;
  cdf_slope : forall a b, -10 <= a -> a <= b -> b <= 10 ->
      Phi b - Phi a <= (2 # 5) * (b - a)
}.

Section Breizorro.

Variable Phi : Q -> Q.

Definition grid_x : list Q := Numpy.linspace (-10) 10 1000.

(** The calibration of [make_noise_map] (lines 54-58). *)
Definition calibration_ratio (boxsize : Z) : Q :=
  let n := (boxsize * boxsize)%Z in
  let x := grid_x in
  let f := map Phi x in
  let F := map (fun fx => 1 - (1 - fx) ^ n) f in
  Qabs (Numpy.interp (1 # 2) F x).

Definition floor_guard (noise : grid Q) : grid Q :=
  gmap (fun v => if Qltb v 0 then 1 # 10000000000 else v) noise.

Definition median_clamp (median_noise : Q) (noise : grid Q) : grid Q :=
  gmap (fun v => if Qltb v median_noise then median_noise else v) noise.

(** The noise values after the floor guard (lines 59-61), given the
    calibration ratio, where they are numbers.  A ratio of 0 makes line 59
    divide by zero, which in numpy gives [inf] and [nan] and no exception:
    [NonFinite] here, and the values themselves in [Ieee.floored_noise]. *)
Definition floored_noise (ratio : Q) (restored_image : Image) (boxsize : Z)
  : result (grid Q) :=
  let box := (boxsize, boxsize) in
  if Qeq_bool ratio 0 then Fail NonFinite
  else
    Ok (floor_guard
          (gmap (fun m => - m / ratio)
                (Ndimage.minimum_filter restored_image box))).

(** [median_noise] of line 62, given the calibration ratio. *)
Definition median_of_noise (ratio : Q) (restored_image : Image)
    (boxsize : Z) : result Q :=
  noise <- floored_noise ratio restored_image boxsize ;;
  Numpy.median (flatten noise).

(** Lines 59-66, given the calibration ratio. *)
Definition clamped_noise (ratio : Q) (restored_image : Image) (boxsize : Z)
  : result NoiseMap :=
  noise <- floored_noise ratio restored_image boxsize ;;
  median_noise <- Numpy.median (flatten noise) ;;
  Ok (median_clamp median_noise noise).

(** The value [make_noise_map] logs as the median noise. *)
Definition median_noise (restored_image : Image) (boxsize : Z) : result Q :=
  median_of_noise (calibration_ratio boxsize) restored_image boxsize.

Definition make_noise_map (restored_image : Image) (boxsize : Z)
  : result NoiseMap :=
  clamped_noise (calibration_ratio boxsize) restored_image boxsize.

(** The options of [main] after [float(...)] and [int(...)]. *)
Record options : Type := {
  threshold : Q;
  boxsize : Z;
  dilate : Z;
  fill_holes : bool;
  savenoise : bool
}.

(** What a run has for its output files: the noise image when
    [--savenoise] is given, and the mask. *)
Record written : Type := {
  noise_fits : option NoiseMap;
  mask_fits : Mask
}.

(** A numpy index into an axis of length [n]: negative indices count from
    the end. *)
Definition index (n : nat) (i : Z) : result nat :=
  let k := (if i <? 0 then i + Z.of_nat n else i)%Z in
  if ((0 <=? k) && (k <? Z.of_nat n))%Z then Ok (Z.to_nat k)
  else Fail IndexError.

(** [mask[:, j] = v] *)
Definition set_column (mask : Mask) (j : Z) (v : bool) : result Mask :=
  c <- index (width mask) j ;;
  Ok (map (upd c v) mask).

(** [mask[i, :] = v] *)
Definition set_row (mask : Mask) (i : Z) (v : bool) : result Mask :=
  r <- index (height mask) i ;;
  Ok (upd r (repeat v (width mask)) mask).

(** Line 103: [input_image > threshold * noise_image]. *)
Definition threshold_mask (input_image : Image) (threshold : Q)
    (noise_image : NoiseMap) : Mask :=
  tabulate (height input_image) (width input_image) (fun i j =>
    Qltb (threshold * get 0 noise_image i j) (get 0 input_image i j)).

(** Lines 105-108. *)
Definition suppress_border (mask_image : Mask) : result Mask :=
  m <- set_column mask_image (-1) false ;;
  m <- set_column m 0 false ;;
  m <- set_row m 0 false ;;
  set_row m (-1) false.

(** Lines 110-113. *)
Definition dilate_mask (mask_image : Mask) (dilate : Z) : result Mask :=
  if (dilate =? 0)%Z then Ok mask_image
  else Ndimage.binary_dilation mask_image dilate None false.

(** Lines 115-117. *)
Definition fill_mask (mask_image : Mask) (fill_holes : bool) : result Mask :=
  if fill_holes then Ndimage.binary_fill_holes mask_image
  else Ok mask_image.

(** Lines 105-117: what happens to the thresholded mask. *)
Definition post_process (mask_image : Mask) (o : options) : result Mask :=
  mask_image <- suppress_border mask_image ;;
  mask_image <- dilate_mask mask_image (dilate o) ;;
  fill_mask mask_image (fill_holes o).

(** Lines 103-117: the mask from the image and its noise map. *)
Definition make_mask (input_image : Image) (noise_image : NoiseMap)
    (o : options) : result Mask :=
  post_process (threshold_mask input_image (threshold o) noise_image) o.

(** The pipeline of [main] (lines 89-97 and 103-117), with the files
    behind [get_image]: the parsed options, the positional arguments, and
    the arrays the run has for its output files.  Writing them is
    [main_files]. *)
Definition main (get_image : String.string -> Image) (o : options)
    (args : list String.string) : result written :=
  match args with
  | [input_fits] =>
      let input_image := get_image input_fits in
      noise_image <- make_noise_map input_image (boxsize o) ;;
      mask_image <- make_mask input_image noise_image o ;;
      Ok {| noise_fits := if savenoise o then Some noise_image else None;
            mask_fits := mask_image |}
  | _ => Fail SystemExit
  end.

End Breizorro.

(** Every element of the array satisfies [P]. *)
Definition all_px {A : Type} (P : A -> Prop) (g : grid A) : Prop :=
  Forall (Forall P) g.

(** Inclusion of the [true] sets of two masks. *)
Definition subset (a b : Mask) : Prop :=
  forall i j, get false a i j = true -> get false b i j = true.

Definition same_shape {A B : Type} (a : grid A) (b : grid B) : Prop :=
  height a = height b /\ width a = width b.

(** Number of [true] elements. *)
Definition popcount_row (l : list bool) : nat := length (filter (fun b => b) l).

Definition popcount (m : Mask) : nat := list_sum (map popcount_row m).

Definition row_le (a b : list bool) : Prop :=
  Forall2 (fun x y => x = true -> y = true) a b.

(** A step that keeps the shape and only adds elements. *)
Definition growing (step : Mask -> Mask) : Prop :=
  forall m, rect m ->
    rect (step m) /\ same_shape (step m) m /\ subset m (step m).

(** The outermost ring of an array of shape [(h, w)]. *)
Definition on_border (h w i j : nat) : bool :=
  ((i =? 0) || (i =? h - 1) || (j =? 0) || (j =? w - 1))%nat.

(** Direct (4-connected) neighbours. *)
Definition adjacent (i j i' j' : nat) : Prop :=
  (i' = i /\ (j' = S j \/ j = S j')) \/ (j' = j /\ (i' = S i \/ i = S i')).

(** A [false] element of the mask joined to the border of the array by a
    4-connected path of [false] elements. *)
Inductive border_connected (m : Mask) : nat -> nat -> Prop :=
  | bc_border i j :
      (i < height m)%nat -> (j < width m)%nat ->
      get false m i j = false ->
      on_border (height m) (width m) i j = true ->
      border_connected m i j
  | bc_step i j i' j' :
      (i < height m)%nat -> (j < width m)%nat ->
      get false m i j = false ->
      adjacent i j i' j' ->
      border_connected m i' j' ->
      border_connected m i j.

(** The city-block distance between two positions. *)
Definition manhattan (i j i' j' : nat) : nat :=
  ((i - i') + (i' - i) + ((j - j') + (j' - j)))%nat.

(** The mask that is [true] everywhere. *)
Definition full_mask (h w : nat) : Mask := tabulate h w (fun _ _ => true).

(** ** Exceptions *)

(** What a run can raise besides the failures of the pipeline. *)
Inductive exception : Set :=
  | FileNotFoundError
  | SameFileError
  | AttributeError
  | ValueError
  | RuntimeError
  | OverflowError
  | PermissionError
  | Failure (e : failure).

Inductive outcome (A : Type) : Type :=
  | Returned (a : A)
  | Raised (e : exception).

Arguments Returned {A} a.
Arguments Raised {A} e.

(** ** The noise map in floating point *)

(** Line 59 divides by the calibration ratio, and numpy divides by [0.0]
    without raising: the quotient is [inf] or [nan], and the run goes on
    with it.  [floored_noise] above stops there ([NonFinite]) and so gives
    the noise map where all of its values are numbers; the definitions of
    this module carry the other values along, and they negate in the dtype
    of the image. *)
Module Ieee.

Inductive value : Type :=
  | Finite (q : Q)
  | PosInf
  | NegInf
  | NaN.

(** [a / b] for numbers [a] and [b >= 0], a [b] of 0 being [+0.0]. *)
Definition divide (a b : Q) : value :=
  if Qeq_bool b 0 then
    if Qeq_bool a 0 then NaN else if Qltb 0 a then PosInf else NegInf
  else Finite (a / b).

(** [a < b] *)
Definition lt (a b : value) : bool :=
  match a, b with
  | NaN, _ => false
  | _, NaN => false
  | Finite x, Finite y => Qltb x y
  | Finite _, PosInf => true
  | Finite _, NegInf => false
  | PosInf, _ => false
  | NegInf, NegInf => false
  | NegInf, _ => true
  end.

(** [a <= b] *)
Definition le (a b : value) : bool :=
  match a, b with
  | NaN, _ => false
  | _, NaN => false
  | Finite x, Finite y => Qle_bool x y
  | Finite _, PosInf => true
  | Finite _, NegInf => false
  | PosInf, PosInf => true
  | PosInf, _ => false
  | NegInf, _ => true
  end.

(** [t * v] for a number [t] *)
Definition scale (t : Q) (v : value) : value :=
  match v with
  | Finite q => Finite (t * q)
  | PosInf =>
      if Qeq_bool t 0 then NaN else if Qltb 0 t then PosInf else NegInf
  | NegInf =>
      if Qeq_bool t 0 then NaN else if Qltb 0 t then NegInf else PosInf
  | NaN => NaN
  end.

(** [a + b] *)
Definition add (a b : value) : value :=
  match a, b with
  | NaN, _ => NaN
  | _, NaN => NaN
  | Finite x, Finite y => Finite (x + y)
  | PosInf, NegInf => NaN
  | NegInf, PosInf => NaN
  | PosInf, _ => PosInf
  | _, PosInf => PosInf
  | NegInf, _ => NegInf
  | _, NegInf => NegInf
  end.

(** [a / 2] *)
Definition halve (a : value) : value :=
  match a with
  | Finite x => Finite (x / 2)
  | _ => a
  end.

Definition is_nan (v : value) : bool :=
  match v with
  | NaN => true
  | _ => false
  end.

Fixpoint insert (x : value) (l : list value) : list value :=
  match l with
  | [] => [x]
  | y :: t => if le x y then x :: l else y :: insert x t
  end.

Definition sort (l : list value) : list value := fold_right insert [] l.

(** [numpy.median] of a flattened array of floating-point values: [nan]
    when an element is [nan] or the array is empty, else the middle element
    of the sorted values or the mean of the two middle ones. *)
Definition median (l : list value) : value :=
  if existsb is_nan l then NaN
  else
    let s := sort l in
    let n := length s in
    match n with
    | O => NaN
    | _ =>
        if Nat.odd n then nth (n / 2) s NaN
        else halve (add (nth (n / 2 - 1) s NaN) (nth (n / 2) s NaN))
    end.

Section Pipeline.

Variable Phi : Q -> Q.

(** [-x] for an element [x] of the image, in the dtype of the image: the
    exact negative for a floating-point dtype; an integer dtype wraps
    around (for int16, [-(-32768)] is [-32768]). *)
Variable negative : Q -> Q.

Definition floor_guard (noise : grid value) : grid value :=
  gmap (fun v => if lt v (Finite 0) then Finite (1 # 10000000000) else v)
       noise.

Definition median_clamp (median_noise : value) (noise : grid value)
  : grid value :=
  gmap (fun v => if lt v median_noise then median_noise else v) noise.

(** Lines 59-61, given the calibration ratio. *)
Definition floored_noise (ratio : Q) (restored_image : Image) (boxsize : Z)
  : grid value :=
  let box := (boxsize, boxsize) in
  floor_guard
    (gmap (fun m => divide (negative m) ratio)
          (Ndimage.minimum_filter restored_image box)).

(** [median_noise] of line 62, given the calibration ratio. *)
Definition median_of_noise (ratio : Q) (restored_image : Image)
    (boxsize : Z) : value :=
  median (flatten (floored_noise ratio restored_image boxsize)).

(** Lines 59-66, given the calibration ratio. *)
Definition clamped_noise (ratio : Q) (restored_image : Image) (boxsize : Z)
  : grid value :=
  median_clamp (median_of_noise ratio restored_image boxsize)
               (floored_noise ratio restored_image boxsize).

(** The value [make_noise_map] logs as the median noise. *)
Definition median_noise (restored_image : Image) (boxsize : Z) : value :=
  median_of_noise (calibration_ratio Phi boxsize) restored_image boxsize.

(** Lines 49-66.  [minimum_filter] hands the box size to C code and raises
    for a size of [2^31] or more. *)
Definition make_noise_map (restored_image : Image) (boxsize : Z)
  : outcome (grid value) :=
  if (2 ^ 31 <=? boxsize)%Z then Raised OverflowError
  else
    Returned (clamped_noise (calibration_ratio Phi boxsize) restored_image
                            boxsize).

(** Line 103: [input_image > threshold * noise_image]. *)
Definition threshold_mask (input_image : Image) (threshold : Q)
    (noise_image : grid value) : Mask :=
  tabulate (height input_image) (width input_image) (fun i j =>
    lt (scale threshold (get NaN noise_image i j))
       (Finite (get 0 input_image i j))).

(** Lines 103-117: the mask from the image and its noise map. *)
Definition make_mask (input_image : Image) (noise_image : grid value)
    (o : options) : result Mask :=
  post_process (threshold_mask input_image (threshold o) noise_image) o.

(** The arrays a run has computed when it comes to line 119, where the mask
    is written to its file. *)
Record computed : Type := {
  noise_image : grid value;
  mask_image : Mask
}.

(** Lines 89-117 of [main], with the files behind [get_image] and behind
    [flush_noise], which stands for the copy and the flush of lines 99-101:
    the parsed options and the positional arguments. *)
Definition main (get_image : String.string -> Image)
    (flush_noise : grid value -> outcome unit) (o : options)
    (args : list String.string) : outcome computed :=
  match args with
  | [input_fits] =>
      let input_image := get_image input_fits in
      match make_noise_map input_image (boxsize o) with
      | Raised e => Raised e
      | Returned noise =>
          match (if savenoise o then flush_noise noise else Returned tt) with
          | Raised e => Raised e
          | Returned _ =>
              match make_mask input_image noise o with
              | Fail e => Raised (Failure e)
              | Ok mask =>
                  Returned {| noise_image := noise; mask_image := mask |}
              end
          end
      end
  | _ => Raised (Failure SystemExit)
  end.

End Pipeline.

End Ieee.

(** ** Files *)

(** An n-dimensional array as numpy holds it: its shape, its dtype, and its
    elements in row-major order.  The dtype is given by what the program
    uses of it: the conversion numpy applies to a number that is assigned
    into an array of the dtype (the identity for float64). *)
Record ndarray : Type := {
  shape : list nat;
  dtype : Q -> Q;
  elements : list Q
}.

Definition size (s : list nat) : nat := fold_right Nat.mul 1%nat s.

Definition ndim (a : ndarray) : nat := length (shape a).

Definition well_formed (a : ndarray) : Prop :=
  length (elements a) = size (shape a).

(** The first [h] blocks of [w] elements: the rows of a 2-d array. *)
Fixpoint rows (h w : nat) (l : list Q) : grid Q :=
  match h with
  | O => []
  | S h' => firstn w l :: rows h' w (skipn w l)
  end.

Definition to_grid (a : ndarray) : grid Q :=
  rows (nth 0 (shape a) 0%nat) (nth 1 (shape a) 0%nat) (elements a).

(** A 2-d array of float64 values. *)
Definition of_grid (g : grid Q) : ndarray :=
  {| shape := [height g; width g]; dtype := fun v => v;
     elements := flatten g |}.

(** A mask with its elements as the numbers 1 and 0, which is how numpy
    takes [True] and [False] when the mask is assigned into an array of
    numbers. *)
Definition of_mask (m : Mask) : ndarray :=
  of_grid (gmap (fun b : bool => if b then 1 else 0) m).

(** The files, by path: a FITS file holds the data of its primary HDU, or
    no data.  Two paths stand for two files; where the destination of a copy
    is the source under another name, [os_error] below says so. *)
Definition files : Type := String.string -> option (option ndarray).

Definition write (fs : files) (path : String.string) (c : option ndarray)
  : files :=
  fun p => if String.eqb p path then Some c else fs p.

(** A step that reads and writes files: it raises or returns, and leaves
    the files as they are then. *)
Definition io (A : Type) : Type := files -> outcome A * files.

Definition ret {A : Type} (a : A) : io A := fun fs => (Returned a, fs).

Definition raise {A : Type} (e : exception) : io A :=
  fun fs => (Raised e, fs).

Definition and_then {A B : Type} (m : io A) (k : A -> io B) : io B :=
  fun fs =>
    match m fs with
    | (Returned a, fs1) => k a fs1
    | (Raised e, fs1) => (Raised e, fs1)
    end.

Notation "x <~ m ;; k" := (and_then m (fun x => k))
  (at level 61, m at next level, right associativity).

(** A step that only reads the files. *)
Definition read {A : Type} (r : files -> outcome A) : io A :=
  fun fs => (r fs, fs).

(** A step of the pipeline, which touches no file. *)
Definition run {A : Type} (r : result A) : io A :=
  match r with
  | Ok a => ret a
  | Fail e => raise (Failure e)
  end.

(** [a[0]]: the first block along the leading axis. *)
Definition first_block (a : ndarray) : outcome ndarray :=
  match shape a with
  | [] => Raised (Failure IndexError)
  | n :: s =>
      if (n =? 0)%nat then Raised (Failure IndexError)
      else Returned {| shape := s; dtype := dtype a;
                       elements := firstn (size s) (elements a) |}
  end.

(** The part of the data that [get_image] reads and [flush_fits] assigns:
    [data[:, :]], [data[0, :, :]] or [data[0, 0, :, :]] by the number of
    axes. *)
Definition plane (d : ndarray) : outcome ndarray :=
  if (ndim d =? 2)%nat then Returned d
  else if (ndim d =? 3)%nat then first_block d
  else if (ndim d <? 4)%nat then Raised (Failure IndexError)
  else
    match first_block d with
    | Returned b => first_block b
    | Raised e => Raised e
    end.

(** Lines 24-33. *)
Definition get_image (fitsfile : String.string) (fs : files)
  : outcome ndarray :=
  match fs fitsfile with
  | None => Raised FileNotFoundError
  | Some None => Raised AttributeError
  | Some (Some d) => plane d
  end.

(** numpy's broadcasting.  [align] brings the source shape to the length of
    the target's: missing leading axes count as 1, and surplus leading axes
    must be 1. *)
Definition align (src dst : list nat) : option (list nat) :=
  if (length src <=? length dst)%nat
  then Some (repeat 1%nat (length dst - length src) ++ src)
  else
    let extra := (length src - length dst)%nat in
    if forallb (Nat.eqb 1) (firstn extra src) then Some (skipn extra src)
    else None.

(** An axis of the source must have the target's length, or length 1. *)
Fixpoint broadcastable (src dst : list nat) : bool :=
  match src, dst with
  | [], [] => true
  | n :: src', m :: dst' =>
      ((n =? m)%nat || (n =? 1)%nat) && broadcastable src' dst'
  | _, _ => false
  end.

(** The elements of an array of shape [src] stretched to the shape [dst]:
    along an axis of the target's length every block is stretched, along an
    axis of length 1 the one block is stretched and repeated. *)
Fixpoint stretch (src dst : list nat) (l : list Q) : list Q :=
  match src, dst with
  | n :: src', m :: dst' =>
      if (n =? m)%nat
      then concat (map (stretch src' dst') (rows n (size src') l))
      else concat (repeat (stretch src' dst' l) m)
  | _, _ => l
  end.

Definition broadcast_to (a : ndarray) (dst : list nat) : option (list Q) :=
  match align (shape a) dst with
  | Some src =>
      if broadcastable src dst then Some (stretch src dst (elements a))
      else None
  | None => None
  end.

(** Lines 36-46: the new image is assigned into the plane, which converts
    its elements to the dtype of the file, and the file is written back.
    Nothing is written when an exception is raised. *)
Definition flush_fits (newimage : ndarray) (fitsfile : String.string)
  : io unit := fun fs =>
  match fs fitsfile with
  | None => (Raised FileNotFoundError, fs)
  | Some None => (Raised AttributeError, fs)
  | Some (Some d) =>
      match plane d with
      | Raised e => (Raised e, fs)
      | Returned p =>
          match broadcast_to newimage (shape p) with
          | None => (Raised ValueError, fs)
          | Some l =>
              let d' := {| shape := shape d; dtype := dtype d;
                           elements := map (dtype d) l ++
                                       skipn (size (shape p)) (elements d) |} in
              (Returned tt, write fs fitsfile (Some d'))
          end
      end
  end.

Section Copy.

(** What the operating system has against writing a copy of [src] to
    [dst], if anything: the directory of [dst] does not exist
    ([FileNotFoundError]), [dst] may not be written ([PermissionError]),
    [dst] is another name of the file [src] ([SameFileError]). *)
Variable os_error : String.string -> String.string -> option exception.

(** [shutil.copyfile(src, dst)]. *)
Definition copyfile (src dst : String.string) : io unit := fun fs =>
  match fs src with
  | None => (Raised FileNotFoundError, fs)
  | Some c =>
      if String.eqb src dst then (Raised SameFileError, fs)
      else
        match os_error src dst with
        | Some e => (Raised e, fs)
        | None => (Returned tt, write fs dst c)
        end
  end.

End Copy.

(** [s.rstrip(c)] for a single character [c]. *)
Fixpoint rstrip (c : Ascii.ascii) (s : String.string) : String.string :=
  match s with
  | String.EmptyString => String.EmptyString
  | String.String a rest =>
      match rstrip c rest with
      | String.EmptyString =>
          if Ascii.eqb a c then String.EmptyString
          else String.String a String.EmptyString
      | r => String.String a r
      end
  end.

(** [s.replace(old, new)] for a non-empty [old]: the occurrences of [old]
    are replaced from left to right; [skip] counts the characters of an
    occurrence still to be passed over. *)
Fixpoint replace_from (old new : String.string) (skip : nat)
    (s : String.string) : String.string :=
  match s with
  | String.EmptyString => String.EmptyString
  | String.String a rest =>
      match skip with
      | S k => replace_from old new k rest
      | O =>
          if String.prefix old s
          then String.append new
                 (replace_from old new (String.length old - 1) rest)
          else String.String a (replace_from old new 0 rest)
      end
  end.

Definition replace (old new s : String.string) : String.string :=
  replace_from old new 0 s.

(** [old in s] *)
Fixpoint contains (old s : String.string) : bool :=
  String.prefix old s ||
  match s with
  | String.EmptyString => false
  | String.String _ rest => contains old rest
  end.

Definition dot_fits : String.string := ".fits"%string.

Definition dot_noise_fits : String.string := ".noise.fits"%string.

Definition dot_mask_fits : String.string := ".mask.fits"%string.

(** The command line of [main]: the options of the pipeline and
    [--outfile]. *)
Record command_line : Type := {
  pipeline_options : options;
  outfile : String.string
}.

(** Where [main] writes the noise image (line 99). *)
Definition noise_path (input_fits : String.string) : String.string :=
  replace dot_fits dot_noise_fits input_fits.

(** Where [main] writes the mask (lines 119-122). *)
Definition mask_path (outfile input_fits : String.string) : String.string :=
  if String.eqb outfile String.EmptyString
  then replace dot_fits dot_mask_fits input_fits
  else outfile.

(** [main] with its files (lines 89-125).  An image that is not
    two-dimensional is refused by [minimum_filter], whose box has two
    sizes.  The files hold numbers, and the noise map is [make_noise_map],
    the map of numbers: where that ends in [NonFinite] (the box sizes 1 and
    -1) the program goes on with [inf] and [nan], as [Ieee.main] has it, and
    this definition does not follow it. *)
Definition main_files
    (os_error : String.string -> String.string -> option exception)
    (Phi : Q -> Q) (c : command_line) (args : list String.string)
  : io unit :=
  let o := pipeline_options c in
  match args with
  | [arg] =>
      let input_fits := rstrip "/"%char arg in
      input_image <~ read (get_image input_fits) ;;
      _ <~ (if (ndim input_image =? 2)%nat then ret tt
            else raise RuntimeError) ;;
      noise_image <~
        run (make_noise_map Phi (to_grid input_image) (boxsize o)) ;;
      _ <~ (if savenoise o then
              let noise_fits := noise_path input_fits in
              _ <~ copyfile os_error input_fits noise_fits ;;
              flush_fits (of_grid noise_image) noise_fits
            else ret tt) ;;
      mask_image <~ run (make_mask (to_grid input_image) noise_image o) ;;
      let mask_fits := mask_path (outfile c) input_fits in
      _ <~ copyfile os_error input_fits mask_fits ;;
      flush_fits (of_mask mask_image) mask_fits
  | _ => raise (Failure SystemExit)
  end.

(** ** Example inputs *)

(** The all-zero 5x5 image. *)
Definition zero_image : Image := repeat (repeat 0 5) 5.

(** The 7x7 image that is 0 except for the value 100 at (3, 3). *)
Definition spot_image : Image :=
  tabulate 7 7 (fun i j => if ((i =? 3) && (j =? 3))%nat then 100 else 0).

(** The 7x7 mask whose only [true] element is (3, 3). *)
Definition single_px : Mask :=
  [[false; false; false; false; false; false; false];
   [false; false; false; false; false; false; false];
   [false; false; false; false; false; false; false];
   [false; false; false; true;  false; false; false];
   [false; false; false; false; false; false; false];
   [false; false; false; false; false; false; false];
   [false; false; false; false; false; false; false]].

(** The 7x7 mask of the five elements of the plus shape centred at (3, 3). *)
Definition plus_shape : Mask :=
  [[false; false; false; false; false; false; false];
   [false; false; false; false; false; false; false];
   [false; false; false; true;  false; false; false];
   [false; false; true;  true;  true;  false; false];
   [false; false; false; true;  false; false; false];
   [false; false; false; false; false; false; false];
   [false; false; false; false; false; false; false]].

(** A 5x5 mask: a 3x3 block with a hole in its centre. *)
Definition ring_mask : Mask :=
  [[false; false; false; false; false];
   [false; true;  true;  true;  false];
   [false; true;  false; true;  false];
   [false; true;  true;  true;  false];
   [false; false; false; false; false]].

(** A 3x3 mask whose only [true] element is the centre. *)
Definition centre_mask : Mask :=
  [[false; false; false]; [false; true; false]; [false; false; false]].

Definition run_options (threshold : Q) (boxsize dilate : Z) : options :=
  {| threshold := threshold; boxsize := boxsize; dilate := dilate;
     fill_holes := false; savenoise := false |}.

(** The dtypes of the examples: float64, and a 16-bit integer (a number
    within the range is cut off towards 0). *)
Definition float64 (v : Q) : Q := v.

Definition int16 (v : Q) : Q := inject_Z (Z.quot (Qnum v) (Zpos (Qden v))).

(** A file system with one file, and a data cube of two channels. *)
Definition one_file (path : String.string) (d : ndarray) : files :=
  write (fun _ => None) path (Some d).

Definition cube : ndarray :=
  {| shape := [2; 1; 2; 3]%nat; dtype := float64;
     elements := [1; 2; 3; 4; 5; 6; 7; 8; 9; 10; 11; 12] |}.

(** The same cube in a file of 16-bit integers. *)
Definition int_cube : ndarray :=
  {| shape := [2; 1; 2; 3]%nat; dtype := int16;
     elements := [1; 2; 3; 4; 5; 6; 7; 8; 9; 10; 11; 12] |}.

(** The spot image as a FITS file of one channel, and a run that saves the
    noise image. *)
Definition spot_cube : ndarray :=
  {| shape := [1; 7; 7]%nat; dtype := float64;
     elements := flatten spot_image |}.

Definition save_all : command_line :=
  {| pipeline_options :=
       {| threshold := 1; boxsize := 3; dilate := 1; fill_holes := true;
          savenoise := true |};
     outfile := String.EmptyString |}.

(** An operating system that lets every copy through. *)
Definition no_error (src dst : String.string) : option exception := None.

(** A 4x4 image with one negative element: the windows of 9 of its 16
    elements hold it. *)
Definition dip_image : Image :=
  tabulate 4 4 (fun i j => if ((i =? 1) && (j =? 1))%nat then -1 else 0).

(** A piecewise linear function through the values of the normal
    distribution function at -2, -1, 0, 1 and 2 (to two decimals), for
    running the calibration on concrete inputs.  It has the properties of
    [normal_cdf]. *)
Definition Phi_pw (x : Q) : Q :=
  if Qltb x (-2) then (1 # 40) + (x + 2) * (1 # 400)
  else if Qltb x (-1) then (1 # 40) + (x + 2) * (27 # 200)
  else if Qltb 2 x then (39 # 40) + (x - 2) * (1 # 400)
  else if Qltb 1 x then (39 # 40) + (x - 2) * (27 # 200)
  else (1 # 2) + x * (17 # 50).

(** * Properties *)

(** ** Arrays *)

Lemma nth_map_seq {A : Type} (f : nat -> A) (n i : nat) (d : A) :
  (i < n)%nat -> nth i (map f (seq 0 n)) d = f i.
Proof.
  intros Hi.
  rewrite (nth_indep _ d (f 0%nat)) by (rewrite length_map, length_seq; exact Hi).
  rewrite (map_nth f (seq 0 n) 0%nat i), seq_nth by exact Hi.
  reflexivity.
Qed.

Lemma get_tabulate {A : Type} (d : A) (h w : nat) (f : nat -> nat -> A) i j :
  (i < h)%nat -> (j < w)%nat -> get d (tabulate h w f) i j = f i j.
Proof.
  intros Hi Hj. unfold get, tabulate.
  rewrite (nth_map_seq (fun i => map (f i) (seq 0 w))) by exact Hi.
  apply nth_map_seq; exact Hj.
Qed.

Lemma height_tabulate {A : Type} (h w : nat) (f : nat -> nat -> A) :
  height (tabulate h w f) = h.
Proof. unfold height, tabulate. rewrite length_map, length_seq. reflexivity. Qed.

Lemma width_tabulate {A : Type} (h w : nat) (f : nat -> nat -> A) :
  (0 < h)%nat -> width (tabulate h w f) = w.
Proof.
  intros Hh. unfold width, tabulate.
  destruct h as [|h]; [lia|].
  cbn [seq map hd]. rewrite length_map, length_seq. reflexivity.
Qed.

Lemma shaped_tabulate {A : Type} (h w : nat) (f : nat -> nat -> A) :
  shaped h w (tabulate h w f).
Proof.
  split.
  - apply height_tabulate.
  - unfold tabulate. apply Forall_forall. intros row Hrow.
    apply in_map_iff in Hrow. destruct Hrow as [i [<- _]].
    rewrite length_map, length_seq. reflexivity.
Qed.

Lemma tabulate_ext {A : Type} (h w : nat) (f g : nat -> nat -> A) :
  (forall i j, (i < h)%nat -> (j < w)%nat -> f i j = g i j) ->
  tabulate h w f = tabulate h w g.
Proof.
  intros Hfg. unfold tabulate.
  apply map_ext_in. intros i Hi. apply in_seq in Hi.
  apply map_ext_in. intros j Hj. apply in_seq in Hj.
  apply Hfg; lia.
Qed.

Lemma list_as_map_seq {A : Type} (d : A) (l : list A) :
  l = map (fun i => nth i l d) (seq 0 (length l)).
Proof.
  induction l as [|x l IH]; [reflexivity|].
  cbn [length seq map nth]. f_equal.
  rewrite <- seq_shift, map_map. exact IH.
Qed.

(** A rectangular array is the table of its elements. *)
Lemma shaped_as_tabulate {A : Type} (d : A) (h w : nat) (g : grid A) :
  shaped h w g -> g = tabulate h w (get d g).
Proof.
  intros [Hh Hw]. unfold tabulate, get. subst h.
  rewrite (list_as_map_seq [] g) at 1.
  apply map_ext_in. intros i Hi. apply in_seq in Hi.
  assert (Hlen : length (nth i g []) = w).
  { rewrite Forall_forall in Hw. apply Hw, nth_In. lia. }
  rewrite (list_as_map_seq d (nth i g [])) at 1.
  rewrite Hlen. reflexivity.
Qed.

Lemma shaped_width {A : Type} (h w : nat) (g : grid A) :
  shaped h w g -> (0 < h)%nat -> width g = w.
Proof.
  intros [Hh Hw] Hpos. unfold width.
  destruct g as [|row g]; [cbn in Hh; lia|].
  cbn [hd]. inversion Hw; assumption.
Qed.

Lemma shaped_rect {A : Type} (h w : nat) (g : grid A) :
  shaped h w g -> rect g.
Proof.
  intros Hs. unfold rect.
  destruct (Nat.eq_dec h 0) as [->|Hh].
  - destruct Hs as [Hlen _]. destruct g; [|discriminate].
    split; [reflexivity|constructor].
  - rewrite (shaped_width h w g Hs) by lia.
    destruct Hs as [Hlen Hw]. unfold height. rewrite Hlen.
    split; assumption.
Qed.

Lemma rect_tabulate {A : Type} (h w : nat) (f : nat -> nat -> A) :
  rect (tabulate h w f).
Proof. apply (shaped_rect h w), shaped_tabulate. Qed.

Lemma px_in {A : Type} (bv : A) (g : grid A) (i j : nat) :
  (i < height g)%nat -> (j < width g)%nat ->
  px bv g (Z.of_nat i) (Z.of_nat j) = get bv g i j.
Proof.
  intros Hi Hj. unfold px, in_range.
  replace (0 <=? Z.of_nat i)%Z with true by (symmetry; apply Z.leb_le; lia).
  replace (Z.of_nat i <? Z.of_nat (height g))%Z with true
    by (symmetry; apply Z.ltb_lt; lia).
  replace (0 <=? Z.of_nat j)%Z with true by (symmetry; apply Z.leb_le; lia).
  replace (Z.of_nat j <? Z.of_nat (width g))%Z with true
    by (symmetry; apply Z.ltb_lt; lia).
  cbn [andb]. rewrite !Nat2Z.id. reflexivity.
Qed.

Lemma get_outside {A : Type} (d : A) (h w : nat) (g : grid A) (i j : nat) :
  shaped h w g -> (h <= i)%nat \/ (w <= j)%nat -> get d g i j = d.
Proof.
  intros [Hh Hw] Hout. unfold get.
  destruct (Nat.lt_ge_cases i h) as [Hi|Hi].
  - apply nth_overflow.
    rewrite Forall_forall in Hw. rewrite (Hw (nth i g [])); [lia|].
    apply nth_In. lia.
  - rewrite (nth_overflow g) by lia. destruct j; reflexivity.
Qed.

Lemma get_gmap {A B : Type} (f : A -> B) (d : A) (g : grid A) (i j : nat) :
  get (f d) (gmap f g) i j = f (get d g i j).
Proof.
  unfold get, gmap.
  destruct (Nat.lt_ge_cases i (length g)) as [Hi|Hi].
  - rewrite (nth_indep _ [] (map f [])) by (rewrite length_map; exact Hi).
    rewrite (map_nth (map f)). apply map_nth.
  - rewrite (nth_overflow (map (map f) g)) by (rewrite length_map; exact Hi).
    rewrite (nth_overflow g) by exact Hi.
    destruct j; reflexivity.
Qed.

Lemma shaped_gmap {A B : Type} (f : A -> B) (h w : nat) (g : grid A) :
  shaped h w g -> shaped h w (gmap f g).
Proof.
  intros [Hh Hw]. split.
  - unfold gmap. rewrite length_map. exact Hh.
  - unfold gmap. apply Forall_map.
    eapply Forall_impl; [|exact Hw].
    intros row Hrow. cbn. rewrite length_map. exact Hrow.
Qed.

Lemma height_gmap {A B : Type} (f : A -> B) (g : grid A) :
  height (gmap f g) = height g.
Proof. unfold height, gmap. apply length_map. Qed.

Lemma width_gmap {A B : Type} (f : A -> B) (g : grid A) :
  width (gmap f g) = width g.
Proof.
  unfold width, gmap. destruct g as [|row g]; [reflexivity|].
  cbn [map hd]. apply length_map.
Qed.

(** ** Border suppression *)

Lemma length_upd {A : Type} (n : nat) (x : A) (l : list A) :
  length (upd n x l) = length l.
Proof.
  revert n. induction l as [|y l IH]; intros [|n]; cbn; auto.
Qed.

Lemma nth_upd_same_default {A : Type} (n : nat) (v : A) (l : list A) k :
  nth k (upd n v l) v = if (k =? n)%nat then v else nth k l v.
Proof.
  revert n k. induction l as [|y l IH]; intros n k.
  - assert (Hnil : nth k [] v = v) by (destruct k; reflexivity).
    destruct n; cbn [upd]; rewrite Hnil; destruct (k =? _)%nat; reflexivity.
  - destruct n as [|n], k as [|k]; cbn; try reflexivity.
    apply IH.
Qed.

Lemma get_set_column (c : nat) (m : Mask) i j :
  get false (map (upd c false) m) i j =
  if (j =? c)%nat then false else get false m i j.
Proof.
  unfold get.
  assert (Hrow : nth i (map (upd c false) m) [] = upd c false (nth i m [])).
  { revert i. induction m as [|row m IH]; intros [|i]; cbn [map nth]; auto;
      destruct c; reflexivity. }
  rewrite Hrow. apply nth_upd_same_default.
Qed.

Lemma get_set_row (r w : nat) (m : Mask) i j :
  get false (upd r (repeat false w) m) i j =
  if (i =? r)%nat then false else get false m i j.
Proof.
  unfold get. revert r i. induction m as [|row m IH]; intros r i.
  - assert (Hnil : forall k, nth j (nth k (@nil (list bool)) []) false = false)
      by (intros k; destruct k, j; reflexivity).
    destruct r; cbn [upd]; rewrite Hnil; destruct (i =? _)%nat; reflexivity.
  - destruct r as [|r], i as [|i]; cbn [upd nth Nat.eqb]; try reflexivity.
    + apply nth_repeat.
    + apply IH.
Qed.

Lemma shaped_set_column (c h w : nat) (m : Mask) :
  shaped h w m -> shaped h w (map (upd c false) m).
Proof.
  intros [Hh Hw]. split.
  - rewrite length_map. exact Hh.
  - apply Forall_map. eapply Forall_impl; [|exact Hw].
    intros row Hrow. cbn. rewrite length_upd. exact Hrow.
Qed.

Lemma shaped_set_row (r h w : nat) (m : Mask) :
  shaped h w m -> shaped h w (upd r (repeat false w) m).
Proof.
  intros [Hh Hw]. split.
  - rewrite length_upd. exact Hh.
  - clear Hh. revert r. induction Hw as [|row m Hrow Hm IH]; intros r.
    + destruct r; constructor.
    + destruct r as [|r]; cbn.
      * constructor; [apply repeat_length | exact Hm].
      * constructor; [exact Hrow | apply IH].
Qed.

Lemma index_last (n : nat) : (0 < n)%nat -> index n (-1) = Ok (n - 1)%nat.
Proof.
  intros Hn. unfold index. cbn [Z.ltb Z.compare].
  replace (0 <=? -1 + Z.of_nat n)%Z with true by (symmetry; apply Z.leb_le; lia).
  replace (-1 + Z.of_nat n <? Z.of_nat n)%Z with true
    by (symmetry; apply Z.ltb_lt; lia).
  cbn [andb]. f_equal. lia.
Qed.

Lemma index_first (n : nat) : (0 < n)%nat -> index n 0 = Ok 0%nat.
Proof.
  intros Hn. unfold index. cbn [Z.ltb Z.compare Z.leb].
  replace (0 <? Z.of_nat n)%Z with true by (symmetry; apply Z.ltb_lt; lia).
  reflexivity.
Qed.

(** On a non-empty rectangular mask the four assignments of lines 105-108
    succeed, and the result is the table that is [false] on the outermost
    ring and the mask elsewhere. *)
Lemma suppress_border_table (h w : nat) (m : Mask) :
  shaped h w m -> (0 < h)%nat -> (0 < w)%nat ->
  suppress_border m =
  Ok (tabulate h w (fun i j =>
        if on_border h w i j then false else get false m i j)).
Proof.
  intros Hs Hh Hw.
  pose proof (shaped_set_column (w - 1) h w m Hs) as Hs1.
  pose proof (shaped_set_column 0 h w _ Hs1) as Hs2.
  pose proof (shaped_set_row 0 h w _ Hs2) as Hs3.
  pose proof (shaped_set_row (h - 1) h w _ Hs3) as Hs4.
  unfold suppress_border, set_column, set_row.
  rewrite (shaped_width h w m Hs Hh), (index_last w Hw). cbn [bind].
  rewrite (shaped_width h w _ Hs1 Hh), (index_first w Hw). cbn [bind].
  unfold height at 1. rewrite (proj1 Hs2), (index_first h Hh). cbn [bind].
  rewrite (shaped_width h w _ Hs2 Hh).
  unfold height at 1. rewrite (proj1 Hs3), (index_last h Hh). cbn [bind].
  rewrite (shaped_width h w _ Hs3 Hh).
  apply f_equal.
  rewrite (shaped_as_tabulate false h w _ Hs4).
  apply tabulate_ext. intros i j Hi Hj.
  rewrite !get_set_row, !get_set_column. unfold on_border.
  destruct (i =? h - 1)%nat, (i =? 0)%nat, (j =? 0)%nat, (j =? w - 1)%nat;
    reflexivity.
Qed.

(** C5.  Border suppression succeeds on every mask of shape [(h, w)] with
    [h, w > 0]; the result has the same shape, is [false] on row 0, row
    [h-1], column 0 and column [w-1], and equals the input everywhere else;
    when [h <= 2] or [w <= 2] the whole mask is [false]. *)
Theorem border_suppression_frame (h w : nat) (m : Mask) :
  shaped h w m -> (0 < h)%nat -> (0 < w)%nat ->
  exists m',
    suppress_border m = Ok m' /\
    shaped h w m' /\
    (forall i j, (i < h)%nat -> (j < w)%nat ->
       get false m' i j =
       if on_border h w i j then false else get false m i j) /\
    ((h <= 2)%nat \/ (w <= 2)%nat -> m' = Numpy.zeros h w).
Proof.
  intros Hs Hh Hw. eexists. split; [apply suppress_border_table; eassumption|].
  split; [apply shaped_tabulate|]. split.
  - intros i j Hi Hj. rewrite get_tabulate by assumption. reflexivity.
  - intros Hsmall. unfold Numpy.zeros. apply tabulate_ext.
    intros i j Hi Hj.
    replace (on_border h w i j) with true; [reflexivity|].
    symmetry. unfold on_border. apply orb_true_iff.
    destruct Hsmall as [Hsm|Hsm].
    + left. apply orb_true_iff. left. apply orb_true_iff.
      destruct (Nat.eq_dec i 0) as [->|Hne]; [left; reflexivity|].
      right. apply Nat.eqb_eq. lia.
    + destruct (Nat.eq_dec j 0) as [->|Hne].
      * left. apply orb_true_iff. right. reflexivity.
      * right. apply Nat.eqb_eq. lia.
Qed.

(** The theorem at a 3x4 mask that is [true] everywhere: only the two
    interior elements stay [true]. *)
Lemma border_suppression_frame_witness :
  exists m',
    suppress_border (repeat (repeat true 4) 3) = Ok m' /\
    shaped 3 4 m' /\
    (forall i j, (i < 3)%nat -> (j < 4)%nat ->
       get false m' i j =
       if on_border 3 4 i j then false
       else get false (repeat (repeat true 4) 3) i j) /\
    ((3 <= 2)%nat \/ (4 <= 2)%nat -> m' = Numpy.zeros 3 4).
Proof.
  apply (border_suppression_frame 3 4 (repeat (repeat true 4) 3)).
  - split; [reflexivity | repeat constructor].
  - lia.
  - lia.
Defined.

(** An array with an empty axis has no row 0 and no column 0: there the
    assignments raise. *)
Lemma suppress_border_empty : suppress_border [] = Fail IndexError.
Proof. reflexivity. Qed.

(** ** Dilation *)

Lemma get_true_in_range (m : Mask) i j :
  rect m -> get false m i j = true ->
  (i < height m)%nat /\ (j < width m)%nat.
Proof.
  intros Hr Hget.
  destruct (Nat.lt_ge_cases i (height m)) as [Hi|Hi];
    destruct (Nat.lt_ge_cases j (width m)) as [Hj|Hj]; auto;
    rewrite (get_outside false _ _ m i j Hr) in Hget by lia; discriminate.
Qed.

Lemma dilate1_shape bv k (m : Mask) :
  rect (Ndimage.dilate1 bv k m) /\ same_shape (Ndimage.dilate1 bv k m) m.
Proof.
  unfold Ndimage.dilate1. split; [apply rect_tabulate|].
  split; [apply height_tabulate|].
  destruct m as [|row m]; [reflexivity|].
  apply width_tabulate. cbn. lia.
Qed.

Lemma get_dilate1 bv k (m : Mask) i j :
  (i < height m)%nat -> (j < width m)%nat ->
  get false (Ndimage.dilate1 bv k m) i j =
  let grown :=
    get bv m i j
    || px bv m (Z.of_nat i - 1) (Z.of_nat j)
    || px bv m (Z.of_nat i + 1) (Z.of_nat j)
    || px bv m (Z.of_nat i) (Z.of_nat j - 1)
    || px bv m (Z.of_nat i) (Z.of_nat j + 1) in
  match k with
  | None => grown
  | Some k => if get false k i j then grown else get false m i j
  end.
Proof.
  intros Hi Hj. unfold Ndimage.dilate1.
  rewrite get_tabulate by assumption. cbv zeta.
  rewrite px_in by assumption. reflexivity.
Qed.

Lemma get_default_true (bv : bool) (m : Mask) i j :
  get false m i j = true -> get bv m i j = true.
Proof.
  unfold get. intros H.
  destruct (Nat.lt_ge_cases j (length (nth i m []))) as [Hj|Hj].
  - rewrite (nth_indep _ bv false) by exact Hj. exact H.
  - rewrite nth_overflow in H by exact Hj. discriminate.
Qed.

Lemma get_default_in (bv : bool) (m : Mask) i j :
  rect m -> (i < height m)%nat -> (j < width m)%nat ->
  get bv m i j = get false m i j.
Proof.
  intros [_ Hw] Hi Hj. unfold get. apply nth_indep.
  rewrite Forall_forall in Hw. rewrite (Hw (nth i m [])); [exact Hj|].
  apply nth_In. exact Hi.
Qed.

(** The cross contains its centre: a pass of dilation only adds elements. *)
Lemma dilate1_extensive bv k (m : Mask) :
  rect m -> subset m (Ndimage.dilate1 bv k m).
Proof.
  intros Hr i j Hget.
  destruct (get_true_in_range m i j Hr Hget) as [Hi Hj].
  rewrite get_dilate1 by assumption. cbv zeta.
  rewrite (get_default_true bv m i j Hget). cbn [orb].
  destruct k as [k|]; [|reflexivity].
  destruct (get false k i j); [reflexivity | exact Hget].
Qed.

Lemma px_subset bv (a b : Mask) y x :
  rect a -> rect b -> same_shape a b -> subset a b ->
  px bv a y x = true -> px bv b y x = true.
Proof.
  intros Ha Hb [Hh Hw] Hsub. unfold px, in_range. rewrite Hh, Hw.
  destruct ((0 <=? y)%Z && (y <? Z.of_nat (height b))%Z &&
            (0 <=? x)%Z && (x <? Z.of_nat (width b))%Z) eqn:Hin; [|auto].
  apply andb_true_iff in Hin. destruct Hin as [Hin Hx2].
  apply andb_true_iff in Hin. destruct Hin as [Hin Hx1].
  apply andb_true_iff in Hin. destruct Hin as [Hy1 Hy2].
  apply Z.leb_le in Hy1, Hx1. apply Z.ltb_lt in Hy2, Hx2.
  rewrite (get_default_in bv a), (get_default_in bv b); try assumption; try lia.
  apply Hsub.
Qed.

(** A pass of dilation is monotone in its input. *)
Lemma dilate1_monotone bv k (a b : Mask) :
  rect a -> rect b -> same_shape a b -> subset a b ->
  subset (Ndimage.dilate1 bv k a) (Ndimage.dilate1 bv k b).
Proof.
  intros Ha Hb Hsame Hsub i j Hget.
  destruct (dilate1_shape bv k a) as [Hra [Hha Hwa]].
  destruct (get_true_in_range _ i j Hra Hget) as [Hi Hj].
  rewrite Hha in Hi. rewrite Hwa in Hj.
  destruct Hsame as [Hh Hw].
  rewrite get_dilate1 in Hget by assumption.
  rewrite get_dilate1 by (rewrite <- ?Hh, <- ?Hw; assumption).
  cbv zeta in *.
  assert (Hgrown :
    get bv a i j
    || px bv a (Z.of_nat i - 1) (Z.of_nat j)
    || px bv a (Z.of_nat i + 1) (Z.of_nat j)
    || px bv a (Z.of_nat i) (Z.of_nat j - 1)
    || px bv a (Z.of_nat i) (Z.of_nat j + 1) = true ->
    get bv b i j
    || px bv b (Z.of_nat i - 1) (Z.of_nat j)
    || px bv b (Z.of_nat i + 1) (Z.of_nat j)
    || px bv b (Z.of_nat i) (Z.of_nat j - 1)
    || px bv b (Z.of_nat i) (Z.of_nat j + 1) = true).
  { rewrite <- (px_in bv a i j), <- (px_in bv b i j)
      by (rewrite <- ?Hh, <- ?Hw; assumption).
    rewrite !orb_true_iff.
    pose proof (px_subset bv a b) as Hpx.
    specialize (fun y x => Hpx y x Ha Hb (conj Hh Hw) Hsub).
    intuition auto. }
  destruct k as [k|]; [|auto].
  destruct (get false k i j); auto.
Qed.

Lemma repeat_step_S (n : nat) (step : Mask -> Mask) (m : Mask) :
  Ndimage.repeat_step (S n) step m = step (Ndimage.repeat_step n step m).
Proof.
  revert m. induction n as [|n IH]; intros m; [reflexivity|].
  cbn [Ndimage.repeat_step] in *. rewrite IH. reflexivity.
Qed.

Lemma repeat_dilate1_shape bv k (n : nat) (m : Mask) :
  rect m ->
  rect (Ndimage.repeat_step n (Ndimage.dilate1 bv k) m) /\
  same_shape (Ndimage.repeat_step n (Ndimage.dilate1 bv k) m) m.
Proof.
  intros Hr. induction n as [|n [IHr [IHh IHw]]].
  - split; [exact Hr | split; reflexivity].
  - rewrite repeat_step_S.
    destruct (dilate1_shape bv k
                (Ndimage.repeat_step n (Ndimage.dilate1 bv k) m))
      as [Hr' [Hh' Hw']].
    split; [exact Hr' | split; congruence].
Qed.

(** C6.  For a rectangular mask, the dilation stage with [dilate = 0] returns
    the mask itself, and for every [k >= 0] the stage succeeds for [k] and
    for [k + 1] iterations and the [true] set of the first result is included
    in that of the second. *)
Theorem dilation_monotone_in_iterations (m : Mask) :
  rect m ->
  dilate_mask m 0 = Ok m /\
  forall k, (0 <= k)%Z ->
    exists a b,
      dilate_mask m k = Ok a /\ dilate_mask m (k + 1) = Ok b /\ subset a b.
Proof.
  intros Hr. split; [reflexivity|].
  intros k Hk.
  assert (Hnext : dilate_mask m (k + 1) =
                  Ok (Ndimage.dilate1 false None
                        (Ndimage.repeat_step (Z.to_nat k)
                           (Ndimage.dilate1 false None) m))).
  { unfold dilate_mask, Ndimage.binary_dilation.
    replace (k + 1 =? 0)%Z with false by (symmetry; apply Z.eqb_neq; lia).
    replace (k + 1 <? 1)%Z with false by (symmetry; apply Z.ltb_ge; lia).
    replace (Z.to_nat (k + 1)) with (S (Z.to_nat k)) by lia.
    rewrite repeat_step_S. reflexivity. }
  exists (Ndimage.repeat_step (Z.to_nat k) (Ndimage.dilate1 false None) m).
  eexists. split; [|split; [exact Hnext|]].
  - unfold dilate_mask, Ndimage.binary_dilation.
    destruct (Z.eqb_spec k 0) as [->|Hne]; [reflexivity|].
    replace (k <? 1)%Z with false by (symmetry; apply Z.ltb_ge; lia).
    reflexivity.
  - apply dilate1_extensive.
    apply (repeat_dilate1_shape false None (Z.to_nat k) m Hr).
Qed.

(** The theorem at the 3x3 mask whose centre alone is [true]. *)
Lemma dilation_monotone_in_iterations_witness :
  dilate_mask centre_mask 0 = Ok centre_mask /\
  forall k, (0 <= k)%Z ->
    exists a b,
      dilate_mask centre_mask k = Ok a /\
      dilate_mask centre_mask (k + 1) = Ok b /\ subset a b.
Proof.
  apply (dilation_monotone_in_iterations centre_mask).
  split; [reflexivity | repeat constructor].
Defined.

(** ** Loops that run until nothing changes *)

Lemma row_eqb_eq (a b : list bool) : Ndimage.row_eqb a b = true <-> a = b.
Proof.
  unfold Ndimage.row_eqb. revert b.
  induction a as [|x a IH]; intros [|y b]; cbn; split; intros H;
    try reflexivity; try discriminate.
  - apply andb_true_iff in H. destruct H as [Hlen H].
    apply andb_true_iff in H. destruct H as [Hxy H].
    apply eqb_prop in Hxy. subst y. f_equal.
    apply IH. apply andb_true_iff. split; assumption.
  - injection H as -> ->.
    assert (Hb : (length b =? length b)%nat && forallb
              (fun p : bool * bool => eqb (fst p) (snd p)) (combine b b) = true)
      by (apply IH; reflexivity).
    apply andb_true_iff in Hb. destruct Hb as [Hlen Hb].
    rewrite Hlen, eqb_reflx, Hb. reflexivity.
Qed.

Lemma mask_eqb_eq (a b : Mask) : Ndimage.mask_eqb a b = true <-> a = b.
Proof.
  unfold Ndimage.mask_eqb. revert b.
  induction a as [|x a IH]; intros [|y b]; cbn; split; intros H;
    try reflexivity; try discriminate.
  - apply andb_true_iff in H. destruct H as [Hlen H].
    apply andb_true_iff in H. destruct H as [Hxy H].
    apply row_eqb_eq in Hxy. subst y. f_equal.
    apply IH. apply andb_true_iff. split; assumption.
  - injection H as -> ->.
    assert (Hb : (length b =? length b)%nat && forallb
              (fun p => Ndimage.row_eqb (fst p) (snd p)) (combine b b) = true)
      by (apply IH; reflexivity).
    apply andb_true_iff in Hb. destruct Hb as [Hlen Hb].
    rewrite Hlen, Hb, (proj2 (row_eqb_eq y y) eq_refl). reflexivity.
Qed.

Lemma popcount_row_le (a b : list bool) :
  row_le a b ->
  (popcount_row a <= popcount_row b)%nat /\
  (popcount_row a = popcount_row b -> a = b).
Proof.
  unfold popcount_row. induction 1 as [|x y a b Hxy Hab [IHle IHeq]].
  - split; auto.
  - destruct x, y; cbn [filter length]; try (specialize (Hxy eq_refl); discriminate).
    + split; [lia|]. intros H. f_equal. apply IHeq. lia.
    + split; [lia|]. intros H. lia.
    + split; [lia|]. intros H. f_equal. apply IHeq. lia.
Qed.

Lemma popcount_le (a b : Mask) :
  Forall2 row_le a b ->
  (popcount a <= popcount b)%nat /\ (popcount a = popcount b -> a = b).
Proof.
  unfold popcount. induction 1 as [|x y a b Hxy Hab [IHle IHeq]].
  - split; auto.
  - destruct (popcount_row_le x y Hxy) as [Hle Heq].
    cbn [map list_sum fold_right]. fold (list_sum (map popcount_row a)).
    fold (list_sum (map popcount_row b)). split; [lia|].
    intros H. f_equal; [apply Heq | apply IHeq]; lia.
Qed.

Lemma popcount_row_bound (l : list bool) : (popcount_row l <= length l)%nat.
Proof. apply filter_length_le. Qed.

Lemma popcount_bound (h w : nat) (m : Mask) :
  shaped h w m -> (popcount m <= h * w)%nat.
Proof.
  intros [Hh Hw]. subst h. unfold popcount.
  induction Hw as [|row m Hrow Hm IH]; [cbn; lia|].
  cbn [map list_sum fold_right length]. fold (list_sum (map popcount_row m)).
  pose proof (popcount_row_bound row). lia.
Qed.

Lemma Forall2_map_seq {A : Type} (R : A -> A -> Prop) (f g : nat -> A) l :
  (forall i, In i l -> R (f i) (g i)) -> Forall2 R (map f l) (map g l).
Proof.
  induction l as [|i l IH]; intros H; cbn [map]; constructor.
  - apply H. left. reflexivity.
  - apply IH. intros k Hk. apply H. right. exact Hk.
Qed.

Lemma subset_rows (a b : Mask) :
  rect a -> rect b -> same_shape a b -> subset a b -> Forall2 row_le a b.
Proof.
  intros Ha Hb [Hh Hw] Hsub.
  rewrite (shaped_as_tabulate false _ _ a Ha).
  rewrite (shaped_as_tabulate false _ _ b Hb).
  rewrite <- Hh, <- Hw. unfold tabulate.
  apply Forall2_map_seq. intros i _.
  apply Forall2_map_seq. intros j _.
  apply Hsub.
Qed.

(** A mask that grows without changing its number of [true] elements has
    not changed. *)
Lemma subset_strict (a b : Mask) :
  rect a -> rect b -> same_shape a b -> subset a b ->
  (popcount a <= popcount b)%nat /\ (a <> b -> (popcount a < popcount b)%nat).
Proof.
  intros Ha Hb Hsame Hsub.
  destruct (popcount_le a b (subset_rows a b Ha Hb Hsame Hsub)) as [Hle Heq].
  split; [exact Hle|]. intros Hne.
  destruct (Nat.eq_dec (popcount a) (popcount b)) as [E|E]; [|lia].
  elim Hne. apply Heq, E.
Qed.

(** With as much fuel as the array has elements (and one more), the loop of
    a growing step ends at a mask the step leaves unchanged. *)
Lemma until_stable_terminates (step : Mask -> Mask) :
  growing step ->
  forall fuel m,
    rect m ->
    (height m * width m < fuel + popcount m)%nat ->
    exists t,
      Ndimage.until_stable fuel step m = Ok (Ndimage.repeat_step t step m) /\
      step (Ndimage.repeat_step t step m) = Ndimage.repeat_step t step m.
Proof.
  intros Hgrow. induction fuel as [|fuel IH]; intros m Hr Hfuel.
  - pose proof (popcount_bound _ _ m Hr). lia.
  - cbn [Ndimage.until_stable].
    destruct (Hgrow m Hr) as [Hr' [[Hh Hw] Hsub]].
    destruct (Ndimage.mask_eqb (step m) m) eqn:Heq.
    + apply mask_eqb_eq in Heq. exists 0%nat. cbn [Ndimage.repeat_step].
      split; [rewrite Heq; reflexivity | exact Heq].
    + assert (Hne : m <> step m).
      { intros E. rewrite <- E in Heq.
        rewrite (proj2 (mask_eqb_eq m m) eq_refl) in Heq. discriminate. }
      destruct (subset_strict m (step m) Hr Hr' (conj (eq_sym Hh) (eq_sym Hw)) Hsub)
        as [_ Hlt].
      specialize (Hlt Hne).
      destruct (IH (step m) Hr') as [t [Hrun Hfix]].
      { rewrite Hh, Hw. lia. }
      exists (S t). cbn [Ndimage.repeat_step]. split; assumption.
Qed.

Lemma dilate1_growing bv k : growing (Ndimage.dilate1 bv k).
Proof.
  intros m Hr. destruct (dilate1_shape bv k m) as [Hr' Hsame].
  split; [exact Hr' | split; [exact Hsame | apply dilate1_extensive, Hr]].
Qed.

(** [binary_dilation] returns for every iteration count, also a negative
    one. *)
Lemma binary_dilation_total (m : Mask) (iterations : Z) k bv :
  rect m ->
  exists t,
    Ndimage.binary_dilation m iterations k bv =
    Ok (Ndimage.repeat_step t (Ndimage.dilate1 bv k) m) /\
    ((iterations < 1)%Z ->
     Ndimage.dilate1 bv k (Ndimage.repeat_step t (Ndimage.dilate1 bv k) m) =
     Ndimage.repeat_step t (Ndimage.dilate1 bv k) m).
Proof.
  intros Hr. unfold Ndimage.binary_dilation.
  destruct (Z.ltb_spec iterations 1) as [Hlt|Hge].
  - destruct (until_stable_terminates _ (dilate1_growing bv k)
                (S (height m * width m)) m Hr) as [t [Hrun Hfix]]; [lia|].
    exists t. split; [exact Hrun | intros _; exact Hfix].
  - exists (Z.to_nat iterations). split; [reflexivity | lia].
Qed.

(** Two steps that agree along the iterates of one of them run the same
    loop. *)
Lemma until_stable_ext (stepA stepB : Mask -> Mask) :
  forall fuel m,
    (forall t, stepA (Ndimage.repeat_step t stepB m) =
               stepB (Ndimage.repeat_step t stepB m)) ->
    Ndimage.until_stable fuel stepA m = Ndimage.until_stable fuel stepB m.
Proof.
  induction fuel as [|fuel IH]; intros m Hagree; [reflexivity|].
  cbn [Ndimage.until_stable].
  pose proof (Hagree 0%nat) as H0. cbn [Ndimage.repeat_step] in H0.
  rewrite H0.
  destruct (Ndimage.mask_eqb (stepB m) m); [reflexivity|].
  apply IH. intros t. apply (Hagree (S t)).
Qed.

(** ** Hole filling *)

Lemma grid_ext (a b : Mask) :
  rect a -> rect b -> same_shape a b ->
  (forall i j, (i < height a)%nat -> (j < width a)%nat ->
     get false a i j = get false b i j) ->
  a = b.
Proof.
  intros Ha Hb [Hh Hw] Hget.
  rewrite (shaped_as_tabulate false _ _ a Ha).
  rewrite (shaped_as_tabulate false _ _ b Hb).
  rewrite <- Hh, <- Hw. apply tabulate_ext. exact Hget.
Qed.

Lemma gmap_negb_involutive (m : Mask) : gmap negb (gmap negb m) = m.
Proof.
  unfold gmap. rewrite map_map. rewrite <- (map_id m) at 2.
  apply map_ext. intros row. rewrite map_map. rewrite <- (map_id row) at 2.
  apply map_ext. apply negb_involutive.
Qed.

Lemma rect_gmap {A B : Type} (f : A -> B) (g : grid A) :
  rect g -> rect (gmap f g).
Proof.
  unfold rect. rewrite height_gmap, width_gmap. apply shaped_gmap.
Qed.

Lemma zeros_shape {A : Type} (g : grid A) :
  rect (Numpy.zeros (height g) (width g)) /\
  same_shape (Numpy.zeros (height g) (width g)) g.
Proof.
  unfold Numpy.zeros. split; [apply rect_tabulate|].
  split; [apply height_tabulate|].
  destruct g as [|row g]; [reflexivity|].
  apply width_tabulate. cbn. lia.
Qed.

Lemma get_zeros (h w i j : nat) : get false (Numpy.zeros h w) i j = false.
Proof.
  destruct (Nat.lt_ge_cases i h) as [Hi|Hi];
    destruct (Nat.lt_ge_cases j w) as [Hj|Hj].
  - unfold Numpy.zeros. apply get_tabulate; assumption.
  - apply (get_outside false h w); [apply shaped_tabulate | lia].
  - apply (get_outside false h w); [apply shaped_tabulate | lia].
  - apply (get_outside false h w); [apply shaped_tabulate | lia].
Qed.

Lemma get_negb (m : Mask) i j :
  rect m -> (i < height m)%nat -> (j < width m)%nat ->
  get false (gmap negb m) i j = negb (get false m i j).
Proof.
  intros Hr Hi Hj.
  change false with (negb true) at 1. rewrite get_gmap.
  rewrite (get_default_in true m i j Hr Hi Hj). reflexivity.
Qed.

Section Flood.

(** The flood of [binary_fill_holes]: [allowed] is the complement of the
    input, the flood starts from the empty mask, and after [T] steps it has
    arrived at a mask the step leaves unchanged. *)
Variable allowed : Mask.
Variable T : nat.
Let start : Mask := Numpy.zeros (height allowed) (width allowed).
Let step : Mask -> Mask := Ndimage.dilate1 true (Some allowed).
Let reached : Mask := Ndimage.repeat_step T step start.
Hypothesis reached_fixed : step reached = reached.

Lemma flood_iterates (t : nat) :
  rect (Ndimage.repeat_step t step start) /\
  same_shape (Ndimage.repeat_step t step start) allowed /\
  subset (Ndimage.repeat_step t step start) allowed.
Proof.
  induction t as [|t IH].
  - cbn [Ndimage.repeat_step]. unfold start.
    destruct (zeros_shape allowed) as [Hr Hs].
    split; [exact Hr|]. split; [exact Hs|].
    intros i j H. rewrite get_zeros in H. discriminate.
  - rewrite repeat_step_S.
    set (r := Ndimage.repeat_step t step start) in *.
    destruct IH as [Hr [[Hh Hw] Hsub]].
    destruct (dilate1_shape true (Some allowed) r) as [Hr' [Hh' Hw']].
    fold step in Hr', Hh', Hw'.
    split; [exact Hr'|]. split; [split; congruence|].
    intros i j Hget.
    destruct (get_true_in_range _ i j Hr' Hget) as [Hi Hj].
    rewrite Hh' in Hi. rewrite Hw' in Hj.
    unfold step in Hget. rewrite get_dilate1 in Hget by assumption.
    cbv zeta in Hget.
    destruct (get false allowed i j) eqn:Ha; [reflexivity|].
    rewrite <- Ha. apply Hsub, Hget.
Qed.

Lemma flood_below_reached (t : nat) :
  subset (Ndimage.repeat_step t step start) reached.
Proof.
  induction t as [|t IH].
  - cbn [Ndimage.repeat_step]. unfold start.
    intros i j H. rewrite get_zeros in H. discriminate.
  - rewrite repeat_step_S, <- reached_fixed.
    destruct (flood_iterates t) as [Hr [[Hh Hw] _]].
    destruct (flood_iterates T) as [HrT [[HhT HwT] _]].
    apply dilate1_monotone; auto.
    split; unfold reached; congruence.
Qed.

(** Flooding inside what was reached is the same flood. *)
Lemma flood_agrees (t : nat) :
  Ndimage.dilate1 true (Some reached) (Ndimage.repeat_step t step start) =
  step (Ndimage.repeat_step t step start).
Proof.
  destruct (flood_iterates t) as [Hr [[Hh Hw] Hsub]].
  destruct (flood_iterates T) as [_ [_ HsubT]]. fold reached in HsubT.
  pose proof (flood_below_reached t) as Hreach.
  pose proof (flood_below_reached (S t)) as Hnext.
  rewrite repeat_step_S in Hnext.
  set (r := Ndimage.repeat_step t step start) in *.
  destruct (dilate1_shape true (Some reached) r) as [Hr1 [Hh1 Hw1]].
  destruct (dilate1_shape true (Some allowed) r) as [Hr2 [Hh2 Hw2]].
  apply grid_ext; try assumption.
  - split; unfold step; congruence.
  - intros i j Hi Hj. rewrite Hh1 in Hi. rewrite Hw1 in Hj.
    pose proof (Hnext i j) as Hn.
    unfold step in *. rewrite get_dilate1 in Hn by assumption.
    rewrite !get_dilate1 by assumption. cbv zeta in *.
    destruct (get false reached i j) eqn:Hre.
    + rewrite (HsubT i j Hre). reflexivity.
    + destruct (get false r i j) eqn:Hri.
      { rewrite (Hreach i j Hri) in Hre. discriminate. }
      destruct (get false allowed i j); [|reflexivity].
      match goal with
      | |- false = ?g => destruct g; [discriminate (Hn eq_refl) | reflexivity]
      end.
Qed.

End Flood.

Lemma px_outside {A : Type} (bv : A) (g : grid A) (y x : Z) :
  (y < 0 \/ Z.of_nat (height g) <= y \/ x < 0 \/ Z.of_nat (width g) <= x)%Z ->
  px bv g y x = bv.
Proof.
  intros Hout. unfold px, in_range.
  destruct (Z.leb_spec 0 y); destruct (Z.ltb_spec y (Z.of_nat (height g)));
    destruct (Z.leb_spec 0 x); destruct (Z.ltb_spec x (Z.of_nat (width g)));
    cbn [andb]; try reflexivity; lia.
Qed.

Lemma px_of_get (bv : bool) (m : Mask) (i j : nat) :
  rect m -> get false m i j = true ->
  px bv m (Z.of_nat i) (Z.of_nat j) = true.
Proof.
  intros Hr Hget.
  destruct (get_true_in_range m i j Hr Hget) as [Hi Hj].
  rewrite px_in by assumption. apply get_default_true, Hget.
Qed.

(** What the flood has reached when it stops contains every [false] element
    joined to the border. *)
Lemma flood_reaches_border_connected (m reached : Mask) :
  rect m -> rect reached -> same_shape reached m ->
  Ndimage.dilate1 true (Some (gmap negb m)) reached = reached ->
  forall i j, border_connected m i j -> get false reached i j = true.
Proof.
  intros Hm Hr [Hh Hw] Hfix i j Hbc.
  induction Hbc as [i j Hi Hj Hfalse Hb | i j i' j' Hi Hj Hfalse Hadj _ IH];
    rewrite <- Hfix;
    rewrite get_dilate1 by congruence; cbv zeta;
    rewrite (get_negb m i j Hm Hi Hj), Hfalse; cbn [negb];
    rewrite !orb_true_iff.
  - unfold on_border in Hb. rewrite !orb_true_iff in Hb.
    rewrite !Nat.eqb_eq in Hb.
    destruct Hb as [[[Hb|Hb]|Hb]|Hb].
    + left. left. left. right. apply px_outside. lia.
    + left. left. right. apply px_outside. lia.
    + left. right. apply px_outside. lia.
    + right. apply px_outside. lia.
  - pose proof (px_of_get true reached i' j' Hr IH) as Hpx.
    destruct Hadj as [[-> [->| ->]] | [-> [->| ->]]].
    + right.
      replace (Z.of_nat j + 1)%Z with (Z.of_nat (S j)) by lia. exact Hpx.
    + left. right.
      replace (Z.of_nat (S j') - 1)%Z with (Z.of_nat j') by lia. exact Hpx.
    + left. left. right.
      replace (Z.of_nat i + 1)%Z with (Z.of_nat (S i)) by lia. exact Hpx.
    + left. left. left. right.
      replace (Z.of_nat (S i') - 1)%Z with (Z.of_nat i') by lia. exact Hpx.
Qed.

(** [binary_fill_holes] on a rectangular mask: it returns the complement of
    a mask the flood step (inside the complement of the input) leaves
    unchanged, reached from the empty mask. *)
Lemma binary_fill_holes_flood (m : Mask) :
  rect m ->
  exists t,
    let step := Ndimage.dilate1 true (Some (gmap negb m)) in
    let start := Numpy.zeros (height m) (width m) in
    Ndimage.until_stable (S (height m * width m)) step start =
      Ok (Ndimage.repeat_step t step start) /\
    step (Ndimage.repeat_step t step start) = Ndimage.repeat_step t step start /\
    Ndimage.binary_fill_holes m =
      Ok (gmap negb (Ndimage.repeat_step t step start)).
Proof.
  intros Hm. cbv zeta.
  destruct (zeros_shape m) as [Hz [Hzh Hzw]].
  destruct (until_stable_terminates _
              (dilate1_growing true (Some (gmap negb m)))
              (S (height m * width m))
              (Numpy.zeros (height m) (width m)) Hz) as [t [Hrun Hfix]].
  { rewrite Hzh, Hzw. lia. }
  exists t. split; [exact Hrun|]. split; [exact Hfix|].
  unfold Ndimage.binary_fill_holes, Ndimage.binary_dilation.
  cbn [Z.ltb Z.compare]. rewrite Hzh, Hzw, Hrun. reflexivity.
Qed.

(** C8.  On a rectangular mask hole filling returns a mask; filling the
    holes of that mask returns it unchanged; every [false] element joined to
    the border of the array by a 4-connected path of [false] elements is
    still [false] in the result; and no [true] element is cleared. *)
Theorem fill_holes_idempotent (m : Mask) :
  rect m ->
  exists out,
    Ndimage.binary_fill_holes m = Ok out /\
    Ndimage.binary_fill_holes out = Ok out /\
    (forall i j, border_connected m i j -> get false out i j = false) /\
    subset m out.
Proof.
  intros Hm.
  destruct (binary_fill_holes_flood m Hm) as [t [Hrun [Hfix Hfill]]].
  cbv zeta in *.
  set (allowed := gmap negb m) in *.
  assert (Ha : rect allowed) by (apply rect_gmap, Hm).
  assert (Hah : height allowed = height m) by apply height_gmap.
  assert (Haw : width allowed = width m) by apply width_gmap.
  rewrite <- Hah, <- Haw in Hrun, Hfix, Hfill.
  destruct (flood_iterates allowed t) as [Hr [[Hh Hw] Hsub]].
  set (reached := Ndimage.repeat_step t (Ndimage.dilate1 true (Some allowed))
                    (Numpy.zeros (height allowed) (width allowed))) in *.
  change (rect reached) in Hr.
  change (height reached = height allowed) in Hh.
  change (width reached = width allowed) in Hw.
  change (subset reached allowed) in Hsub.
  exists (gmap negb reached). split; [exact Hfill|]. split; [|split].
  - unfold Ndimage.binary_fill_holes, Ndimage.binary_dilation.
    cbn [Z.ltb Z.compare].
    rewrite gmap_negb_involutive, height_gmap, width_gmap.
    destruct (zeros_shape reached) as [_ [Hzh Hzw]].
    rewrite Hzh, Hzw, Hh, Hw.
    rewrite (until_stable_ext _ (Ndimage.dilate1 true (Some allowed))).
    + rewrite Hrun. reflexivity.
    + intros k. apply (flood_agrees allowed t Hfix).
  - intros i j Hbc.
    assert (Hin : (i < height m)%nat /\ (j < width m)%nat)
      by (destruct Hbc; split; assumption).
    rewrite get_negb by (try exact Hr; rewrite ?Hh, ?Hw, ?Hah, ?Haw; apply Hin).
    rewrite (flood_reaches_border_connected m reached Hm Hr
               (conj (eq_trans Hh Hah) (eq_trans Hw Haw)) Hfix i j Hbc).
    reflexivity.
  - intros i j Hget.
    destruct (get_true_in_range m i j Hm Hget) as [Hi Hj].
    rewrite get_negb by (try exact Hr; rewrite ?Hh, ?Hw, ?Hah, ?Haw; assumption).
    destruct (get false reached i j) eqn:Hre; [|reflexivity].
    apply Hsub in Hre. unfold allowed in Hre.
    rewrite (get_negb m i j Hm Hi Hj), Hget in Hre. discriminate.
Qed.

(** The theorem at a 3x3 block with a hole in its centre. *)
Lemma fill_holes_idempotent_witness :
  exists out,
    Ndimage.binary_fill_holes ring_mask = Ok out /\
    Ndimage.binary_fill_holes out = Ok out /\
    (forall i j, border_connected ring_mask i j -> get false out i j = false) /\
    subset ring_mask out.
Proof.
  apply (fill_holes_idempotent ring_mask).
  split; [reflexivity | repeat constructor].
Defined.

(** ** Interpolation and the calibration ratio *)

Lemma Qltb_lt (a b : Q) : Qltb a b = true <-> a < b.
Proof.
  unfold Qltb. rewrite negb_true_iff. split.
  - intros H. apply Qnot_le_lt. intros Hle.
    apply Qle_bool_iff in Hle. congruence.
  - intros H. destruct (Qle_bool b a) eqn:E; [|reflexivity].
    apply Qle_bool_iff in E. exfalso. exact (Qlt_not_le _ _ H E).
Qed.

Lemma Qltb_ge (a b : Q) : Qltb a b = false <-> b <= a.
Proof.
  unfold Qltb. rewrite negb_false_iff. apply Qle_bool_iff.
Qed.

Lemma leading_le_bound (x : Q) (xp : list Q) :
  (Numpy.leading_le x xp <= length xp)%nat.
Proof.
  induction xp as [|y xp IH]; cbn; [lia|].
  destruct (Qle_bool y x); lia.
Qed.

Lemma leading_le_below (x : Q) (xp : list Q) (i : nat) :
  (i < Numpy.leading_le x xp)%nat -> nth i xp 0 <= x.
Proof.
  revert i. induction xp as [|y xp IH]; intros i Hi; cbn in Hi; [lia|].
  destruct (Qle_bool y x) eqn:E; [|lia].
  destruct i as [|i]; cbn [nth].
  - apply Qle_bool_iff, E.
  - apply IH. lia.
Qed.

Lemma leading_le_above (x : Q) (xp : list Q) :
  (Numpy.leading_le x xp < length xp)%nat ->
  x < nth (Numpy.leading_le x xp) xp 0.
Proof.
  induction xp as [|y xp IH]; cbn; [lia|].
  destruct (Qle_bool y x) eqn:E; intros Hlen.
  - apply IH. lia.
  - cbn [nth]. apply Qltb_lt. unfold Qltb. rewrite E. reflexivity.
Qed.

(** The three ways [numpy.interp] computes its result: the last ordinate on
    the right of the table (or at its last abscissa), the first one on its
    left, and between two neighbouring abscissae [xp[j] <= x < xp[j+1]] the
    point of the segment that joins the ordinates. *)
Lemma interp_cases (x : Q) (xp fp : list Q) :
  (x < nth 0 xp 0 /\ Numpy.interp x xp fp = nth 0 fp 0) \/
  ((nth (length xp - 1) xp 0 < x \/
    Numpy.search x xp = (length xp - 1)%nat) /\
   Numpy.interp x xp fp = nth (length xp - 1) fp 0) \/
  (let j := Numpy.search x xp in
   S j = Numpy.leading_le x xp /\
   (S j < length xp)%nat /\
   nth j xp 0 <= x /\ x < nth (S j) xp 0 /\
   Numpy.interp x xp fp ==
     nth j fp 0 +
     (nth (S j) fp 0 - nth j fp 0) *
     ((x - nth j xp 0) / (nth (S j) xp 0 - nth j xp 0))).
Proof.
  unfold Numpy.interp. cbv zeta.
  destruct (Qltb (nth (length xp - 1) xp 0) x) eqn:Hright.
  { right. left. split; [|reflexivity]. left. apply Qltb_lt, Hright. }
  destruct (Qltb x (nth 0 xp 0)) eqn:Hleft.
  { left. split; [apply Qltb_lt, Hleft | reflexivity]. }
  apply Qltb_ge in Hleft. right.
  destruct (Nat.eqb_spec (Numpy.search x xp) (length xp - 1)) as [Hlast|Hmid].
  { left. split; [right; exact Hlast|]. rewrite Hlast. reflexivity. }
  right.
  assert (Hpos : (0 < Numpy.leading_le x xp)%nat).
  { destruct xp as [|y xp]; [cbn in Hmid; lia|].
    cbn [nth] in Hleft. cbn [Numpy.leading_le].
    apply Qle_bool_iff in Hleft. rewrite Hleft. lia. }
  pose proof (leading_le_bound x xp) as Hbound.
  unfold Numpy.search in *.
  assert (Hj : S (pred (Numpy.leading_le x xp)) = Numpy.leading_le x xp) by lia.
  assert (Hlt : (Numpy.leading_le x xp < length xp)%nat) by lia.
  pose proof (leading_le_above x xp Hlt) as Habove.
  assert (Hbelow : nth (pred (Numpy.leading_le x xp)) xp 0 <= x)
    by (apply leading_le_below; lia).
  rewrite Hj.
  split; [reflexivity|]. split; [exact Hlt|]. split; [exact Hbelow|].
  split; [exact Habove|].
  set (j := pred (Numpy.leading_le x xp)) in *.
  set (L := Numpy.leading_le x xp) in *.
  destruct (Qeq_bool (nth j xp 0) x) eqn:Heq.
  - apply Qeq_bool_iff in Heq.
    assert (Hne : ~ nth L xp 0 - nth j xp 0 == 0) by lra.
    rewrite <- Heq. field. exact Hne.
  - assert (Hne : ~ nth L xp 0 - nth j xp 0 == 0) by lra.
    field. exact Hne.
Qed.

Lemma leading_le_first_above (x : Q) (xp : list Q) (k : nat) :
  (k < length xp)%nat -> x < nth k xp 0 -> (Numpy.leading_le x xp <= k)%nat.
Proof.
  intros Hk Hx.
  destruct (Nat.le_gt_cases (Numpy.leading_le x xp) k) as [H|H]; [exact H|].
  pose proof (leading_le_below x xp k H) as Hle.
  exfalso. exact (Qlt_not_le _ _ Hx Hle).
Qed.

Lemma leading_le_exact (x : Q) (xp : list Q) (k : nat) :
  (k < length xp)%nat ->
  (forall i, (i < k)%nat -> nth i xp 0 <= x) ->
  x < nth k xp 0 ->
  Numpy.leading_le x xp = k.
Proof.
  intros Hk Hbelow Hx.
  pose proof (leading_le_first_above x xp k Hk Hx) as Hle.
  destruct (Nat.eq_dec (Numpy.leading_le x xp) k) as [E|E]; [exact E|].
  assert (Hlt : (Numpy.leading_le x xp < k)%nat) by lia.
  pose proof (leading_le_above x xp ltac:(lia)) as Habove.
  pose proof (Hbelow _ Hlt) as Hb.
  exfalso. exact (Qlt_not_le _ _ Habove Hb).
Qed.

Lemma grid_x_length : length grid_x = 1000%nat.
Proof. unfold grid_x, Numpy.linspace. rewrite length_map. apply length_seq. Qed.

Lemma grid_x_nth (i : nat) :
  (i < 1000)%nat ->
  nth i grid_x 0 == (20 # 999) * inject_Z (Z.of_nat i) - 10.
Proof.
  intros Hi. unfold grid_x, Numpy.linspace. cbv zeta.
  rewrite (nth_map_seq _ 1000 i 0 Hi).
  change (Z.of_nat (1000 - 1)) with 999%Z. field.
Qed.

Lemma grid_x_range (i : nat) :
  (i < 1000)%nat -> -10 <= nth i grid_x 0 <= 10.
Proof.
  intros Hi. rewrite (grid_x_nth i Hi).
  assert (H0 : 0 <= inject_Z (Z.of_nat i))
    by (change 0 with (inject_Z 0); rewrite <- Zle_Qle; lia).
  assert (H1 : inject_Z (Z.of_nat i) <= 999)
    by (change 999 with (inject_Z 999); rewrite <- Zle_Qle; lia).
  lra.
Qed.

Lemma grid_x_negative (i : nat) : (i <= 499)%nat -> nth i grid_x 0 < 0.
Proof.
  intros Hi. rewrite (grid_x_nth i) by lia.
  assert (H1 : inject_Z (Z.of_nat i) <= 499)
    by (change 499 with (inject_Z 499); rewrite <- Zle_Qle; lia).
  lra.
Qed.

Lemma grid_x_increasing (i j : nat) :
  (i <= j)%nat -> (j < 1000)%nat -> nth i grid_x 0 <= nth j grid_x 0.
Proof.
  intros Hij Hj. rewrite (grid_x_nth i), (grid_x_nth j) by lia.
  assert (H : inject_Z (Z.of_nat i) <= inject_Z (Z.of_nat j))
    by (rewrite <- Zle_Qle; lia).
  lra.
Qed.

Section Calibration.

Variable Phi : Q -> Q.
Hypothesis Phi_normal : normal_cdf Phi.

(** The table [F] of line 57. *)
Let table (n : Z) : list Q :=
  map (fun fx => 1 - (1 - fx) ^ n) (map Phi grid_x).

Lemma table_length (n : Z) : length (table n) = 1000%nat.
Proof. unfold table. rewrite !length_map. apply grid_x_length. Qed.

Lemma table_nth (n : Z) (k : nat) :
  (k < 1000)%nat ->
  nth k (table n) 0 = 1 - (1 - Phi (nth k grid_x 0)) ^ n.
Proof.
  intros Hk. unfold table. rewrite map_map.
  rewrite (nth_indep _ 0 (1 - (1 - Phi 0) ^ n))
    by (rewrite length_map, grid_x_length; exact Hk).
  apply (map_nth (fun x => 1 - (1 - Phi x) ^ n)).
Qed.

Lemma Phi_zero : Phi 0 == 1 # 2.
Proof.
  pose proof (cdf_sym Phi Phi_normal 0 ltac:(lra)) as Hsym.
  rewrite (cdf_compat Phi Phi_normal (- 0) 0) in Hsym by reflexivity.
  lra.
Qed.

Lemma Phi_below_half (a : Q) : -10 <= a -> a < 0 -> Phi a < 1 # 2.
Proof.
  intros Hlo Hneg. rewrite <- Phi_zero.
  apply (cdf_incr Phi Phi_normal); lra.
Qed.

Lemma Phi_above_half (a : Q) : 0 < a -> a <= 10 -> 1 # 2 < Phi a.
Proof.
  intros Hpos Hhi. rewrite <- Phi_zero.
  apply (cdf_incr Phi Phi_normal); lra.
Qed.

Lemma Qpower_le_one (u : Q) (k : nat) :
  0 <= u <= 1 -> 0 <= u ^ Z.of_nat k <= 1.
Proof.
  intros Hu. induction k as [|k IH].
  - cbn. lra.
  - replace (Z.of_nat (S k)) with (1 + Z.of_nat k)%Z by lia.
    rewrite Qpower_plus' by lia. rewrite Qpower_1_r. nra.
Qed.

Lemma Qpower_le_square (u : Q) (n : Z) :
  0 <= u <= 1 -> (2 <= n)%Z -> u ^ n <= u * u.
Proof.
  intros Hu Hn.
  replace n with (2 + Z.of_nat (Z.to_nat (n - 2)))%Z by lia.
  rewrite Qpower_plus' by lia.
  pose proof (Qpower_le_one u (Z.to_nat (n - 2)) Hu) as Hk.
  change (u ^ 2) with (u * u). nra.
Qed.

(** With at least two pixels in the window, the table has passed 1/2 at
    the last sample below 0. *)
Lemma table_499_above_half (n : Z) :
  (2 <= n)%Z -> 1 # 2 < nth 499 (table n) 0.
Proof.
  intros Hn. rewrite table_nth by lia.
  pose proof (grid_x_nth 499 ltac:(lia)) as Hx.
  change (inject_Z (Z.of_nat 499)) with 499 in Hx.
  set (a := nth 499 grid_x 0) in *.
  assert (Ha : a == - (10 # 999)) by (rewrite Hx; reflexivity).
  pose proof (cdf_slope Phi Phi_normal a 0 ltac:(lra) ltac:(lra) ltac:(lra))
    as Hslope.
  rewrite Phi_zero in Hslope.
  pose proof (Phi_below_half a ltac:(lra) ltac:(lra)) as Hhalf.
  pose proof (Qpower_le_square (1 - Phi a) n ltac:(lra) Hn) as Hsq.
  nra.
Qed.

Lemma Qpower_monotone (a b : Q) (k : nat) :
  0 <= a -> a <= b -> a ^ Z.of_nat k <= b ^ Z.of_nat k.
Proof.
  intros Ha Hab. induction k as [|k IH].
  - cbn. lra.
  - replace (Z.of_nat (S k)) with (1 + Z.of_nat k)%Z by lia.
    rewrite !Qpower_plus' by lia. rewrite !Qpower_1_r.
    pose proof (Qpower_0_le a (Z.of_nat k) Ha) as Hak.
    nra.
Qed.

(** The table is ascending, as [numpy.interp] requires of its abscissae. *)
Lemma table_ascending (n : Z) (i j : nat) :
  (0 <= n)%Z -> (i <= j)%nat -> (j < 1000)%nat ->
  nth i (table n) 0 <= nth j (table n) 0.
Proof.
  intros Hn Hij Hj. rewrite !table_nth by lia.
  pose proof (grid_x_range i ltac:(lia)) as Hxi.
  pose proof (grid_x_range j Hj) as Hxj.
  pose proof (grid_x_increasing i j Hij Hj) as Hx.
  pose proof (cdf_range Phi Phi_normal _ Hxj) as Hrj.
  assert (HPhi : Phi (nth i grid_x 0) <= Phi (nth j grid_x 0)).
  { destruct (Qlt_le_dec (nth i grid_x 0) (nth j grid_x 0)) as [Hlt|Hge].
    - apply Qlt_le_weak, (cdf_incr Phi Phi_normal); lra.
    - rewrite (cdf_compat Phi Phi_normal (nth i grid_x 0) (nth j grid_x 0))
        by lra.
      apply Qle_refl. }
  replace n with (Z.of_nat (Z.to_nat n)) by lia.
  pose proof (Qpower_monotone (1 - Phi (nth j grid_x 0))
                (1 - Phi (nth i grid_x 0)) (Z.to_nat n)
                ltac:(lra) ltac:(lra)) as Hpow.
  lra.
Qed.

Lemma ratio_positive_of_window (n : Z) :
  (2 <= n)%Z -> 0 < Qabs (Numpy.interp (1 # 2) (table n) grid_x).
Proof.
  intros Hn.
  pose proof (table_499_above_half n Hn) as H499.
  destruct (interp_cases (1 # 2) (table n) grid_x)
    as [[_ Hv] | [[_ Hv] | Hmid]].
  - rewrite Hv, (grid_x_nth 0) by lia. reflexivity.
  - rewrite Hv, table_length, (grid_x_nth 999) by lia. reflexivity.
  - cbv zeta in Hmid.
    set (j := Numpy.search (1 # 2) (table n)) in *.
    destruct Hmid as [HL [Hlen [Hlo [Hhi Hv]]]].
    assert (Hj : (S j <= 499)%nat).
    { rewrite HL. apply leading_le_first_above; [|exact H499].
      rewrite table_length. lia. }
    pose proof (grid_x_negative (S j) Hj) as Hneg.
    pose proof (grid_x_nth j ltac:(lia)) as Hxj.
    pose proof (grid_x_nth (S j) ltac:(lia)) as Hxs.
    replace (Z.of_nat (S j)) with (Z.of_nat j + 1)%Z in Hxs by lia.
    rewrite inject_Z_plus in Hxs. change (inject_Z 1) with 1 in Hxs.
    set (xj := nth j grid_x 0) in *. set (xs := nth (S j) grid_x 0) in *.
    set (Fj := nth j (table n) 0) in *. set (Fs := nth (S j) (table n) 0) in *.
    assert (Htheta : ((1 # 2) - Fj) / (Fs - Fj) < 1)
      by (apply Qlt_shift_div_r; lra).
    assert (Hstep : 0 < xs - xj) by lra.
    assert (Hval : Numpy.interp (1 # 2) (table n) grid_x < 0).
    { rewrite Hv. set (theta := ((1 # 2) - Fj) / (Fs - Fj)) in *. nra. }
    rewrite Qabs_neg by lra. lra.
Qed.

(** With an empty window the table is 0 throughout and the interpolation
    returns the last sample. *)
Lemma ratio_of_empty_window :
  Qabs (Numpy.interp (1 # 2) (table 0) grid_x) == 10.
Proof.
  assert (Hzero : forall k, (k < 1000)%nat -> nth k (table 0) 0 == 0).
  { intros k Hk. rewrite table_nth by exact Hk.
    change ((1 - Phi (nth k grid_x 0)) ^ 0) with 1. reflexivity. }
  destruct (interp_cases (1 # 2) (table 0) grid_x)
    as [[Hlt _] | [[_ Hv] | Hmid]].
  - rewrite Hzero in Hlt by lia. discriminate.
  - rewrite Hv, table_length, (grid_x_nth 999) by lia. reflexivity.
  - cbv zeta in Hmid. destruct Hmid as [_ [Hlen [_ [Hhi _]]]].
    rewrite table_length in Hlen. rewrite Hzero in Hhi by exact Hlen.
    discriminate.
Qed.

(** The ratio is positive for every box size other than 1 and -1. *)
Lemma calibration_ratio_positive (boxsize : Z) :
  boxsize <> 1%Z -> boxsize <> (-1)%Z -> 0 < calibration_ratio Phi boxsize.
Proof.
  intros H1 H2. unfold calibration_ratio. cbv zeta.
  fold (table (boxsize * boxsize)).
  destruct (Z.eq_dec boxsize 0) as [->|H0].
  - change (0 * 0)%Z with 0%Z. rewrite ratio_of_empty_window. reflexivity.
  - apply ratio_positive_of_window. nia.
Qed.

(** A window of a single pixel: the table is the distribution function
    itself, 1/2 falls between the two samples next to 0, and the
    interpolation between them gives exactly 0 (the two samples are
    symmetric about 0 and so are their ordinates about 1/2). *)
Lemma ratio_of_single_pixel :
  Qabs (Numpy.interp (1 # 2) (table 1) grid_x) == 0.
Proof.
  assert (Htab : forall k, (k < 1000)%nat ->
                   nth k (table 1) 0 == Phi (nth k grid_x 0)).
  { intros k Hk. rewrite table_nth by exact Hk. rewrite Qpower_1_r. ring. }
  assert (Hlow : forall k, (k <= 499)%nat -> nth k (table 1) 0 < 1 # 2).
  { intros k Hk. rewrite Htab by lia.
    apply Phi_below_half; [apply grid_x_range; lia | apply grid_x_negative, Hk]. }
  pose proof (grid_x_nth 499 ltac:(lia)) as Hx499.
  pose proof (grid_x_nth 500 ltac:(lia)) as Hx500.
  change (inject_Z (Z.of_nat 499)) with 499 in Hx499.
  change (inject_Z (Z.of_nat 500)) with 500 in Hx500.
  assert (Hhigh : forall k, (500 <= k < 1000)%nat -> 1 # 2 < nth k (table 1) 0).
  { intros k Hk. rewrite Htab by lia.
    apply Phi_above_half; [|apply grid_x_range; lia].
    pose proof (grid_x_increasing 500 k ltac:(lia) ltac:(lia)). lra. }
  assert (HL : Numpy.leading_le (1 # 2) (table 1) = 500%nat).
  { apply leading_le_exact.
    - rewrite table_length. lia.
    - intros i Hi. apply Qlt_le_weak, Hlow. lia.
    - apply Hhigh. lia. }
  assert (Hsym : nth 500 (table 1) 0 == 1 - nth 499 (table 1) 0).
  { rewrite !Htab by lia.
    rewrite <- (cdf_sym Phi Phi_normal) by (apply grid_x_range; lia).
    apply (cdf_compat Phi Phi_normal). lra. }
  destruct (interp_cases (1 # 2) (table 1) grid_x)
    as [[Hlt _] | [[[Hgt | Hlast] _] | Hmid]].
  - pose proof (Hlow 0%nat ltac:(lia)). lra.
  - rewrite table_length in Hgt. change (1000 - 1)%nat with 999%nat in Hgt.
    pose proof (Hhigh 999%nat ltac:(lia)). lra.
  - unfold Numpy.search in Hlast. rewrite HL, table_length in Hlast.
    discriminate.
  - cbv zeta in Hmid.
    assert (Hj : Numpy.search (1 # 2) (table 1) = 499%nat)
      by (unfold Numpy.search; rewrite HL; reflexivity).
    destruct Hmid as [_ [_ [_ [_ Hv]]]].
    generalize dependent (Numpy.search (1 # 2) (table 1)).
    intros j Hv Hj. subst j.
    pose proof (Hlow 499%nat ltac:(lia)) as H499.
    set (F499 := nth 499 (table 1) 0) in *.
    set (F500 := nth 500 (table 1) 0) in *.
    assert (Htheta : ((1 # 2) - F499) / (F500 - F499) == 1 # 2).
    { rewrite Hsym. field. lra. }
    assert (Hval : Numpy.interp (1 # 2) (table 1) grid_x == 0).
    { rewrite Hv, Htheta. lra. }
    rewrite Hval. reflexivity.
Qed.

Lemma calibration_ratio_single_pixel : calibration_ratio Phi 1 == 0.
Proof. exact ratio_of_single_pixel. Qed.

End Calibration.

(** The piecewise linear function has the properties asked of the
    distribution function. *)
Ltac split_pieces :=
  repeat match goal with
         | |- context [Qltb ?a ?b] =>
             let E := fresh "E" in
             destruct (Qltb a b) eqn:E;
             [apply Qltb_lt in E | apply Qltb_ge in E]
         end.

Lemma Phi_pw_normal : normal_cdf Phi_pw.
Proof.
  split; unfold Phi_pw; intros; split_pieces; lra.
Qed.

(** ** The noise map *)

Lemma all_px_gmap {A B : Type} (P : A -> Prop) (R : B -> Prop) (f : A -> B)
    (g : grid A) :
  (forall a, P a -> R (f a)) -> all_px P g -> all_px R (gmap f g).
Proof.
  intros Hf Hg. unfold all_px, gmap. apply Forall_map.
  eapply Forall_impl; [|exact Hg]. intros row Hrow.
  apply Forall_map. eapply Forall_impl; [|exact Hrow]. exact Hf.
Qed.

Lemma all_px_true {A : Type} (g : grid A) : all_px (fun _ => True) g.
Proof.
  unfold all_px. apply Forall_forall. intros row _.
  apply Forall_forall. intros a _. exact I.
Qed.

Lemma all_px_flatten {A : Type} (P : A -> Prop) (g : grid A) :
  all_px P g -> Forall P (flatten g).
Proof.
  unfold all_px, flatten. induction 1 as [|row g Hrow Hg IH]; cbn [concat].
  - constructor.
  - apply Forall_app. split; assumption.
Qed.

Lemma all_px_get {A : Type} (P : A -> Prop) (d : A) (g : grid A) i j :
  all_px P g -> P d -> P (get d g i j).
Proof.
  intros Hg Hd. unfold get.
  assert (Hrow : Forall P (nth i g [])).
  { destruct (Nat.lt_ge_cases i (length g)) as [Hi|Hi].
    - unfold all_px in Hg. rewrite Forall_forall in Hg.
      apply Hg, nth_In, Hi.
    - rewrite nth_overflow by exact Hi. constructor. }
  destruct (Nat.lt_ge_cases j (length (nth i g []))) as [Hj|Hj].
  - rewrite Forall_forall in Hrow. apply Hrow, nth_In, Hj.
  - rewrite nth_overflow by exact Hj. exact Hd.
Qed.

Lemma length_flatten {A : Type} (h w : nat) (g : grid A) :
  shaped h w g -> length (flatten g) = (h * w)%nat.
Proof.
  intros [Hh Hw]. subst h. unfold flatten.
  induction Hw as [|row g Hrow Hg IH]; [reflexivity|].
  cbn [concat length]. rewrite length_app, IH, Hrow. lia.
Qed.

Lemma insert_Forall (P : Q -> Prop) (x : Q) (l : list Q) :
  P x -> Forall P l -> Forall P (Numpy.insert x l).
Proof.
  intros Hx Hl. induction Hl as [|y l Hy Hl IH]; cbn.
  - constructor; [exact Hx | constructor].
  - destruct (Qle_bool x y); repeat constructor; assumption.
Qed.

Lemma sort_Forall (P : Q -> Prop) (l : list Q) :
  Forall P l -> Forall P (Numpy.sort l).
Proof.
  unfold Numpy.sort. induction 1 as [|x l Hx Hl IH]; cbn [fold_right].
  - constructor.
  - apply insert_Forall; assumption.
Qed.

Lemma length_insert (x : Q) (l : list Q) :
  length (Numpy.insert x l) = S (length l).
Proof.
  induction l as [|y l IH]; cbn; [reflexivity|].
  destruct (Qle_bool x y); cbn; [reflexivity | rewrite IH; reflexivity].
Qed.

Lemma length_sort (l : list Q) : length (Numpy.sort l) = length l.
Proof.
  unfold Numpy.sort. induction l as [|x l IH]; cbn [fold_right length].
  - reflexivity.
  - rewrite length_insert, IH. reflexivity.
Qed.

(** The median of a non-empty array exists, and it has every property that
    holds for the elements and is kept by the mean of two values. *)
Lemma median_property (P : Q -> Prop) (l : list Q) :
  l <> [] ->
  Forall P l ->
  (forall a b, P a -> P b -> P ((a + b) / 2)) ->
  exists m, Numpy.median l = Ok m /\ P m.
Proof.
  intros Hne Hl Hmean. unfold Numpy.median. cbv zeta.
  pose proof (sort_Forall P l Hl) as Hs.
  pose proof (length_sort l) as Hlen.
  set (s := Numpy.sort l) in *.
  assert (Hpos : (0 < length s)%nat).
  { rewrite Hlen. destruct l; [congruence | cbn; lia]. }
  assert (Hnth : forall k, (k < length s)%nat -> P (nth k s 0)).
  { intros k Hk. rewrite Forall_forall in Hs. apply Hs, nth_In, Hk. }
  destruct (length s) as [|n] eqn:En; [lia|].
  assert (Hhalf : (S n / 2 < S n)%nat) by (apply Nat.div_lt; lia).
  destruct (Nat.odd (S n)).
  - eexists. split; [reflexivity|]. apply Hnth. exact Hhalf.
  - eexists. split; [reflexivity|]. apply Hmean; apply Hnth; lia.
Qed.

Lemma minimum_filter_shaped (h w : nat) (img : grid Q) (box : Z * Z) :
  shaped h w img -> (0 < h)%nat -> shaped h w (Ndimage.minimum_filter img box).
Proof.
  intros Hs Hh. unfold Ndimage.minimum_filter.
  assert (H0 : shaped h w
                 (if (1 <? fst box)%Z
                  then Ndimage.minimum_filter_rows (fst box) img else img)).
  { destruct (1 <? fst box)%Z; [|exact Hs].
    unfold Ndimage.minimum_filter_rows.
    rewrite (shaped_width h w img Hs Hh). unfold height. rewrite (proj1 Hs).
    apply shaped_tabulate. }
  destruct (1 <? snd box)%Z; [|exact H0].
  unfold Ndimage.minimum_filter_cols.
  rewrite (shaped_width h w _ H0 Hh). unfold height. rewrite (proj1 H0).
  apply shaped_tabulate.
Qed.

Lemma floor_guard_nonnegative (g : grid Q) :
  all_px (fun v => 0 <= v) (floor_guard g).
Proof.
  unfold floor_guard.
  apply (all_px_gmap (fun _ => True)); [|apply all_px_true].
  intros v _. destruct (Qltb v 0) eqn:E.
  - discriminate.
  - apply Qltb_ge, E.
Qed.

Lemma median_clamp_above (m : Q) (g : grid Q) :
  all_px (fun v => m <= v) (median_clamp m g).
Proof.
  unfold median_clamp.
  apply (all_px_gmap (fun _ => True)); [|apply all_px_true].
  intros v _. destruct (Qltb v m) eqn:E.
  - apply Qle_refl.
  - apply Qltb_ge, E.
Qed.

Lemma median_clamp_keeps (P : Q -> Prop) (m : Q) (g : grid Q) :
  P m -> all_px P g -> all_px P (median_clamp m g).
Proof.
  intros Hm. unfold median_clamp. apply all_px_gmap.
  intros v Hv. destruct (Qltb v m); assumption.
Qed.

(** The noise map unfolded: the floored noise, its median, and the clamped
    map. *)
Lemma clamped_noise_steps (ratio : Q) (image : Image) (boxsize : Z)
    (noise : NoiseMap) :
  clamped_noise ratio image boxsize = Ok noise ->
  exists floored med,
    floored = floor_guard
                (gmap (fun m => - m / ratio)
                   (Ndimage.minimum_filter image (boxsize, boxsize))) /\
    Numpy.median (flatten floored) = Ok med /\
    median_of_noise ratio image boxsize = Ok med /\
    noise = median_clamp med floored.
Proof.
  unfold clamped_noise, median_of_noise, floored_noise.
  destruct (Qeq_bool ratio 0); [discriminate|].
  cbn [bind].
  destruct (Numpy.median _) as [med|e] eqn:Hmed; [|discriminate].
  cbn [bind]. intros H. injection H as <-.
  eexists. exists med.
  split; [reflexivity|]. split; [exact Hmed|].
  split; reflexivity.
Qed.

(** On a non-empty image, with a ratio that is not 0, the noise map and its
    median exist. *)
Lemma clamped_noise_returns (ratio : Q) (image : Image) (boxsize : Z)
    (h w : nat) :
  shaped h w image -> (0 < h)%nat -> (0 < w)%nat ->
  ~ ratio == 0 ->
  exists med noise,
    median_of_noise ratio image boxsize = Ok med /\
    clamped_noise ratio image boxsize = Ok noise /\
    shaped h w noise.
Proof.
  intros Hs Hh Hw Hratio.
  unfold clamped_noise, median_of_noise, floored_noise.
  destruct (Qeq_bool ratio 0) eqn:E.
  { apply Qeq_bool_iff in E. contradiction. }
  cbn [bind].
  set (floored := floor_guard _).
  assert (Hfl : shaped h w floored).
  { unfold floored, floor_guard. apply shaped_gmap, shaped_gmap.
    apply minimum_filter_shaped; assumption. }
  destruct (median_property (fun _ => True) (flatten floored)) as [med [Hmed _]].
  - intros Hnil. apply (f_equal (@length Q)) in Hnil.
    rewrite (length_flatten h w floored Hfl) in Hnil. cbn in Hnil. nia.
  - apply Forall_forall. intros; exact I.
  - intros; exact I.
  - exists med. eexists. rewrite Hmed. cbn [bind].
    split; [reflexivity|]. split; [reflexivity|].
    unfold median_clamp. apply shaped_gmap, Hfl.
Qed.

Lemma median_Ok_property (P : Q -> Prop) (l : list Q) (m : Q) :
  Numpy.median l = Ok m ->
  Forall P l ->
  (forall a b, P a -> P b -> P ((a + b) / 2)) ->
  P m.
Proof.
  intros Hm Hl Hmean.
  destruct l as [|x l]; [discriminate|].
  destruct (median_property P (x :: l)) as [m' [Hm' HP]];
    [discriminate | exact Hl | exact Hmean |].
  rewrite Hm in Hm'. injection Hm' as <-. exact HP.
Qed.

(** Every element of a noise map is at least 0. *)
Lemma clamped_noise_nonnegative (ratio : Q) (image : Image) (boxsize : Z) noise :
  clamped_noise ratio image boxsize = Ok noise ->
  all_px (fun v => 0 <= v) noise.
Proof.
  intros Hmake.
  destruct (clamped_noise_steps ratio image boxsize noise Hmake)
    as [floored [med [Hdef [Hmed [_ ->]]]]].
  assert (Hnn : all_px (fun v => 0 <= v) floored)
    by (rewrite Hdef; apply floor_guard_nonnegative).
  apply median_clamp_keeps; [|exact Hnn].
  apply (median_Ok_property (fun v => 0 <= v) (flatten floored)).
  - exact Hmed.
  - apply all_px_flatten, Hnn.
  - intros a b Ha Hb. apply Qle_shift_div_l; lra.
Qed.

(** Where every windowed minimum is 0 the noise map is 0 throughout: the
    floor guard replaces values below 0 only, and [- 0 / ratio] is not below
    0. *)
Lemma noise_of_zero_minima (ratio : Q) (image : Image) (boxsize : Z)
    (h w : nat) :
  shaped h w image -> (0 < h)%nat -> (0 < w)%nat ->
  ~ ratio == 0 ->
  all_px (fun v => v == 0) (Ndimage.minimum_filter image (boxsize, boxsize)) ->
  exists noise,
    clamped_noise ratio image boxsize = Ok noise /\
    shaped h w noise /\
    all_px (fun v => v == 0) noise.
Proof.
  intros Hs Hh Hw Hratio Hmin.
  destruct (clamped_noise_returns ratio image boxsize h w Hs Hh Hw Hratio)
    as [med [noise [_ [Hmake Hshape]]]].
  exists noise. split; [exact Hmake|]. split; [exact Hshape|].
  destruct (clamped_noise_steps ratio image boxsize noise Hmake)
    as [floored [med' [Hdef [Hmed' [_ ->]]]]].
  assert (Hz : all_px (fun v => v == 0) floored).
  { rewrite Hdef. unfold floor_guard.
    apply (all_px_gmap (fun v => v == 0)).
    - intros v Hv. destruct (Qltb v 0) eqn:E; [|exact Hv].
      apply Qltb_lt in E. rewrite Hv in E. discriminate.
    - apply (all_px_gmap (fun v => v == 0)); [|exact Hmin].
      intros v Hv. unfold Qdiv. rewrite Hv. ring. }
  apply median_clamp_keeps; [|exact Hz].
  apply (median_Ok_property (fun v => v == 0) (flatten floored)).
  - exact Hmed'.
  - apply all_px_flatten, Hz.
  - intros a b Ha Hb. rewrite Ha, Hb. reflexivity.
Qed.

Lemma ratio_nonzero Phi (boxsize : Z) :
  normal_cdf Phi -> boxsize <> 1%Z -> boxsize <> (-1)%Z ->
  ~ calibration_ratio Phi boxsize == 0.
Proof.
  intros HPhi H1 H2 Hz.
  pose proof (calibration_ratio_positive Phi HPhi boxsize H1 H2) as Hpos.
  rewrite Hz in Hpos. discriminate.
Qed.

(** C2 (as amended).  For every image of shape [(h, w)] with [h, w > 0] and
    every box size of at least 2, [make_noise_map] returns a noise map whose
    every element is at least 0. *)
Theorem noise_map_nonnegative Phi (image : Image) (boxsize : Z) (h w : nat) :
  normal_cdf Phi ->
  shaped h w image -> (0 < h)%nat -> (0 < w)%nat ->
  (2 <= boxsize)%Z ->
  exists noise,
    make_noise_map Phi image boxsize = Ok noise /\
    all_px (fun v => 0 <= v) noise.
Proof.
  intros HPhi Hs Hh Hw Hbox.
  pose proof (ratio_nonzero Phi boxsize HPhi ltac:(lia) ltac:(lia)) as Hratio.
  unfold make_noise_map.
  destruct (clamped_noise_returns _ image boxsize h w Hs Hh Hw Hratio)
    as [med [noise [_ [Hmake _]]]].
  exists noise. split; [exact Hmake|].
  exact (clamped_noise_nonnegative _ image boxsize noise Hmake).
Qed.

Lemma noise_map_nonnegative_witness :
  exists noise,
    make_noise_map Phi_pw spot_image 3 = Ok noise /\
    all_px (fun v => 0 <= v) noise.
Proof.
  apply (noise_map_nonnegative Phi_pw spot_image 3 7 7).
  - exact Phi_pw_normal.
  - split; [reflexivity | repeat constructor].
  - lia.
  - lia.
  - lia.
Defined.

(** C2 as stated fails: the noise map of the all-zero 5x5 image with box
    size 3 has elements that are not above 0 (they are all 0). *)
Lemma noise_map_not_positive :
  exists noise,
    make_noise_map Phi_pw zero_image 3 = Ok noise /\
    ~ all_px (fun v => 0 < v) noise.
Proof.
  eexists. split; [vm_compute; reflexivity|].
  intros H. inversion H as [|row rows Hrow _]; subst.
  inversion Hrow as [|v vs Hv _]; subst. discriminate Hv.
Qed.

(** ** The noise map in floating point *)

Lemma ieee_le_refl (a : Ieee.value) :
  Ieee.is_nan a = false -> Ieee.le a a = true.
Proof.
  destruct a as [x| | |]; intros H; try reflexivity; try discriminate.
  simpl. apply Qle_bool_iff, Qle_refl.
Qed.

Lemma ieee_lt_false_le (a b : Ieee.value) :
  Ieee.is_nan a = false -> Ieee.is_nan b = false ->
  Ieee.lt a b = false -> Ieee.le b a = true.
Proof.
  destruct a as [x| | |]; destruct b as [y| | |]; simpl;
    intros Ha Hb H; try reflexivity; try discriminate.
  unfold Qltb in H. apply negb_false_iff in H. exact H.
Qed.

Lemma ieee_insert_In (x y : Ieee.value) (l : list Ieee.value) :
  In x (Ieee.insert y l) -> x = y \/ In x l.
Proof.
  induction l as [|z l IH]; simpl.
  - intros [H|[]]. left. symmetry. exact H.
  - destruct (Ieee.le y z).
    + intros [H|H]; [left; symmetry; exact H | right; exact H].
    + intros [H|H].
      * right. left. exact H.
      * destruct (IH H) as [H'|H']; [left; exact H' | right; right; exact H'].
Qed.

Lemma ieee_sort_In (x : Ieee.value) (l : list Ieee.value) :
  In x (Ieee.sort l) -> In x l.
Proof.
  induction l as [|y l IH]; simpl; [intros []|].
  intros H. destruct (ieee_insert_In x y _ H) as [->|H'].
  - left. reflexivity.
  - right. apply IH, H'.
Qed.

Lemma ieee_length_insert (x : Ieee.value) (l : list Ieee.value) :
  length (Ieee.insert x l) = S (length l).
Proof.
  induction l as [|y l IH]; [reflexivity|].
  simpl. destruct (Ieee.le x y); simpl; [reflexivity | rewrite IH; reflexivity].
Qed.

Lemma ieee_length_sort (l : list Ieee.value) :
  length (Ieee.sort l) = length l.
Proof.
  induction l as [|y l IH]; [reflexivity|].
  simpl. rewrite ieee_length_insert, IH. reflexivity.
Qed.

(** The median is [nan], an element, or the mean of two elements. *)
Lemma ieee_median_cases (l : list Ieee.value) :
  Ieee.median l = Ieee.NaN \/ In (Ieee.median l) l \/
  exists a b, In a l /\ In b l /\
    Ieee.median l = Ieee.halve (Ieee.add a b).
Proof.
  unfold Ieee.median.
  destruct (existsb Ieee.is_nan l); [left; reflexivity|].
  cbv zeta.
  destruct (length (Ieee.sort l)) as [|k] eqn:Hlen; [left; reflexivity|].
  assert (Hhalf : (S k / 2 < length (Ieee.sort l))%nat).
  { rewrite Hlen. apply Nat.div_lt; lia. }
  destruct (Nat.odd (S k)).
  - right. left. apply ieee_sort_In, nth_In, Hhalf.
  - right. right.
    exists (nth (S k / 2 - 1) (Ieee.sort l) Ieee.NaN),
           (nth (S k / 2) (Ieee.sort l) Ieee.NaN).
    split; [apply ieee_sort_In, nth_In; lia|].
    split; [apply ieee_sort_In, nth_In, Hhalf | reflexivity].
Qed.

(** A median that is not [nan] is the median of values none of which is
    [nan]. *)
Lemma ieee_median_nan_free (l : list Ieee.value) :
  Ieee.is_nan (Ieee.median l) = false ->
  Forall (fun v => Ieee.is_nan v = false) l.
Proof.
  unfold Ieee.median. intros H.
  destruct (existsb Ieee.is_nan l) eqn:E; [discriminate|].
  apply Forall_forall. intros v Hv.
  destruct (Ieee.is_nan v) eqn:Ev; [|reflexivity].
  assert (Hex : existsb Ieee.is_nan l = true).
  { apply existsb_exists. exists v. split; assumption. }
  congruence.
Qed.

Lemma all_px_of_flatten {A : Type} (P : A -> Prop) (g : grid A) :
  Forall P (flatten g) -> all_px P g.
Proof.
  unfold flatten, all_px. induction g as [|row g IH]; simpl; intros H.
  - constructor.
  - apply Forall_app in H. destruct H as [H1 H2].
    constructor; [exact H1 | apply IH, H2].
Qed.

(** The clamp: when the median is not [nan], every element of the clamped
    map is at least the median. *)
Lemma ieee_median_clamp_above (g : grid Ieee.value) :
  let med := Ieee.median (flatten g) in
  Ieee.is_nan med = false ->
  all_px (fun v => Ieee.le med v = true) (Ieee.median_clamp med g).
Proof.
  intros med Hmed. unfold Ieee.median_clamp.
  apply (all_px_gmap (fun v => Ieee.is_nan v = false)).
  - intros v Hv. destruct (Ieee.lt v med) eqn:E.
    + apply ieee_le_refl, Hmed.
    + apply ieee_lt_false_le; assumption.
  - apply all_px_of_flatten, ieee_median_nan_free, Hmed.
Qed.

Lemma ieee_insert_finite (x : Q) (l : list Q) :
  Ieee.insert (Ieee.Finite x) (map Ieee.Finite l)
  = map Ieee.Finite (Numpy.insert x l).
Proof.
  induction l as [|y l IH]; [reflexivity|].
  simpl. destruct (Qle_bool x y); [reflexivity|].
  simpl. rewrite IH. reflexivity.
Qed.

Lemma ieee_sort_finite (l : list Q) :
  Ieee.sort (map Ieee.Finite l) = map Ieee.Finite (Numpy.sort l).
Proof.
  induction l as [|x l IH]; [reflexivity|].
  simpl. rewrite IH. apply ieee_insert_finite.
Qed.

Lemma nth_map_finite (l : list Q) (i : nat) :
  (i < length l)%nat ->
  nth i (map Ieee.Finite l) Ieee.NaN = Ieee.Finite (nth i l 0).
Proof.
  intros Hi. rewrite (nth_indep _ Ieee.NaN (Ieee.Finite 0))
    by (rewrite length_map; exact Hi).
  apply map_nth.
Qed.

(** On numbers the two medians agree. *)
Lemma ieee_median_finite (l : list Q) (m : Q) :
  Numpy.median l = Ok m ->
  Ieee.median (map Ieee.Finite l) = Ieee.Finite m.
Proof.
  unfold Numpy.median, Ieee.median. cbv zeta.
  assert (Hnan : existsb Ieee.is_nan (map Ieee.Finite l) = false).
  { induction l as [|x l IH]; [reflexivity | exact IH]. }
  rewrite Hnan, ieee_sort_finite, length_map.
  destruct (length (Numpy.sort l)) as [|k] eqn:Hlen; [discriminate|].
  assert (Hhalf : (S k / 2 < S k)%nat) by (apply Nat.div_lt; lia).
  destruct (Nat.odd (S k)); intros H; injection H as <-.
  - apply nth_map_finite. rewrite Hlen. exact Hhalf.
  - rewrite !nth_map_finite
      by (rewrite Hlen; revert Hhalf; generalize (S k / 2)%nat; intros; lia).
    reflexivity.
Qed.

Lemma flatten_gmap {A B : Type} (f : A -> B) (g : grid A) :
  flatten (gmap f g) = map f (flatten g).
Proof.
  unfold flatten, gmap. symmetry. apply concat_map.
Qed.

Lemma gmap_gmap {A B C : Type} (f : A -> B) (k : B -> C) (g : grid A) :
  gmap k (gmap f g) = gmap (fun a => k (f a)) g.
Proof.
  unfold gmap. rewrite map_map. apply map_ext. intros row. apply map_map.
Qed.

Lemma gmap_ext {A B : Type} (f k : A -> B) (g : grid A) :
  (forall a, f a = k a) -> gmap f g = gmap k g.
Proof.
  intros H. unfold gmap. apply map_ext. intros row. apply map_ext, H.
Qed.

(** With a ratio that is not 0 the floored noise consists of numbers. *)
Lemma ieee_floored_finite (negative : Q -> Q) (ratio : Q) (image : Image)
    (boxsize : Z) :
  ~ ratio == 0 ->
  Ieee.floored_noise negative ratio image boxsize
  = gmap Ieee.Finite
      (gmap (fun m => if Qltb (negative m / ratio) 0 then 1 # 10000000000
                      else negative m / ratio)
            (Ndimage.minimum_filter image (boxsize, boxsize))).
Proof.
  intros Hratio. unfold Ieee.floored_noise, Ieee.floor_guard. cbv zeta.
  rewrite !gmap_gmap. apply gmap_ext. intros m.
  unfold Ieee.divide.
  destruct (Qeq_bool ratio 0) eqn:E.
  - exfalso. apply Hratio, Qeq_bool_iff, E.
  - simpl. destruct (Qltb (negative m / ratio) 0); reflexivity.
Qed.

Lemma ieee_median_clamp_finite (med : Q) (g : grid Q) :
  Ieee.median_clamp (Ieee.Finite med) (gmap Ieee.Finite g)
  = gmap Ieee.Finite (gmap (fun v => if Qltb v med then med else v) g).
Proof.
  unfold Ieee.median_clamp. rewrite !gmap_gmap. apply gmap_ext.
  intros v. simpl. destruct (Qltb v med); reflexivity.
Qed.

(** With a ratio that is not 0, on a non-empty image, the median is a
    number and the noise map consists of numbers. *)
Lemma ieee_clamped_finite (negative : Q -> Q) (ratio : Q) (image : Image)
    (boxsize : Z) (h w : nat) :
  shaped h w image -> (0 < h)%nat -> (0 < w)%nat ->
  ~ ratio == 0 ->
  exists med,
    Ieee.median_of_noise negative ratio image boxsize = Ieee.Finite med /\
    Ieee.clamped_noise negative ratio image boxsize
    = gmap Ieee.Finite
        (gmap (fun v => if Qltb v med then med else v)
           (gmap (fun m => if Qltb (negative m / ratio) 0
                           then 1 # 10000000000 else negative m / ratio)
                 (Ndimage.minimum_filter image (boxsize, boxsize)))).
Proof.
  intros Hs Hh Hw Hratio.
  unfold Ieee.clamped_noise, Ieee.median_of_noise.
  rewrite (ieee_floored_finite negative ratio image boxsize Hratio).
  set (G := gmap _ (Ndimage.minimum_filter image (boxsize, boxsize))).
  assert (HG : shaped h w G).
  { apply shaped_gmap, minimum_filter_shaped; assumption. }
  assert (Hne : flatten G <> []).
  { intros Hnil. pose proof (length_flatten h w G HG) as Hlen.
    rewrite Hnil in Hlen. simpl in Hlen. nia. }
  destruct (median_property (fun _ => True) (flatten G) Hne)
    as [med [Hmed _]].
  { apply Forall_forall. intros; exact I. }
  { intros; exact I. }
  exists med. rewrite flatten_gmap.
  rewrite (ieee_median_finite _ med Hmed).
  split; [reflexivity | apply ieee_median_clamp_finite].
Qed.

(** Where [make_noise_map] gives a map of numbers, the floating-point noise
    map of an image with exact negation is that map. *)
Lemma make_noise_map_finite Phi (image : Image) (boxsize : Z)
    (noise : NoiseMap) :
  make_noise_map Phi image boxsize = Ok noise -> (boxsize < 2 ^ 31)%Z ->
  Ieee.make_noise_map Phi Qopp image boxsize
  = Returned (gmap Ieee.Finite noise).
Proof.
  unfold make_noise_map, Ieee.make_noise_map.
  generalize (calibration_ratio Phi boxsize). intros ratio Hnoise Hbox.
  destruct (Z.leb_spec (2 ^ 31) boxsize) as [Hge|_]; [lia|].
  f_equal.
  destruct (clamped_noise_steps ratio image boxsize noise Hnoise)
    as [floored [med [Hdef [Hmed [_ ->]]]]].
  assert (Hratio : ~ ratio == 0).
  { intros Hz. unfold clamped_noise, floored_noise in Hnoise.
    apply Qeq_bool_iff in Hz. rewrite Hz in Hnoise. discriminate. }
  unfold Ieee.clamped_noise, Ieee.median_of_noise.
  rewrite (ieee_floored_finite Qopp ratio image boxsize Hratio).
  assert (Hfl : gmap (fun m => if Qltb (- m / ratio) 0 then 1 # 10000000000
                               else - m / ratio)
                  (Ndimage.minimum_filter image (boxsize, boxsize))
                = floored).
  { rewrite Hdef. unfold floor_guard. rewrite gmap_gmap. reflexivity. }
  rewrite Hfl, flatten_gmap, (ieee_median_finite _ med Hmed).
  apply ieee_median_clamp_finite.
Qed.

Lemma ieee_clamped_shaped (negative : Q -> Q) (ratio : Q) (image : Image)
    (boxsize : Z) (h w : nat) :
  shaped h w image -> (0 < h)%nat ->
  shaped h w (Ieee.clamped_noise negative ratio image boxsize).
Proof.
  intros Hs Hh.
  unfold Ieee.clamped_noise, Ieee.median_clamp, Ieee.floored_noise,
    Ieee.floor_guard.
  cbv zeta. apply shaped_gmap, shaped_gmap, shaped_gmap.
  apply minimum_filter_shaped; assumption.
Qed.

(** C7 (as amended).  For every image of shape [(h, w)] with [h, w > 0],
    whatever its dtype, and every box size of the range of a C integer,
    [make_noise_map] returns a noise map of the shape of the image.
    Whenever [median_noise], the median of the values after the floor
    guard, is not [nan], every element of the map is at least that median;
    and the median is a number for every box size other than 1 and -1. *)
Theorem noise_map_above_median Phi (negative : Q -> Q) (image : Image)
    (boxsize : Z) (h w : nat) :
  shaped h w image -> (0 < h)%nat -> (0 < w)%nat ->
  (- 2 ^ 31 <= boxsize < 2 ^ 31)%Z ->
  exists noise,
    Ieee.make_noise_map Phi negative image boxsize = Returned noise /\
    shaped h w noise /\
    (Ieee.is_nan (Ieee.median_noise Phi negative image boxsize) = false ->
     all_px
       (fun v =>
          Ieee.le (Ieee.median_noise Phi negative image boxsize) v = true)
       noise) /\
    (normal_cdf Phi -> boxsize <> 1%Z -> boxsize <> (-1)%Z ->
     exists med,
       Ieee.median_noise Phi negative image boxsize = Ieee.Finite med).
Proof.
  intros Hs Hh Hw Hbox.
  pose proof (fun HPhi H1 H2 => ratio_nonzero Phi boxsize HPhi H1 H2)
    as Hratio.
  revert Hratio. unfold Ieee.make_noise_map, Ieee.median_noise.
  generalize (calibration_ratio Phi boxsize). intros ratio Hratio.
  destruct (Z.leb_spec (2 ^ 31) boxsize) as [Hge|_]; [lia|].
  eexists. split; [reflexivity|].
  split; [apply ieee_clamped_shaped; assumption|].
  split.
  - intros Hmed. unfold Ieee.clamped_noise, Ieee.median_of_noise in *.
    apply ieee_median_clamp_above, Hmed.
  - intros HPhi H1 H2.
    destruct (ieee_clamped_finite negative ratio image boxsize h w Hs Hh Hw
                (Hratio HPhi H1 H2)) as [med [Hmed _]].
    exists med. exact Hmed.
Qed.

Lemma noise_map_above_median_witness :
  exists noise,
    Ieee.make_noise_map Phi_pw Qopp dip_image 3 = Returned noise /\
    shaped 4 4 noise /\
    (Ieee.is_nan (Ieee.median_noise Phi_pw Qopp dip_image 3) = false ->
     all_px
       (fun v => Ieee.le (Ieee.median_noise Phi_pw Qopp dip_image 3) v = true)
       noise) /\
    (normal_cdf Phi_pw -> 3%Z <> 1%Z -> 3%Z <> (-1)%Z ->
     exists med, Ieee.median_noise Phi_pw Qopp dip_image 3 = Ieee.Finite med).
Proof.
  apply (noise_map_above_median Phi_pw Qopp dip_image 3 4 4).
  - split; [reflexivity | repeat constructor].
  - lia.
  - lia.
  - lia.
Defined.

(** On the image with the dip the clamp does its work: the element (3, 3)
    lies below the median after the floor guard, and is the median in the
    noise map. *)
Lemma dip_image_is_clamped :
  Ieee.lt
    (get Ieee.NaN
       (Ieee.floored_noise Qopp (calibration_ratio Phi_pw 3) dip_image 3) 3 3)
    (Ieee.median_noise Phi_pw Qopp dip_image 3) = true /\
  get Ieee.NaN
    (Ieee.clamped_noise Qopp (calibration_ratio Phi_pw 3) dip_image 3) 3 3
  = Ieee.median_noise Phi_pw Qopp dip_image 3.
Proof.
  split; vm_compute; reflexivity.
Qed.

(** C7 as stated fails: with the box size 1 the calibration ratio is 0, the
    quotient of line 59 is [nan] wherever the image is 0, the median of the
    7x7 image with the spot is [nan], and no element is at least [nan]. *)
Lemma noise_map_not_above_median :
  exists noise,
    Ieee.make_noise_map Phi_pw Qopp spot_image 1 = Returned noise /\
    Ieee.median_noise Phi_pw Qopp spot_image 1 = Ieee.NaN /\
    ~ all_px
        (fun v =>
           Ieee.le (Ieee.median_noise Phi_pw Qopp spot_image 1) v = true)
        noise.
Proof.
  eexists. split; [vm_compute; reflexivity|].
  split; [vm_compute; reflexivity|].
  intros H. inversion H as [|row rows Hrow _]; subst.
  inversion Hrow as [|v vs Hv _]; subst.
  vm_compute in Hv. discriminate Hv.
Qed.

(** ** The calibration ratio *)

(** C4 (as amended).  The ratio is a function of the box size (and of the
    distribution function); for a box size of at least 2 it is strictly
    positive, and for the box size 1 it is 0. *)
Theorem calibration_ratio_sign Phi (boxsize : Z) :
  normal_cdf Phi ->
  (0 < boxsize)%Z ->
  (boxsize = 1%Z /\ calibration_ratio Phi boxsize == 0) \/
  ((2 <= boxsize)%Z /\ 0 < calibration_ratio Phi boxsize).
Proof.
  intros HPhi Hpos.
  destruct (Z.eq_dec boxsize 1) as [->|Hne].
  - left. split; [reflexivity|].
    exact (calibration_ratio_single_pixel Phi HPhi).
  - right. split; [lia|].
    apply (calibration_ratio_positive Phi HPhi); lia.
Qed.

Lemma calibration_ratio_sign_witness :
  (3%Z = 1%Z /\ calibration_ratio Phi_pw 3 == 0) \/
  ((2 <= 3)%Z /\ 0 < calibration_ratio Phi_pw 3).
Proof.
  apply (calibration_ratio_sign Phi_pw 3).
  - exact Phi_pw_normal.
  - lia.
Defined.

(** C4 as stated fails: the ratio of the box size 1 is not strictly
    positive. *)
Lemma calibration_ratio_not_positive :
  ~ (forall Phi, normal_cdf Phi ->
     forall boxsize, (0 < boxsize)%Z -> 0 < calibration_ratio Phi boxsize).
Proof.
  intros H.
  specialize (H Phi_pw Phi_pw_normal 1%Z eq_refl).
  rewrite (calibration_ratio_single_pixel Phi_pw Phi_pw_normal) in H.
  discriminate H.
Qed.

(** ** The two scenarios *)

Lemma zero_image_minima :
  all_px (fun v => v == 0) (Ndimage.minimum_filter zero_image (3, 3)%Z).
Proof. vm_compute. repeat constructor. Qed.

Lemma spot_image_minima :
  all_px (fun v => v == 0) (Ndimage.minimum_filter spot_image (3, 3)%Z).
Proof. vm_compute. repeat constructor. Qed.

Lemma zero_image_shaped : shaped 5 5 zero_image.
Proof. split; [reflexivity | repeat constructor]. Qed.

Lemma spot_image_shaped : shaped 7 7 spot_image.
Proof. split; [reflexivity | repeat constructor]. Qed.

Lemma threshold_mask_zero_image (threshold : Q) (noise : NoiseMap) :
  all_px (fun v => v == 0) noise ->
  threshold_mask zero_image threshold noise = Numpy.zeros 5 5.
Proof.
  intros Hnoise. unfold threshold_mask, Numpy.zeros.
  change (height zero_image) with 5%nat. change (width zero_image) with 5%nat.
  apply tabulate_ext. intros i j _ _.
  pose proof (all_px_get (fun v => v == 0) 0 noise i j Hnoise (Qeq_refl 0)) as Hn.
  assert (Hi : get 0 zero_image i j == 0).
  { apply (all_px_get (fun v => v == 0)); [|reflexivity].
    unfold zero_image. repeat constructor. }
  cbv beta in Hn. apply Qltb_ge. rewrite Hn, Hi. lra.
Qed.

Lemma threshold_mask_spot_image (noise : NoiseMap) :
  all_px (fun v => v == 0) noise ->
  threshold_mask spot_image 1 noise = single_px.
Proof.
  intros Hnoise. unfold threshold_mask.
  change (height spot_image) with 7%nat. change (width spot_image) with 7%nat.
  rewrite (shaped_as_tabulate false 7 7 single_px)
    by (split; [reflexivity | repeat constructor]).
  apply tabulate_ext. intros i j Hi Hj.
  pose proof (all_px_get (fun v => v == 0) 0 noise i j Hnoise (Qeq_refl 0)) as Hn.
  cbv beta in Hn.
  unfold spot_image. rewrite get_tabulate by assumption.
  assert (Hsingle : get false single_px i j = ((i =? 3) && (j =? 3))%nat).
  { do 7 (destruct i as [|i]; [do 7 (destruct j as [|j]; [reflexivity|]); lia|]).
    lia. }
  rewrite Hsingle.
  destruct ((i =? 3) && (j =? 3))%nat.
  - apply Qltb_lt. rewrite Hn. reflexivity.
  - apply Qltb_ge. rewrite Hn. discriminate.
Qed.

(** C1 (as amended).  For the all-zero 5x5 image and the box size 3,
    [make_noise_map] returns a noise map whose every element is 0, and for
    every positive threshold the mask after border suppression is [false]
    everywhere. *)
Theorem zero_image_scenario Phi (threshold : Q) :
  normal_cdf Phi ->
  0 < threshold ->
  exists noise,
    make_noise_map Phi zero_image 3 = Ok noise /\
    all_px (fun v => v == 0) noise /\
    suppress_border (threshold_mask zero_image threshold noise) =
      Ok (Numpy.zeros 5 5).
Proof.
  intros HPhi _.
  pose proof (ratio_nonzero Phi 3 HPhi ltac:(lia) ltac:(lia)) as Hratio.
  unfold make_noise_map.
  destruct (noise_of_zero_minima _ zero_image 3 5 5 zero_image_shaped
              ltac:(lia) ltac:(lia) Hratio zero_image_minima)
    as [noise [Hmake [_ Hzero]]].
  exists noise. split; [exact Hmake|]. split; [exact Hzero|].
  rewrite (threshold_mask_zero_image threshold noise Hzero).
  reflexivity.
Qed.

Lemma zero_image_scenario_witness :
  exists noise,
    make_noise_map Phi_pw zero_image 3 = Ok noise /\
    all_px (fun v => v == 0) noise /\
    suppress_border (threshold_mask zero_image (13 # 2) noise) =
      Ok (Numpy.zeros 5 5).
Proof.
  apply (zero_image_scenario Phi_pw (13 # 2)).
  - exact Phi_pw_normal.
  - reflexivity.
Defined.

(** C1 as stated fails: the elements of that noise map are not 1e-10. *)
Lemma zero_image_noise_not_floor :
  exists noise,
    make_noise_map Phi_pw zero_image 3 = Ok noise /\
    ~ all_px (fun v => v == 1 # 10000000000) noise.
Proof.
  eexists. split; [vm_compute; reflexivity|].
  intros H. inversion H as [|row rows Hrow _]; subst.
  inversion Hrow as [|v vs Hv _]; subst. discriminate Hv.
Qed.

(** C9.  For the 7x7 image that is 0 except for 100 at (3, 3), with
    threshold 1 and box size 3: the thresholded, border-suppressed mask has
    its one [true] element at (3, 3), and with one iteration of dilation the
    [true] elements are the five of the plus shape centred at (3, 3). *)
Theorem spot_image_scenario Phi :
  normal_cdf Phi ->
  exists noise,
    make_noise_map Phi spot_image 3 = Ok noise /\
    make_mask spot_image noise (run_options 1 3 0) = Ok single_px /\
    make_mask spot_image noise (run_options 1 3 1) = Ok plus_shape /\
    popcount single_px = 1%nat /\ popcount plus_shape = 5%nat.
Proof.
  intros HPhi.
  pose proof (ratio_nonzero Phi 3 HPhi ltac:(lia) ltac:(lia)) as Hratio.
  unfold make_noise_map.
  destruct (noise_of_zero_minima _ spot_image 3 7 7 spot_image_shaped
              ltac:(lia) ltac:(lia) Hratio spot_image_minima)
    as [noise [Hmake [_ Hzero]]].
  exists noise. split; [exact Hmake|].
  unfold make_mask, run_options. cbn [threshold dilate fill_holes].
  rewrite (threshold_mask_spot_image noise Hzero).
  repeat split; reflexivity.
Qed.

Lemma spot_image_scenario_witness :
  exists noise,
    make_noise_map Phi_pw spot_image 3 = Ok noise /\
    make_mask spot_image noise (run_options 1 3 0) = Ok single_px /\
    make_mask spot_image noise (run_options 1 3 1) = Ok plus_shape /\
    popcount single_px = 1%nat /\ popcount plus_shape = 5%nat.
Proof.
  apply (spot_image_scenario Phi_pw). exact Phi_pw_normal.
Defined.

(** ** The pipeline *)

Lemma threshold_mask_shaped (image : Image) (threshold : Q) (noise : NoiseMap)
    (h w : nat) :
  shaped h w image -> (0 < h)%nat ->
  shaped h w (threshold_mask image threshold noise).
Proof.
  intros Hs Hh. unfold threshold_mask.
  rewrite (shaped_width h w image Hs Hh). unfold height. rewrite (proj1 Hs).
  apply shaped_tabulate.
Qed.


Lemma ieee_threshold_mask_shaped (image : Image) (threshold : Q)
    (noise : grid Ieee.value) (h w : nat) :
  shaped h w image -> (0 < h)%nat ->
  shaped h w (Ieee.threshold_mask image threshold noise).
Proof.
  intros Hs Hh. unfold Ieee.threshold_mask.
  rewrite (shaped_width h w image Hs Hh). unfold height. rewrite (proj1 Hs).
  apply shaped_tabulate.
Qed.





(** * Further properties of the pipeline *)

(** ** What one pass of dilation sets *)

Lemma px_in_range {A : Type} (bv : A) (g : grid A) (y x : Z) :
  in_range g y x = true ->
  (0 <= y < Z.of_nat (height g))%Z /\ (0 <= x < Z.of_nat (width g))%Z /\
  px bv g y x = get bv g (Z.to_nat y) (Z.to_nat x).
Proof.
  intros Hin. unfold px. rewrite Hin. unfold in_range in Hin.
  apply andb_true_iff in Hin. destruct Hin as [Hin Hx2].
  apply andb_true_iff in Hin. destruct Hin as [Hin Hx1].
  apply andb_true_iff in Hin. destruct Hin as [Hy1 Hy2].
  apply Z.leb_le in Hy1, Hx1. apply Z.ltb_lt in Hy2, Hx2.
  repeat split; assumption.
Qed.

Lemma in_range_false {A : Type} (g : grid A) (y x : Z) :
  in_range g y x = false ->
  (y < 0 \/ Z.of_nat (height g) <= y \/ x < 0 \/ Z.of_nat (width g) <= x)%Z.
Proof.
  unfold in_range. intros Hout.
  destruct (Z.leb_spec 0 y); [|lia].
  destruct (Z.ltb_spec y (Z.of_nat (height g))); [|lia].
  destruct (Z.leb_spec 0 x); [|lia].
  destruct (Z.ltb_spec x (Z.of_nat (width g))); [|lia].
  discriminate.
Qed.

(** A neighbouring position reads [true] when it holds a [true] element,
    or when it lies outside the array and the border value is [true]. *)
Lemma px_true (bv : bool) (m : Mask) (y x : Z) :
  rect m ->
  px bv m y x = true <->
  (in_range m y x = true /\ get false m (Z.to_nat y) (Z.to_nat x) = true) \/
  (in_range m y x = false /\ bv = true).
Proof.
  intros Hr. destruct (in_range m y x) eqn:Hin.
  - destruct (px_in_range bv m y x Hin) as [Hy [Hx Hpx]]. rewrite Hpx.
    rewrite (get_default_in bv m _ _ Hr) by lia.
    split; [intros H; left; auto | intros [[_ H]|[H _]]; [exact H | discriminate]].
  - unfold px. rewrite Hin.
    split; [intros H; right; auto | intros [[H _]|[_ H]]; [discriminate | exact H]].
Qed.

(** An element is set by a pass of the cross exactly when it, or one of its
    four direct neighbours, is set - or, with a border value of [true], when
    it lies on the outermost ring. *)
Lemma cross_true (bv : bool) (m : Mask) (i j : nat) :
  rect m -> (i < height m)%nat -> (j < width m)%nat ->
  get bv m i j
  || px bv m (Z.of_nat i - 1) (Z.of_nat j)
  || px bv m (Z.of_nat i + 1) (Z.of_nat j)
  || px bv m (Z.of_nat i) (Z.of_nat j - 1)
  || px bv m (Z.of_nat i) (Z.of_nat j + 1) = true <->
  get false m i j = true \/
  (exists i' j', adjacent i j i' j' /\ get false m i' j' = true) \/
  (bv = true /\ on_border (height m) (width m) i j = true).
Proof.
  intros Hr Hi Hj.
  rewrite (get_default_in bv m i j Hr Hi Hj).
  rewrite !orb_true_iff, !(px_true bv m _ _ Hr).
  unfold on_border. rewrite !orb_true_iff, !Nat.eqb_eq.
  split.
  - intros [[[[H | H] | H] | H] | H]; [left; exact H | | | |].
    all: destruct H as [[Hin H] | [Hout Hbv]].
    all: try (apply in_range_false in Hout; right; right; split; [exact Hbv | lia]).
    all: destruct (px_in_range bv m _ _ Hin) as [Hy [Hx _]].
    all: right; left; do 2 eexists; split; [|exact H]; unfold adjacent; lia.
  - intros [H | [[i' [j' [Hadj H]]] | [Hbv Hb]]].
    + left. left. left. left. exact H.
    + destruct (get_true_in_range m i' j' Hr H) as [Hi' Hj'].
      assert (Hin : in_range m (Z.of_nat i') (Z.of_nat j') = true).
      { unfold in_range. rewrite !andb_true_iff.
        repeat split; (apply Z.leb_le || apply Z.ltb_lt); lia. }
      assert (Hget : get false m (Z.to_nat (Z.of_nat i')) (Z.to_nat (Z.of_nat j'))
                     = true) by (rewrite !Nat2Z.id; exact H).
      destruct Hadj as [[-> [-> | ->]] | [-> [-> | ->]]].
      * right. left. replace (Z.of_nat j + 1)%Z with (Z.of_nat (S j)) by lia.
        split; assumption.
      * left. right. left.
        replace (Z.of_nat (S j') - 1)%Z with (Z.of_nat j') by lia.
        split; assumption.
      * left. left. right. left.
        replace (Z.of_nat i + 1)%Z with (Z.of_nat (S i)) by lia.
        split; assumption.
      * left. left. left. right. left.
        replace (Z.of_nat (S i') - 1)%Z with (Z.of_nat i') by lia.
        split; assumption.
    + assert (Hout : forall y x,
                (y < 0 \/ Z.of_nat (height m) <= y \/ x < 0 \/
                 Z.of_nat (width m) <= x)%Z -> in_range m y x = false).
      { intros y x H. unfold in_range.
        destruct (Z.leb_spec 0 y); destruct (Z.ltb_spec y (Z.of_nat (height m)));
          destruct (Z.leb_spec 0 x); destruct (Z.ltb_spec x (Z.of_nat (width m)));
          cbn [andb]; try reflexivity; lia. }
      destruct Hb as [[[Hb | Hb] | Hb] | Hb].
      * left. left. left. right. right. split; [apply Hout; lia | exact Hbv].
      * left. left. right. right. split; [apply Hout; lia | exact Hbv].
      * left. right. right. split; [apply Hout; lia | exact Hbv].
      * right. right. split; [apply Hout; lia | exact Hbv].
Qed.

(** ** Hole filling sets exactly the enclosed elements *)

(** The flood only reaches [false] elements joined to the border. *)
Lemma flood_only_border_connected (m : Mask) (t : nat) (i j : nat) :
  rect m ->
  get false
    (Ndimage.repeat_step t (Ndimage.dilate1 true (Some (gmap negb m)))
       (Numpy.zeros (height m) (width m))) i j = true ->
  border_connected m i j.
Proof.
  intros Hm. revert i j.
  assert (Hah : height (gmap negb m) = height m) by apply height_gmap.
  assert (Haw : width (gmap negb m) = width m) by apply width_gmap.
  induction t as [|t IH]; intros i j Hget.
  - cbn [Ndimage.repeat_step] in Hget. rewrite get_zeros in Hget. discriminate.
  - rewrite repeat_step_S in Hget.
    destruct (flood_iterates (gmap negb m) t) as [Hr [[Hh Hw] _]].
    rewrite Hah, Haw in Hr, Hh, Hw.
    set (r := Ndimage.repeat_step t _ _) in *.
    destruct (dilate1_shape true (Some (gmap negb m)) r) as [Hr' [Hh' Hw']].
    destruct (get_true_in_range _ i j Hr' Hget) as [Hi Hj].
    rewrite Hh' in Hi. rewrite Hw' in Hj.
    rewrite get_dilate1 in Hget by assumption. cbv zeta in Hget.
    rewrite get_negb in Hget by (try exact Hm; congruence).
    destruct (get false m i j) eqn:Hfalse; cbn [negb] in Hget.
    { apply IH, Hget. }
    apply (cross_true true r i j Hr Hi Hj) in Hget.
    rewrite Hh in Hi. rewrite Hw in Hj.
    destruct Hget as [H | [[i' [j' [Hadj H]]] | [_ Hb]]].
    + apply IH, H.
    + apply (bc_step m i j i' j' Hi Hj Hfalse Hadj). apply IH, H.
    + rewrite Hh, Hw in Hb. apply (bc_border m i j Hi Hj Hfalse Hb).
Qed.

(** What [binary_fill_holes] returns, when it returns. *)
Lemma fill_holes_shape (m out : Mask) :
  rect m -> Ndimage.binary_fill_holes m = Ok out ->
  rect out /\ same_shape out m /\
  forall i j, (i < height m)%nat -> (j < width m)%nat ->
    (get false out i j = false <-> border_connected m i j).
Proof.
  intros Hm Hout.
  destruct (binary_fill_holes_flood m Hm) as [t [_ [Hfix Hfill]]].
  cbv zeta in *. rewrite Hfill in Hout. injection Hout as <-.
  assert (Hah : height (gmap negb m) = height m) by apply height_gmap.
  assert (Haw : width (gmap negb m) = width m) by apply width_gmap.
  destruct (flood_iterates (gmap negb m) t) as [Hr [[Hh Hw] _]].
  rewrite Hah, Haw in Hr, Hh, Hw.
  set (reached := Ndimage.repeat_step t _ _) in *.
  split; [apply rect_gmap, Hr|]. split.
  - split; [rewrite height_gmap | rewrite width_gmap]; congruence.
  - intros i j Hi Hj.
    rewrite get_negb by (try exact Hr; congruence).
    split.
    + intros H. apply negb_false_iff in H.
      apply (flood_only_border_connected m t i j Hm H).
    + intros Hbc.
      rewrite (flood_reaches_border_connected m reached Hm Hr
                 (conj Hh Hw) Hfix i j Hbc).
      reflexivity.
Qed.

(** X2.  On a rectangular mask [binary_fill_holes] returns a mask in which
    an element is [false] exactly when it is a [false] element of the input
    joined to the border of the array by a 4-connected path of [false]
    elements: every other element - the [true] ones and the enclosed
    [false] ones - is [true]. *)
Theorem fill_holes_characterised (m : Mask) :
  rect m ->
  exists out,
    Ndimage.binary_fill_holes m = Ok out /\
    same_shape out m /\
    forall i j, (i < height m)%nat -> (j < width m)%nat ->
      (get false out i j = false <-> border_connected m i j).
Proof.
  intros Hm.
  destruct (binary_fill_holes_flood m Hm) as [t [_ [_ Hfill]]].
  cbv zeta in Hfill. eexists. split; [exact Hfill|].
  apply (fill_holes_shape m _ Hm Hfill).
Qed.

Lemma fill_holes_characterised_witness :
  exists out,
    Ndimage.binary_fill_holes ring_mask = Ok out /\
    same_shape out ring_mask /\
    forall i j, (i < height ring_mask)%nat -> (j < width ring_mask)%nat ->
      (get false out i j = false <-> border_connected ring_mask i j).
Proof.
  apply (fill_holes_characterised ring_mask).
  split; [reflexivity | repeat constructor].
Defined.

(** ** Dilation grows city-block balls *)

(** After [k] passes an element is set exactly when a set element of the
    input lies within city-block distance [k] of it. *)
Lemma dilation_ball (m : Mask) (k : nat) (i j : nat) :
  rect m -> (i < height m)%nat -> (j < width m)%nat ->
  get false (Ndimage.repeat_step k (Ndimage.dilate1 false None) m) i j = true <->
  exists i' j', get false m i' j' = true /\ (manhattan i j i' j' <= k)%nat.
Proof.
  intros Hm. revert i j. induction k as [|k IH]; intros i j Hi Hj.
  - cbn [Ndimage.repeat_step]. split.
    + intros H. exists i, j. split; [exact H | unfold manhattan; lia].
    + intros [i' [j' [H Hd]]]. unfold manhattan in Hd.
      replace i with i' by lia. replace j with j' by lia. exact H.
  - rewrite repeat_step_S.
    destruct (repeat_dilate1_shape false None k m Hm) as [Hr [Hh Hw]].
    set (r := Ndimage.repeat_step k _ m) in *.
    rewrite get_dilate1 by congruence. cbv zeta.
    rewrite (cross_true false r i j Hr) by congruence.
    split.
    + intros [H | [[i' [j' [Hadj H]]] | [Hbv _]]]; [| |discriminate].
      * apply IH in H; [|assumption..].
        destruct H as [a [b [H Hd]]]. exists a, b. split; [exact H | lia].
      * destruct (get_true_in_range r i' j' Hr H) as [Hi' Hj'].
        apply IH in H; [|congruence..].
        destruct H as [a [b [H Hd]]]. exists a, b. split; [exact H|].
        unfold manhattan, adjacent in *. lia.
    + intros [a [b [H Hd]]].
      destruct (get_true_in_range m a b Hm H) as [Ha Hb].
      destruct (Nat.le_gt_cases (manhattan i j a b) k) as [Hle | Hgt].
      { left. apply IH; [assumption..|]. exists a, b. split; assumption. }
      right. left. unfold manhattan in *.
      destruct (Nat.lt_trichotomy a i) as [Hlt | [Heq | Hlt]].
      * exists (i - 1)%nat, j. split; [unfold adjacent; lia|].
        apply IH; [lia | assumption |]. exists a, b. split; [exact H | lia].
      * destruct (Nat.lt_ge_cases b j) as [Hbj | Hbj].
        -- exists i, (j - 1)%nat. split; [unfold adjacent; lia|].
           apply IH; [assumption | lia |]. exists a, b. split; [exact H | lia].
        -- exists i, (S j). split; [unfold adjacent; lia|].
           apply IH; [assumption | lia |]. exists a, b. split; [exact H | lia].
      * exists (S i), j. split; [unfold adjacent; lia|].
        apply IH; [lia | assumption |]. exists a, b. split; [exact H | lia].
Qed.

(** X1.  For a rectangular mask and a dilation count [k >= 0] the dilation
    stage of [main] returns a mask of the same shape in which an element is
    [true] exactly when a [true] element of the input lies within city-block
    distance [k] of it. *)
Theorem dilation_is_city_block_ball (m : Mask) (k : Z) :
  rect m -> (0 <= k)%Z ->
  exists out,
    dilate_mask m k = Ok out /\
    same_shape out m /\
    forall i j, (i < height m)%nat -> (j < width m)%nat ->
      (get false out i j = true <->
       exists i' j',
         get false m i' j' = true /\ (manhattan i j i' j' <= Z.to_nat k)%nat).
Proof.
  intros Hm Hk.
  exists (Ndimage.repeat_step (Z.to_nat k) (Ndimage.dilate1 false None) m).
  split; [|split].
  - unfold dilate_mask, Ndimage.binary_dilation.
    destruct (Z.eqb_spec k 0) as [->|Hne]; [reflexivity|].
    replace (k <? 1)%Z with false by (symmetry; apply Z.ltb_ge; lia).
    reflexivity.
  - apply (repeat_dilate1_shape false None (Z.to_nat k) m Hm).
  - intros i j Hi Hj. apply dilation_ball; assumption.
Qed.

Lemma dilation_is_city_block_ball_witness :
  exists out,
    dilate_mask centre_mask 2 = Ok out /\
    same_shape out centre_mask /\
    forall i j, (i < height centre_mask)%nat -> (j < width centre_mask)%nat ->
      (get false out i j = true <->
       exists i' j',
         get false centre_mask i' j' = true /\
         (manhattan i j i' j' <= Z.to_nat 2)%nat).
Proof.
  apply (dilation_is_city_block_ball centre_mask 2).
  - split; [reflexivity | repeat constructor].
  - lia.
Defined.

(** Past a mask that a pass leaves unchanged, further passes change
    nothing. *)
Lemma repeat_step_fixed (step : Mask -> Mask) (m : Mask) (t n : nat) :
  step (Ndimage.repeat_step t step m) = Ndimage.repeat_step t step m ->
  Ndimage.repeat_step (t + n) step m = Ndimage.repeat_step t step m.
Proof.
  intros Hfix. induction n as [|n IH].
  - rewrite Nat.add_0_r. reflexivity.
  - replace (t + S n)%nat with (S (t + n)) by lia.
    rewrite repeat_step_S, IH. exact Hfix.
Qed.

Lemma popcount_row_positive (l : list bool) :
  (0 < popcount_row l)%nat <-> exists j, nth j l false = true.
Proof.
  unfold popcount_row. induction l as [|b l IH].
  - cbn. split; [lia | intros [[|j] H]; discriminate].
  - destruct b; cbn [filter length].
    + split; [intros _; exists 0%nat; reflexivity | lia].
    + rewrite IH. split.
      * intros [j H]. exists (S j). exact H.
      * intros [[|j] H]; [discriminate | exists j; exact H].
Qed.

Lemma popcount_positive (m : Mask) :
  (0 < popcount m)%nat <-> exists i j, get false m i j = true.
Proof.
  unfold popcount, get. induction m as [|row m IH].
  - cbn. split; [lia | intros [[|i] [[|j] H]]; discriminate].
  - cbn [map list_sum fold_right]. fold (list_sum (map popcount_row m)).
    split.
    + intros H.
      destruct (Nat.eq_dec (popcount_row row) 0) as [E|E].
      * assert (Hm : (0 < list_sum (map popcount_row m))%nat) by lia.
        apply IH in Hm. destruct Hm as [i [j Hij]]. exists (S i), j. exact Hij.
      * assert (Hr : (0 < popcount_row row)%nat) by lia.
        apply popcount_row_positive in Hr. destruct Hr as [j Hj].
        exists 0%nat, j. exact Hj.
    + intros [[|i] [j H]].
      * assert (Hr : (0 < popcount_row row)%nat)
          by (apply popcount_row_positive; exists j; exact H).
        lia.
      * assert (Hm : (0 < list_sum (map popcount_row m))%nat)
          by (apply IH; exists i, j; exact H).
        lia.
Qed.

(** Run until nothing changes, dilation fills the array as soon as the mask
    has one [true] element, and leaves an all-[false] mask as it is. *)
Lemma dilation_until_stable (m : Mask) (iterations : Z) :
  rect m -> (iterations < 1)%Z ->
  Ndimage.binary_dilation m iterations None false =
  Ok (if (0 <? popcount m)%nat then full_mask (height m) (width m) else m).
Proof.
  intros Hm Hit.
  destruct (binary_dilation_total m iterations None false Hm) as [t [Hrun Hfix]].
  specialize (Hfix Hit). rewrite Hrun. f_equal.
  destruct (repeat_dilate1_shape false None t m Hm) as [Hr [Hh Hw]].
  assert (Hfull : rect (full_mask (height m) (width m)) /\
                  same_shape (full_mask (height m) (width m)) m).
  { unfold full_mask. split; [apply rect_tabulate|].
    split; [apply height_tabulate|].
    destruct m as [|row m]; [reflexivity|]. apply width_tabulate. cbn. lia. }
  destruct Hfull as [Hfr [Hfh Hfw]].
  destruct (Nat.ltb_spec 0 (popcount m)) as [Hpop | Hpop].
  - apply popcount_positive in Hpop. destruct Hpop as [a [b Hab]].
    apply grid_ext; try assumption.
    + split; congruence.
    + intros i j Hi Hj. rewrite Hh in Hi. rewrite Hw in Hj.
      unfold full_mask. rewrite get_tabulate by assumption.
      rewrite <- (repeat_step_fixed _ m t (manhattan i j a b) Hfix).
      apply dilation_ball; [assumption..|].
      exists a, b. split; [exact Hab | lia].
  - assert (Hnone : forall a b, get false m a b = false).
    { intros a b. destruct (get false m a b) eqn:Hab; [|reflexivity].
      assert (Hp : (0 < popcount m)%nat)
        by (apply popcount_positive; exists a, b; exact Hab).
      lia. }
    apply grid_ext; try assumption; [split; assumption|].
    intros i j Hi Hj. rewrite Hh in Hi. rewrite Hw in Hj.
    rewrite (Hnone i j).
    destruct (get false (Ndimage.repeat_step t _ m) i j) eqn:Hget;
      [|reflexivity].
    apply dilation_ball in Hget; [|assumption..].
    destruct Hget as [a [b [Hab _]]]. rewrite Hnone in Hab. discriminate.
Qed.

(** X3.  A negative [--dilate] makes [binary_dilation] run until nothing
    changes: a mask with at least one [true] element becomes [true]
    everywhere, and an all-[false] mask stays as it is. *)
Theorem negative_dilate_floods (m : Mask) (dilate : Z) :
  rect m -> (dilate < 0)%Z ->
  (popcount m = 0%nat /\ dilate_mask m dilate = Ok m) \/
  ((0 < popcount m)%nat /\
   dilate_mask m dilate = Ok (full_mask (height m) (width m))).
Proof.
  intros Hm Hd. unfold dilate_mask.
  replace (dilate =? 0)%Z with false by (symmetry; apply Z.eqb_neq; lia).
  rewrite (dilation_until_stable m dilate Hm) by lia.
  destruct (Nat.ltb_spec 0 (popcount m)) as [Hpop | Hpop].
  - right. split; [exact Hpop | reflexivity].
  - left. split; [lia | reflexivity].
Qed.

Lemma negative_dilate_floods_witness :
  (popcount centre_mask = 0%nat /\ dilate_mask centre_mask (-1) = Ok centre_mask) \/
  ((0 < popcount centre_mask)%nat /\
   dilate_mask centre_mask (-1) =
     Ok (full_mask (height centre_mask) (width centre_mask))).
Proof.
  apply (negative_dilate_floods centre_mask (-1)).
  - split; [reflexivity | repeat constructor].
  - lia.
Defined.

(** ** The mask only shrinks when the threshold is raised *)

Lemma get_threshold_mask (image : Image) (threshold : Q) (noise : NoiseMap)
    (i j : nat) :
  get false (threshold_mask image threshold noise) i j = true ->
  (i < height image)%nat /\ (j < width image)%nat /\
  threshold * get 0 noise i j < get 0 image i j.
Proof.
  intros Hget. unfold threshold_mask in *.
  set (h := height image) in *. set (w := width image) in *.
  destruct (Nat.lt_ge_cases i h) as [Hi|Hi];
    destruct (Nat.lt_ge_cases j w) as [Hj|Hj];
    try (rewrite (get_outside false h w) in Hget
           by (try apply shaped_tabulate; lia); discriminate).
  rewrite get_tabulate in Hget by assumption.
  apply Qltb_lt in Hget. auto.
Qed.

Lemma threshold_mask_monotone (image : Image) (noise : NoiseMap) (t1 t2 : Q) :
  all_px (fun v => 0 <= v) noise -> t1 <= t2 ->
  subset (threshold_mask image t2 noise) (threshold_mask image t1 noise).
Proof.
  intros Hnoise Ht i j Hget.
  destruct (get_threshold_mask image t2 noise i j Hget) as [Hi [Hj Hlt]].
  unfold threshold_mask. rewrite get_tabulate by assumption.
  apply Qltb_lt.
  pose proof (all_px_get (fun v => 0 <= v) 0 noise i j Hnoise (Qle_refl 0)) as Hn.
  cbv beta in Hn. nra.
Qed.

Lemma suppress_border_monotone (a b oa ob : Mask) (h w : nat) :
  shaped h w a -> shaped h w b -> (0 < h)%nat -> (0 < w)%nat -> subset a b ->
  suppress_border a = Ok oa -> suppress_border b = Ok ob ->
  shaped h w oa /\ shaped h w ob /\ subset oa ob.
Proof.
  intros Ha Hb Hh Hw Hsub Hoa Hob.
  rewrite (suppress_border_table h w a Ha Hh Hw) in Hoa.
  rewrite (suppress_border_table h w b Hb Hh Hw) in Hob.
  injection Hoa as <-. injection Hob as <-.
  split; [apply shaped_tabulate|]. split; [apply shaped_tabulate|].
  intros i j Hget.
  destruct (Nat.lt_ge_cases i h) as [Hi|Hi];
    destruct (Nat.lt_ge_cases j w) as [Hj|Hj];
    try (rewrite (get_outside false h w) in Hget
           by (try apply shaped_tabulate; lia); discriminate).
  rewrite get_tabulate in * by assumption.
  destruct (on_border h w i j); [discriminate|]. apply Hsub, Hget.
Qed.

Lemma repeat_dilate1_monotone (k : nat) (a b : Mask) :
  rect a -> rect b -> same_shape a b -> subset a b ->
  subset (Ndimage.repeat_step k (Ndimage.dilate1 false None) a)
         (Ndimage.repeat_step k (Ndimage.dilate1 false None) b).
Proof.
  intros Ha Hb Hsame Hsub. induction k as [|k IH]; [exact Hsub|].
  rewrite !repeat_step_S.
  destruct (repeat_dilate1_shape false None k a Ha) as [Hra [Hha Hwa]].
  destruct (repeat_dilate1_shape false None k b Hb) as [Hrb [Hhb Hwb]].
  destruct Hsame as [Hh Hw].
  apply dilate1_monotone; try assumption. split; congruence.
Qed.

Lemma subset_full (a : Mask) (h w : nat) :
  shaped h w a -> subset a (full_mask h w).
Proof.
  intros Ha i j Hget. unfold full_mask.
  destruct (Nat.lt_ge_cases i h) as [Hi|Hi];
    destruct (Nat.lt_ge_cases j w) as [Hj|Hj];
    try (rewrite (get_outside false h w a) in Hget by (try exact Ha; lia);
         discriminate).
  apply get_tabulate; assumption.
Qed.

Lemma dilate_mask_monotone (a b oa ob : Mask) (dilate : Z) :
  rect a -> rect b -> same_shape a b -> subset a b ->
  dilate_mask a dilate = Ok oa -> dilate_mask b dilate = Ok ob ->
  rect oa /\ rect ob /\ same_shape oa ob /\ subset oa ob.
Proof.
  intros Ha Hb Hsame Hsub Hoa Hob.
  destruct (Z.lt_ge_cases dilate 1) as [Hlt | Hge].
  - destruct (Z.eq_dec dilate 0) as [->|Hne].
    + injection Hoa as <-. injection Hob as <-. auto.
    + unfold dilate_mask in Hoa, Hob.
      replace (dilate =? 0)%Z with false in *
        by (symmetry; apply Z.eqb_neq; exact Hne).
      rewrite (dilation_until_stable a dilate Ha Hlt) in Hoa.
      rewrite (dilation_until_stable b dilate Hb Hlt) in Hob.
      injection Hoa as <-. injection Hob as <-.
      destruct Hsame as [Hh Hw].
      assert (Hfull : forall c : Mask, rect c ->
                rect (full_mask (height c) (width c)) /\
                same_shape (full_mask (height c) (width c)) c).
      { intros c Hc. unfold full_mask. split; [apply rect_tabulate|].
        split; [apply height_tabulate|].
        destruct c as [|row c]; [reflexivity|]. apply width_tabulate. cbn. lia. }
      destruct (Hfull a Ha) as [Hfa [Hfha Hfwa]].
      destruct (Hfull b Hb) as [Hfb [Hfhb Hfwb]].
      destruct (Nat.ltb_spec 0 (popcount a)) as [Hpa | Hpa].
      * assert (Hpb : (0 < popcount b)%nat).
        { apply popcount_positive in Hpa. destruct Hpa as [i [j Hij]].
          apply popcount_positive. exists i, j. apply Hsub, Hij. }
        apply Nat.ltb_lt in Hpb. rewrite Hpb.
        split; [exact Hfa|]. split; [exact Hfb|].
        split; [split; congruence|].
        rewrite Hh, Hw. intros i j H; exact H.
      * destruct (0 <? popcount b)%nat.
        -- split; [exact Ha|]. split; [exact Hfb|].
           split; [split; congruence|].
           rewrite <- Hh, <- Hw. apply subset_full. exact Ha.
        -- split; [exact Ha|]. split; [exact Hb|].
           split; [split; assumption | exact Hsub].
  - unfold dilate_mask, Ndimage.binary_dilation in Hoa, Hob.
    replace (dilate =? 0)%Z with false in *
      by (symmetry; apply Z.eqb_neq; lia).
    replace (dilate <? 1)%Z with false in *
      by (symmetry; apply Z.ltb_ge; lia).
    injection Hoa as <-. injection Hob as <-.
    destruct (repeat_dilate1_shape false None (Z.to_nat dilate) a Ha)
      as [Hra [Hha Hwa]].
    destruct (repeat_dilate1_shape false None (Z.to_nat dilate) b Hb)
      as [Hrb [Hhb Hwb]].
    destruct Hsame as [Hh Hw].
    split; [exact Hra|]. split; [exact Hrb|].
    split; [split; congruence|].
    apply repeat_dilate1_monotone; try assumption. split; assumption.
Qed.

Lemma border_connected_antitone (a b : Mask) (i j : nat) :
  same_shape a b -> subset a b ->
  border_connected b i j -> border_connected a i j.
Proof.
  intros [Hh Hw] Hsub Hbc.
  assert (Hfalse : forall i j, get false b i j = false -> get false a i j = false).
  { intros x y Hb. destruct (get false a x y) eqn:Ha; [|reflexivity].
    rewrite (Hsub x y Ha) in Hb. discriminate. }
  induction Hbc as [i j Hi Hj Hf Hb | i j i' j' Hi Hj Hf Hadj _ IH].
  - apply bc_border.
    + rewrite Hh. exact Hi.
    + rewrite Hw. exact Hj.
    + apply Hfalse, Hf.
    + rewrite Hh, Hw. exact Hb.
  - apply (bc_step a i j i' j').
    + rewrite Hh. exact Hi.
    + rewrite Hw. exact Hj.
    + apply Hfalse, Hf.
    + exact Hadj.
    + exact IH.
Qed.

Lemma fill_mask_monotone (a b oa ob : Mask) (fill_holes : bool) :
  rect a -> rect b -> same_shape a b -> subset a b ->
  fill_mask a fill_holes = Ok oa -> fill_mask b fill_holes = Ok ob ->
  rect oa /\ rect ob /\ same_shape oa ob /\ subset oa ob.
Proof.
  intros Ha Hb Hsame Hsub Hoa Hob. unfold fill_mask in *.
  destruct fill_holes.
  - destruct (fill_holes_shape a oa Ha Hoa) as [Hra [[Hha Hwa] Hca]].
    destruct (fill_holes_shape b ob Hb Hob) as [Hrb [[Hhb Hwb] Hcb]].
    destruct Hsame as [Hh Hw].
    split; [exact Hra|]. split; [exact Hrb|]. split; [split; congruence|].
    intros i j Hget.
    destruct (get_true_in_range oa i j Hra Hget) as [Hi Hj].
    rewrite Hha in Hi. rewrite Hwa in Hj.
    destruct (get false ob i j) eqn:Hob'; [reflexivity|].
    apply Hcb in Hob'; [|congruence..].
    apply (border_connected_antitone a b i j (conj Hh Hw) Hsub) in Hob'.
    apply Hca in Hob'; [|assumption..]. congruence.
  - injection Hoa as <-. injection Hob as <-. auto.
Qed.

(** The stages after the threshold keep inclusion. *)
Lemma post_process_monotone (a b oa ob : Mask) (o : options) (h w : nat) :
  shaped h w a -> shaped h w b -> (0 < h)%nat -> (0 < w)%nat -> subset a b ->
  post_process a o = Ok oa -> post_process b o = Ok ob ->
  subset oa ob.
Proof.
  intros Ha Hb Hh Hw Hsub Hoa Hob. unfold post_process in *.
  destruct (suppress_border a) as [a1|] eqn:Ea1; [|discriminate].
  destruct (suppress_border b) as [b1|] eqn:Eb1; [|discriminate].
  cbn [bind] in *.
  destruct (suppress_border_monotone a b a1 b1 h w Ha Hb Hh Hw Hsub Ea1 Eb1)
    as [Ha1 [Hb1 Hsub1]].
  destruct (dilate_mask a1 (dilate o)) as [a2|] eqn:Ea2; [|discriminate].
  destruct (dilate_mask b1 (dilate o)) as [b2|] eqn:Eb2; [|discriminate].
  cbn [bind] in *.
  assert (Hsame1 : same_shape a1 b1).
  { split; [unfold height; rewrite (proj1 Ha1), (proj1 Hb1); reflexivity|].
    rewrite (shaped_width h w a1 Ha1 Hh), (shaped_width h w b1 Hb1 Hh).
    reflexivity. }
  destruct (dilate_mask_monotone a1 b1 a2 b2 (dilate o)
              (shaped_rect h w a1 Ha1) (shaped_rect h w b1 Hb1)
              Hsame1 Hsub1 Ea2 Eb2) as [Ha2 [Hb2 [Hsame2 Hsub2]]].
  apply (fill_mask_monotone a2 b2 oa ob (fill_holes o) Ha2 Hb2 Hsame2 Hsub2
           Hoa Hob).
Qed.

(** X4.  With the noise map [make_noise_map] returns for the image, raising
    the threshold never adds an element to the mask the pipeline ends with,
    whatever the dilation count and with or without hole filling. *)
Theorem mask_shrinks_with_threshold Phi (image : Image) (noise : NoiseMap)
    (h w : nat) (t1 t2 : Q) (b d : Z) (f s : bool) (m1 m2 : Mask) :
  shaped h w image -> (0 < h)%nat -> (0 < w)%nat ->
  make_noise_map Phi image b = Ok noise ->
  t1 <= t2 ->
  make_mask image noise
    {| threshold := t1; boxsize := b; dilate := d; fill_holes := f;
       savenoise := s |} = Ok m1 ->
  make_mask image noise
    {| threshold := t2; boxsize := b; dilate := d; fill_holes := f;
       savenoise := s |} = Ok m2 ->
  subset m2 m1.
Proof.
  unfold make_noise_map. generalize (calibration_ratio Phi b).
  intros ratio Hs Hh Hw Hnoise Ht H1 H2. unfold make_mask in *.
  cbn [threshold] in *.
  pose proof (clamped_noise_nonnegative _ image b noise Hnoise) as Hnn.
  pose proof (threshold_mask_monotone image noise t1 t2 Hnn Ht) as Hsub.
  set (o1 := {| threshold := t1 |}) in *. set (o2 := {| threshold := t2 |}) in *.
  assert (E : post_process (threshold_mask image t1 noise) o2 =
              post_process (threshold_mask image t1 noise) o1) by reflexivity.
  rewrite <- E in H1.
  apply (post_process_monotone _ _ m2 m1 o2 h w
           (threshold_mask_shaped image t2 noise h w Hs Hh)
           (threshold_mask_shaped image t1 noise h w Hs Hh)
           Hh Hw Hsub H2 H1).
Qed.

Lemma mask_shrinks_with_threshold_witness :
  exists noise m1 m2,
    make_noise_map Phi_pw spot_image 3 = Ok noise /\
    make_mask spot_image noise
      {| threshold := 1; boxsize := 3; dilate := 1; fill_holes := true;
         savenoise := false |} = Ok m1 /\
    make_mask spot_image noise
      {| threshold := 200; boxsize := 3; dilate := 1; fill_holes := true;
         savenoise := false |} = Ok m2 /\
    subset m2 m1.
Proof.
  eexists. eexists. eexists.
  split; [vm_compute; reflexivity|].
  split; [vm_compute; reflexivity|].
  split; [vm_compute; reflexivity|].
  eapply (mask_shrinks_with_threshold Phi_pw spot_image _ 7 7 1 200 3 1
            true false).
  - exact spot_image_shaped.
  - lia.
  - lia.
  - vm_compute; reflexivity.
  - discriminate.
  - vm_compute; reflexivity.
  - vm_compute; reflexivity.
Defined.

(** ** Shapes *)

Lemma same_shape_shaped {A B : Type} (a : grid A) (b : grid B) (h w : nat) :
  rect a -> same_shape a b -> shaped h w b -> (0 < h)%nat -> shaped h w a.
Proof.
  intros Ha [Hh Hw] Hb Hpos. unfold rect in Ha.
  rewrite Hh, Hw in Ha. unfold height in Ha at 1. rewrite (proj1 Hb) in Ha.
  rewrite (shaped_width h w b Hb Hpos) in Ha. exact Ha.
Qed.

Lemma dilate_mask_shape (m out : Mask) (dilate : Z) :
  rect m -> dilate_mask m dilate = Ok out -> rect out /\ same_shape out m.
Proof.
  intros Hm Hout. unfold dilate_mask in Hout.
  destruct (dilate =? 0)%Z.
  - injection Hout as <-. split; [exact Hm | split; reflexivity].
  - destruct (binary_dilation_total m dilate None false Hm) as [t [Hrun _]].
    rewrite Hrun in Hout. injection Hout as <-.
    apply (repeat_dilate1_shape false None t m Hm).
Qed.

Lemma post_process_shape (mask out : Mask) (o : options) (h w : nat) :
  shaped h w mask -> (0 < h)%nat -> (0 < w)%nat ->
  post_process mask o = Ok out -> shaped h w out.
Proof.
  intros Hs Hh Hw Hout. unfold post_process in Hout.
  rewrite (suppress_border_table h w mask Hs Hh Hw) in Hout. cbn [bind] in Hout.
  set (m1 := tabulate h w _) in *.
  assert (Hs1 : shaped h w m1) by apply shaped_tabulate.
  destruct (dilate_mask m1 (dilate o)) as [m2|] eqn:E2; [|discriminate].
  cbn [bind] in Hout.
  destruct (dilate_mask_shape m1 m2 (dilate o) (shaped_rect h w m1 Hs1) E2)
    as [Hr2 Hsame2].
  pose proof (same_shape_shaped m2 m1 h w Hr2 Hsame2 Hs1 Hh) as Hs2.
  unfold fill_mask in Hout. destruct (fill_holes o).
  - destruct (fill_holes_shape m2 out Hr2 Hout) as [Hr3 [Hsame3 _]].
    apply (same_shape_shaped out m2 h w Hr3 Hsame3 Hs2 Hh).
  - injection Hout as <-. exact Hs2.
Qed.

Lemma clamped_noise_shape (ratio : Q) (image : Image) (boxsize : Z)
    (noise : NoiseMap) (h w : nat) :
  shaped h w image -> (0 < h)%nat ->
  clamped_noise ratio image boxsize = Ok noise -> shaped h w noise.
Proof.
  intros Hs Hh Hnoise.
  destruct (clamped_noise_steps ratio image boxsize noise Hnoise)
    as [floored [med [Hdef [_ [_ ->]]]]].
  unfold median_clamp. apply shaped_gmap. rewrite Hdef.
  unfold floor_guard. apply shaped_gmap, shaped_gmap.
  apply minimum_filter_shaped; assumption.
Qed.

(** X5.  The noise map and the mask have the shape of the image: every
    stage of the pipeline keeps the shape, for every option value. *)
Theorem pipeline_keeps_shape Phi (image : Image) (o : options)
    (noise : NoiseMap) (mask : Mask) (h w : nat) :
  shaped h w image -> (0 < h)%nat -> (0 < w)%nat ->
  make_noise_map Phi image (boxsize o) = Ok noise ->
  make_mask image noise o = Ok mask ->
  shaped h w noise /\ shaped h w mask.
Proof.
  unfold make_noise_map. generalize (calibration_ratio Phi (boxsize o)).
  intros ratio Hs Hh Hw Hnoise Hmask. split.
  - apply (clamped_noise_shape _ image (boxsize o) noise h w Hs Hh Hnoise).
  - unfold make_mask in Hmask.
    apply (post_process_shape _ mask o h w
             (threshold_mask_shaped image (threshold o) noise h w Hs Hh)
             Hh Hw Hmask).
Qed.

Lemma pipeline_keeps_shape_witness :
  exists noise mask,
    make_noise_map Phi_pw spot_image 3 = Ok noise /\
    make_mask spot_image noise
      {| threshold := 1; boxsize := 3; dilate := 2; fill_holes := true;
         savenoise := false |} = Ok mask /\
    shaped 7 7 noise /\ shaped 7 7 mask.
Proof.
  eexists. eexists.
  split; [vm_compute; reflexivity|].
  split; [vm_compute; reflexivity|].
  eapply (pipeline_keeps_shape Phi_pw spot_image
            {| threshold := 1; boxsize := 3; dilate := 2; fill_holes := true;
               savenoise := false |}).
  - exact spot_image_shaped.
  - lia.
  - lia.
  - vm_compute; reflexivity.
  - vm_compute; reflexivity.
Defined.

(** ** What a masked element says about the image *)

Lemma all_px_get_inside {A : Type} (P : A -> Prop) (d : A) (g : grid A)
    (h w i j : nat) :
  shaped h w g -> (i < h)%nat -> (j < w)%nat -> all_px P g ->
  P (get d g i j).
Proof.
  intros [Hlen Hrows] Hi Hj Hall. unfold get, all_px in *.
  rewrite Forall_forall in Hrows, Hall.
  assert (Hin : In (nth i g []) g) by (apply nth_In; lia).
  pose proof (Hall _ Hin) as Hrow. rewrite Forall_forall in Hrow.
  apply Hrow, nth_In. rewrite (Hrows _ Hin). exact Hj.
Qed.

Lemma ieee_get_threshold_mask (image : Image) (threshold : Q)
    (noise : grid Ieee.value) (i j : nat) :
  get false (Ieee.threshold_mask image threshold noise) i j = true ->
  (i < height image)%nat /\ (j < width image)%nat /\
  Ieee.lt (Ieee.scale threshold (get Ieee.NaN noise i j))
          (Ieee.Finite (get 0 image i j)) = true.
Proof.
  intros Hget. unfold Ieee.threshold_mask in *.
  set (h := height image) in *. set (w := width image) in *.
  destruct (Nat.lt_ge_cases i h) as [Hi|Hi];
    destruct (Nat.lt_ge_cases j w) as [Hj|Hj];
    try (rewrite (get_outside false h w) in Hget
           by (try apply shaped_tabulate; lia); discriminate).
  rewrite get_tabulate in Hget by assumption. auto.
Qed.

(** After the floor guard a value is [nan] or at least 0. *)
Lemma ieee_floor_guard_nonnegative (g : grid Ieee.value) :
  all_px (fun v => Ieee.is_nan v = true \/
                   Ieee.le (Ieee.Finite 0) v = true)
         (Ieee.floor_guard g).
Proof.
  unfold Ieee.floor_guard.
  apply (all_px_gmap (fun _ => True)); [|apply all_px_true].
  intros v _. destruct (Ieee.lt v (Ieee.Finite 0)) eqn:E.
  - right. reflexivity.
  - destruct (Ieee.is_nan v) eqn:Ev; [left; reflexivity|].
    right. apply ieee_lt_false_le; [exact Ev | reflexivity | exact E].
Qed.

Lemma ieee_median_nonnegative (l : list Ieee.value) (med : Q) :
  Forall (fun v => Ieee.is_nan v = true \/
                   Ieee.le (Ieee.Finite 0) v = true) l ->
  Ieee.median l = Ieee.Finite med -> 0 <= med.
Proof.
  intros Hall Hmed. rewrite Forall_forall in Hall.
  destruct (ieee_median_cases l) as [Hnan|[Hin|[a [b [Ha [Hb Hmean]]]]]].
  - congruence.
  - rewrite Hmed in Hin. destruct (Hall _ Hin) as [H|H]; [discriminate|].
    apply Qle_bool_iff, H.
  - rewrite Hmed in Hmean.
    destruct (Hall _ Ha) as [Hna|Hpa]; destruct (Hall _ Hb) as [Hnb|Hpb];
      destruct a as [x| | |]; destruct b as [y| | |];
      try discriminate.
    injection Hmean as ->.
    simpl in Hpa, Hpb. apply Qle_bool_iff in Hpa. apply Qle_bool_iff in Hpb.
    apply Qle_shift_div_l; lra.
Qed.

(** X6.  Without dilation and hole filling, with a threshold that is not
    negative, and where the median noise is a number (it is for every box
    size other than 1 and -1): every element of the final mask lies off the
    outermost ring and has an intensity above the threshold times the
    median noise (so above 0). *)
Theorem masked_pixels_are_bright Phi (negative : Q -> Q) (image : Image)
    (noise : grid Ieee.value) (med t : Q) (b : Z) (s : bool) (mask : Mask)
    (h w : nat) :
  shaped h w image -> (0 < h)%nat -> (0 < w)%nat ->
  Ieee.median_noise Phi negative image b = Ieee.Finite med ->
  Ieee.make_noise_map Phi negative image b = Returned noise ->
  0 <= t ->
  Ieee.make_mask image noise
    {| threshold := t; boxsize := b; dilate := 0; fill_holes := false;
       savenoise := s |} = Ok mask ->
  forall i j, get false mask i j = true ->
    on_border h w i j = false /\
    0 <= t * med /\ t * med < get 0 image i j.
Proof.
  unfold Ieee.make_noise_map, Ieee.median_noise.
  generalize (calibration_ratio Phi b).
  intros ratio Hs Hh Hw Hmed Hnoise Ht Hmask i j Hget.
  destruct (2 ^ 31 <=? b)%Z; [discriminate|].
  injection Hnoise as <-.
  unfold Ieee.make_mask, post_process in Hmask.
  cbn [threshold dilate fill_holes] in Hmask.
  rewrite (suppress_border_table h w _
             (ieee_threshold_mask_shaped image t _ h w Hs Hh) Hh Hw) in Hmask.
  cbn in Hmask. injection Hmask as <-.
  destruct (Nat.lt_ge_cases i h) as [Hi|Hi];
    destruct (Nat.lt_ge_cases j w) as [Hj|Hj];
    try (rewrite (get_outside false h w) in Hget
           by (try apply shaped_tabulate; lia); discriminate).
  rewrite get_tabulate in Hget by assumption.
  destruct (on_border h w i j); [discriminate|].
  split; [reflexivity|].
  destruct (ieee_get_threshold_mask image t _ i j Hget) as [_ [_ Hlt]].
  set (v := get Ieee.NaN (Ieee.clamped_noise negative ratio image b) i j)
    in *.
  assert (Hnan : Ieee.is_nan
                   (Ieee.median
                      (flatten (Ieee.floored_noise negative ratio image b)))
                 = false).
  { unfold Ieee.median_of_noise in Hmed. rewrite Hmed. reflexivity. }
  assert (Hge : Ieee.le (Ieee.Finite med) v = true).
  { rewrite <- Hmed.
    exact (all_px_get_inside _ Ieee.NaN _ h w i j
             (ieee_clamped_shaped negative ratio image b h w Hs Hh)
             Hi Hj (ieee_median_clamp_above _ Hnan)). }
  unfold Ieee.median_of_noise in Hmed.
  assert (Hmed0 : 0 <= med).
  { apply (ieee_median_nonnegative _ med
             (all_px_flatten _ _ (ieee_floor_guard_nonnegative _)) Hmed). }
  destruct v as [q| | |].
  - simpl in Hge, Hlt. apply Qle_bool_iff in Hge. apply Qltb_lt in Hlt.
    split; nra.
  - exfalso. unfold Ieee.scale in Hlt.
    destruct (Qeq_bool t 0) eqn:E0; [simpl in Hlt; discriminate|].
    destruct (Qltb 0 t) eqn:E; [simpl in Hlt; discriminate|].
    apply Qltb_ge in E.
    assert (Hz : t == 0) by lra.
    apply Qeq_bool_iff in Hz. congruence.
  - simpl in Hge. discriminate.
  - simpl in Hge. discriminate.
Qed.

Lemma masked_pixels_are_bright_witness :
  exists noise med mask,
    Ieee.median_noise Phi_pw Qopp spot_image 3 = Ieee.Finite med /\
    Ieee.make_noise_map Phi_pw Qopp spot_image 3 = Returned noise /\
    Ieee.make_mask spot_image noise
      {| threshold := 1; boxsize := 3; dilate := 0; fill_holes := false;
         savenoise := false |} = Ok mask /\
    forall i j, get false mask i j = true ->
      on_border 7 7 i j = false /\
      0 <= 1 * med /\ 1 * med < get 0 spot_image i j.
Proof.
  eexists. eexists. eexists.
  split; [vm_compute; reflexivity|].
  split; [vm_compute; reflexivity|].
  split; [vm_compute; reflexivity|].
  eapply (masked_pixels_are_bright Phi_pw Qopp spot_image _ _ 1 3 false).
  - exact spot_image_shaped.
  - lia.
  - lia.
  - vm_compute; reflexivity.
  - vm_compute; reflexivity.
  - discriminate.
  - vm_compute; reflexivity.
Defined.

(** ** Bounds on the calibration ratio and on the noise *)

(** X7.  Whatever the distribution function and the box size, the
    calibration ratio lies between 0 and 10: the interpolation returns a
    point of the sampled interval [-10, 10]. *)
Theorem calibration_ratio_bounded Phi (boxsize : Z) :
  0 <= calibration_ratio Phi boxsize <= 10.
Proof.
  split; [apply Qabs_nonneg|].
  unfold calibration_ratio. cbv zeta.
  set (F := map _ (map Phi grid_x)).
  assert (HF : length F = 1000%nat)
    by (unfold F; rewrite !length_map; apply grid_x_length).
  apply Qabs_Qle_condition.
  destruct (interp_cases (1 # 2) F grid_x) as [[_ Hv] | [[_ Hv] | Hmid]].
  - rewrite Hv. pose proof (grid_x_range 0 ltac:(lia)). lra.
  - rewrite Hv, HF. pose proof (grid_x_range (1000 - 1) ltac:(lia)). lra.
  - cbv zeta in Hmid. destruct Hmid as [_ [Hlen [Hlo [Hhi Hv]]]].
    rewrite HF in Hlen.
    set (j := Numpy.search (1 # 2) F) in *.
    pose proof (grid_x_range j ltac:(lia)) as Hxj.
    pose proof (grid_x_range (S j) Hlen) as Hxs.
    pose proof (grid_x_increasing j (S j) ltac:(lia) Hlen) as Hinc.
    set (xj := nth j grid_x 0) in *. set (xs := nth (S j) grid_x 0) in *.
    set (Fj := nth j F 0) in *. set (Fs := nth (S j) F 0) in *.
    assert (Hlt : ((1 # 2) - Fj) / (Fs - Fj) < 1)
      by (apply Qlt_shift_div_r; lra).
    assert (Hge : 0 <= ((1 # 2) - Fj) / (Fs - Fj))
      by (apply Qle_shift_div_l; lra).
    rewrite Hv. set (theta := ((1 # 2) - Fj) / (Fs - Fj)) in *.
    split; nra.
Qed.

Lemma fold_min_le (t : list Q) (a x : Q) :
  x == a \/ In x t -> fold_left Qmin t a <= x.
Proof.
  revert a x. induction t as [|y t IH]; intros a x [Hx | Hx]; cbn [fold_left].
  - rewrite Hx. apply Qle_refl.
  - destruct Hx.
  - apply Qle_trans with (Qmin a y).
    + apply IH. left. reflexivity.
    + rewrite Hx. apply Q.le_min_l.
  - destruct Hx as [<- | Hx].
    + apply Qle_trans with (Qmin a y).
      * apply IH. left. reflexivity.
      * apply Q.le_min_r.
    + apply IH. right. exact Hx.
Qed.

Lemma minimum_le (l : list Q) (x : Q) : In x l -> Ndimage.minimum l <= x.
Proof.
  destruct l as [|a t]; [intros []|]. intros [<- | Hx]; cbn [Ndimage.minimum].
  - apply fold_min_le. left. reflexivity.
  - apply fold_min_le. right. exact Hx.
Qed.

(** The window of a filter longer than 1 contains the position it is
    computed for. *)
Lemma window_contains_centre (size : Z) (i : nat) :
  (1 < size)%Z -> In (Z.of_nat i) (Ndimage.window size i).
Proof.
  intros Hsize. unfold Ndimage.window. apply in_map_iff.
  exists (Z.to_nat (size / 2)). split.
  - rewrite Z2Nat.id by (apply Z.div_pos; lia). lia.
  - apply in_seq.
    assert (size / 2 < size)%Z by (apply Z.div_lt; lia).
    assert (0 <= size / 2)%Z by (apply Z.div_pos; lia).
    lia.
Qed.

Lemma reflect_inside (n i : nat) :
  (i < n)%nat -> Ndimage.reflect n (Z.of_nat i) = i.
Proof.
  intros Hi. unfold Ndimage.reflect. cbv zeta.
  rewrite Z.mod_small by lia.
  replace (Z.of_nat i <? Z.of_nat n)%Z with true
    by (symmetry; apply Z.ltb_lt; lia).
  apply Nat2Z.id.
Qed.

(** The windowed minimum at a position is at most the image there. *)
Lemma minimum_filter_below (img : grid Q) (box : Z * Z) (h w i j : nat) :
  shaped h w img -> (i < h)%nat -> (j < w)%nat ->
  get 0 (Ndimage.minimum_filter img box) i j <= get 0 img i j.
Proof.
  intros Hs Hi Hj.
  assert (Hh : (0 < h)%nat) by lia.
  unfold Ndimage.minimum_filter.
  set (a0 := if (1 <? fst box)%Z then _ else img).
  assert (H0 : shaped h w a0 /\ get 0 a0 i j <= get 0 img i j).
  { unfold a0. destruct (Z.ltb_spec 1 (fst box)) as [Hb|Hb].
    - unfold Ndimage.minimum_filter_rows.
      rewrite (shaped_width h w img Hs Hh). unfold height.
      rewrite (proj1 Hs). split; [apply shaped_tabulate|].
      rewrite get_tabulate by assumption.
      apply minimum_le. apply in_map_iff. exists (Z.of_nat i).
      split; [rewrite reflect_inside by exact Hi; reflexivity|].
      apply window_contains_centre, Hb.
    - split; [exact Hs | apply Qle_refl]. }
  destruct H0 as [Hs0 Hle0].
  destruct (Z.ltb_spec 1 (snd box)) as [Hb|Hb]; [|exact Hle0].
  apply Qle_trans with (get 0 a0 i j); [|exact Hle0].
  unfold Ndimage.minimum_filter_cols.
  rewrite (shaped_width h w a0 Hs0 Hh). unfold height. rewrite (proj1 Hs0).
  rewrite get_tabulate by assumption.
  apply minimum_le. apply in_map_iff. exists (Z.of_nat j).
  split; [rewrite reflect_inside by exact Hj; reflexivity|].
  apply window_contains_centre, Hb.
Qed.

Lemma get_gmap_inside {A B : Type} (f : A -> B) (d : A) (d' : B) (g : grid A)
    (h w i j : nat) :
  shaped h w g -> (i < h)%nat -> (j < w)%nat ->
  get d' (gmap f g) i j = f (get d g i j).
Proof.
  intros [Hh Hw] Hi Hj.
  transitivity (get (f d) (gmap f g) i j); [|apply get_gmap].
  unfold get. apply nth_indep.
  assert (Hrow : length (nth i (gmap f g) []) = w).
  { pose proof (shaped_gmap f h w g (conj Hh Hw)) as [Hh' Hw'].
    rewrite Forall_forall in Hw'. apply Hw', nth_In. lia. }
  rewrite Hrow. exact Hj.
Qed.

(** X8.  For an image of a floating-point dtype, whose negation is exact,
    and a box size other than 1 and -1 (where the calibration ratio is
    positive): the noise at a position is a number, and it is at least the
    negated intensity there divided by the ratio.  The minimum filter's
    window contains the position, and the two guards only raise values. *)
Theorem noise_covers_negative_intensity Phi (negative : Q -> Q)
    (image : Image) (boxsize : Z) (noise : grid Ieee.value) (h w : nat) :
  normal_cdf Phi ->
  boxsize <> 1%Z -> boxsize <> (-1)%Z ->
  (forall m, negative m == - m) ->
  shaped h w image ->
  Ieee.make_noise_map Phi negative image boxsize = Returned noise ->
  forall i j, (i < h)%nat -> (j < w)%nat ->
    exists q,
      get Ieee.NaN noise i j = Ieee.Finite q /\
      - get 0 image i j / calibration_ratio Phi boxsize <= q.
Proof.
  intros HPhi H1 H2.
  pose proof (calibration_ratio_positive Phi HPhi boxsize H1 H2) as Hratio.
  revert Hratio. unfold Ieee.make_noise_map.
  generalize (calibration_ratio Phi boxsize).
  intros ratio Hratio Hneg Hs Hnoise i j Hi Hj.
  destruct (2 ^ 31 <=? boxsize)%Z; [discriminate|].
  injection Hnoise as <-.
  assert (Hh : (0 < h)%nat) by lia.
  assert (Hw : (0 < w)%nat) by lia.
  assert (Hnz : ~ ratio == 0) by lra.
  destruct (ieee_clamped_finite negative ratio image boxsize h w Hs Hh Hw Hnz)
    as [med [_ ->]].
  pose proof (minimum_filter_shaped h w image (boxsize, boxsize) Hs Hh) as Hsm.
  pose proof (minimum_filter_below image (boxsize, boxsize) h w i j Hs Hi Hj)
    as Hmin.
  set (filtered := Ndimage.minimum_filter image (boxsize, boxsize)) in *.
  set (floor := fun m => if Qltb (negative m / ratio) 0 then 1 # 10000000000
                         else negative m / ratio).
  set (clamp := fun v => if Qltb v med then med else v).
  assert (Hsf : shaped h w (gmap floor filtered)) by (apply shaped_gmap, Hsm).
  assert (Hsc : shaped h w (gmap clamp (gmap floor filtered)))
    by (apply shaped_gmap, Hsf).
  rewrite (get_gmap_inside Ieee.Finite 0 Ieee.NaN _ h w i j Hsc Hi Hj).
  eexists. split; [reflexivity|].
  rewrite (get_gmap_inside clamp 0 0 _ h w i j Hsf Hi Hj).
  rewrite (get_gmap_inside floor 0 0 filtered h w i j Hsm Hi Hj).
  set (m := get 0 filtered i j) in *. set (x := get 0 image i j) in *.
  pose proof (Hneg m) as Hm.
  assert (Hraw : - x / ratio <= negative m / ratio).
  { apply Qle_shift_div_l; [exact Hratio|].
    unfold Qdiv. rewrite <- Qmult_assoc, (Qmult_comm (/ ratio)), Qmult_inv_r by lra.
    lra. }
  assert (Hfloor : negative m / ratio <= floor m).
  { unfold floor. destruct (Qltb (negative m / ratio) 0) eqn:E;
      [|apply Qle_refl].
    apply Qltb_lt in E. lra. }
  unfold clamp. destruct (Qltb (floor m) med) eqn:E.
  - apply Qltb_lt in E. lra.
  - lra.
Qed.

Lemma noise_covers_negative_intensity_witness :
  exists noise,
    Ieee.make_noise_map Phi_pw Qopp dip_image 3 = Returned noise /\
    forall i j, (i < 4)%nat -> (j < 4)%nat ->
      exists q,
        get Ieee.NaN noise i j = Ieee.Finite q /\
        - get 0 dip_image i j / calibration_ratio Phi_pw 3 <= q.
Proof.
  eexists. split; [vm_compute; reflexivity|].
  eapply (noise_covers_negative_intensity Phi_pw Qopp dip_image 3 _ 4 4).
  - exact Phi_pw_normal.
  - discriminate.
  - discriminate.
  - intros m. reflexivity.
  - split; [reflexivity | repeat constructor].
  - vm_compute; reflexivity.
Defined.

(** * Files *)

(** ** Rows and blocks *)

Lemma rows_shaped (h w : nat) (l : list Q) :
  (h * w <= length l)%nat -> shaped h w (rows h w l).
Proof.
  revert l. induction h as [|h IH]; intros l Hl.
  - split; [reflexivity | constructor].
  - assert (Hrest : (h * w <= length (skipn w l))%nat)
      by (rewrite length_skipn; lia).
    destruct (IH (skipn w l) Hrest) as [Hlen Hall].
    split.
    + simpl. unfold shaped in Hlen. rewrite Hlen. reflexivity.
    + simpl. constructor; [|exact Hall].
      rewrite length_firstn. lia.
Qed.

Lemma nth_rows (h w : nat) (l : list Q) (i : nat) :
  (i < h)%nat -> nth i (rows h w l) [] = firstn w (skipn (i * w) l).
Proof.
  revert l i. induction h as [|h IH]; intros l i Hi; [lia|].
  destruct i as [|i].
  - reflexivity.
  - simpl rows. simpl nth. rewrite IH by lia.
    rewrite skipn_skipn. f_equal. f_equal. lia.
Qed.

(** Element [(i, j)] of a 2-d array is the element at offset [i * w + j]. *)
Lemma get_rows (h w : nat) (l : list Q) (i j : nat) :
  (i < h)%nat -> (j < w)%nat ->
  get 0 (rows h w l) i j = nth (i * w + j) l 0.
Proof.
  intros Hi Hj. unfold get. rewrite (nth_rows h w l i Hi).
  rewrite nth_firstn.
  destruct (Nat.ltb_spec j w) as [_|Hge]; [|lia].
  apply nth_skipn.
Qed.

Lemma concat_rows (h w : nat) (l : list Q) :
  length l = (h * w)%nat -> concat (rows h w l) = l.
Proof.
  revert l. induction h as [|h IH]; intros l Hl.
  - destruct l; [reflexivity | discriminate].
  - simpl. rewrite IH by (rewrite length_skipn; lia).
    apply firstn_skipn.
Qed.

Lemma rows_concat (h w : nat) (g : grid Q) :
  shaped h w g -> rows h w (concat g) = g.
Proof.
  revert h. induction g as [|row g IH]; intros h [Hlen Hall].
  - simpl in Hlen. subst h. reflexivity.
  - simpl in Hlen. subst h. inversion Hall as [|? ? Hrow Hrest]; subst.
    simpl concat. simpl rows.
    rewrite firstn_app, Nat.sub_diag, firstn_all2 by lia.
    rewrite skipn_app, Nat.sub_diag, skipn_all2 by lia.
    simpl. rewrite app_nil_r. f_equal.
    apply IH. split; [reflexivity | exact Hrest].
Qed.

Lemma length_concat_shaped (h w : nat) (g : grid Q) :
  shaped h w g -> length (concat g) = (h * w)%nat.
Proof.
  revert h. induction g as [|row g IH]; intros h [Hlen Hall].
  - simpl in Hlen. subst h. reflexivity.
  - simpl in Hlen. subst h. inversion Hall as [|? ? Hrow Hrest]; subst.
    simpl concat. rewrite length_app.
    rewrite (IH (length g)) by (split; [reflexivity | exact Hrest]). lia.
Qed.

Lemma nth_repeat_inside {A : Type} (x d : A) (m i : nat) :
  (i < m)%nat -> nth i (repeat x m) d = x.
Proof.
  revert i. induction m as [|m IH]; intros i Hi; [lia|].
  destruct i as [|i]; [reflexivity|]. simpl. apply IH. lia.
Qed.

Lemma shaped_repeat (h w : nat) (row : list Q) :
  length row = w -> shaped h w (repeat row h).
Proof.
  intros Hrow. split.
  - apply repeat_length.
  - apply Forall_forall. intros r Hr.
    apply repeat_spec in Hr. subst r. exact Hrow.
Qed.

Lemma shaped_map_rows (h w : nat) (f : list Q -> list Q) (g : grid Q) :
  length g = h -> (forall r, In r g -> length (f r) = w) ->
  shaped h w (map f g).
Proof.
  intros Hlen Hrows. split.
  - rewrite length_map. exact Hlen.
  - apply Forall_forall. intros r Hr.
    apply in_map_iff in Hr. destruct Hr as [r0 [<- Hin]].
    apply Hrows, Hin.
Qed.

(** ** The plane of a FITS file *)

Lemma plane_returns (d : ndarray) (pre : list nat) (H W : nat) :
  well_formed d -> shape d = pre ++ [H; W] -> (length pre <= 2)%nat ->
  Forall (fun n => (0 < n)%nat) pre ->
  plane d =
  Returned {| shape := [H; W]; dtype := dtype d;
              elements := firstn (H * W) (elements d) |}.
Proof.
  destruct d as [s cast l]. unfold well_formed, plane, ndim. simpl.
  intros Hwf -> Hpre Hpos.
  destruct pre as [|a [|b [|c pre]]]; simpl in *; try lia.
  - f_equal. f_equal. symmetry. apply firstn_all2. lia.
  - inversion Hpos as [|? ? Ha _]; subst.
    unfold first_block. simpl.
    destruct (Nat.eqb_spec a 0) as [->|_]; [lia|].
    f_equal. f_equal. f_equal. lia.
  - inversion Hpos as [|? ? Ha Hpos']; subst.
    inversion Hpos' as [|? ? Hb _]; subst.
    unfold first_block. simpl.
    destruct (Nat.eqb_spec a 0) as [->|_]; [lia|]. simpl.
    destruct (Nat.eqb_spec b 0) as [->|_]; [lia|].
    f_equal. f_equal. rewrite firstn_firstn. f_equal. nia.
Qed.

Lemma write_same (fs : files) (path : String.string) (c : option ndarray) :
  write fs path c path = Some c.
Proof. unfold write. rewrite String.eqb_refl. reflexivity. Qed.

Lemma write_other (fs : files) (path p : String.string)
    (c : option ndarray) :
  p <> path -> write fs path c p = fs p.
Proof.
  intros Hp. unfold write.
  destruct (String.eqb_spec p path) as [->|_]; [contradiction | reflexivity].
Qed.

(** ** Broadcasting a 2-d image *)

Lemma stretch_row (w' W : nat) (b : list Q) :
  length b = w' -> w' = W \/ w' = 1%nat ->
  length (stretch [w'] [W] b) = W /\
  forall j, (j < W)%nat ->
    nth j (stretch [w'] [W] b) 0 = nth (if (w' =? W)%nat then j else 0%nat) b 0.
Proof.
  intros Hb Hw. simpl stretch.
  destruct (Nat.eqb_spec w' W) as [->|Hne].
  - assert (Hid : concat (map (fun l : list Q => l) (rows W 1 b)) = b).
    { rewrite map_id. apply concat_rows. lia. }
    simpl size. rewrite Hid. split; [exact Hb | reflexivity].
  - destruct Hw as [Hw| ->]; [contradiction|].
    destruct b as [|x [|y b]]; try discriminate. clear Hb.
    assert (Hrep : forall n, concat (repeat [x] n) = repeat x n).
    { induction n as [|n IH]; [reflexivity|]. simpl. rewrite IH. reflexivity. }
    rewrite Hrep. split; [apply repeat_length|].
    intros j Hj. simpl. apply nth_repeat_inside, Hj.
Qed.

Lemma stretch_image (h' w' H W : nat) (l : list Q) :
  length l = (h' * w')%nat ->
  h' = H \/ h' = 1%nat -> w' = W \/ w' = 1%nat ->
  exists g : grid Q,
    stretch [h'; w'] [H; W] l = concat g /\ shaped H W g /\
    forall i j, (i < H)%nat -> (j < W)%nat ->
      get 0 g i j =
      get 0 (rows h' w' l) (if (h' =? H)%nat then i else 0%nat)
                           (if (w' =? W)%nat then j else 0%nat).
Proof.
  intros Hl Hh Hw.
  change (stretch [h'; w'] [H; W] l)
    with (if (h' =? H)%nat
          then concat (map (stretch [w'] [W]) (rows h' (size [w']) l))
          else concat (repeat (stretch [w'] [W] l) H)).
  replace (size [w']) with w' by (simpl; lia).
  destruct (Nat.eqb_spec h' H) as [->|Hne].
  - exists (map (stretch [w'] [W]) (rows H w' l)).
    assert (Hs : shaped H w' (rows H w' l)) by (apply rows_shaped; lia).
    split; [reflexivity|]. split.
    + apply shaped_map_rows; [apply Hs|].
      intros r Hr. destruct Hs as [_ Hall].
      apply (proj1 (Forall_forall _ _) Hall) in Hr.
      apply (stretch_row w' W r Hr Hw).
    + intros i j Hi Hj. unfold get.
      assert (Hrow : length (nth i (rows H w' l) []) = w').
      { destruct Hs as [Hlen Hall].
        apply (proj1 (Forall_forall _ _) Hall). apply nth_In. lia. }
      rewrite (nth_indep _ [] (stretch [w'] [W] []))
        by (rewrite length_map; destruct Hs as [Hlen _]; lia).
      rewrite map_nth.
      apply (proj2 (stretch_row w' W _ Hrow Hw) j Hj).
  - destruct Hh as [Hh| ->]; [contradiction|].
    assert (Hlen : length l = w') by lia.
    exists (repeat (stretch [w'] [W] l) H).
    split; [reflexivity|]. split.
    + apply shaped_repeat. apply (stretch_row w' W l Hlen Hw).
    + intros i j Hi Hj. unfold get.
      rewrite nth_repeat_inside by exact Hi.
      rewrite (proj2 (stretch_row w' W l Hlen Hw) j Hj).
      simpl rows. simpl nth. rewrite nth_firstn.
      destruct (Nat.eqb_spec w' W) as [->|Hne'].
      * destruct (Nat.ltb_spec j W); [reflexivity | lia].
      * destruct Hw as [Hw| ->]; [contradiction|]. reflexivity.
Qed.

Lemma stretch_same (H W : nat) (l : list Q) :
  length l = (H * W)%nat -> stretch [H; W] [H; W] l = l.
Proof.
  intros Hl.
  change (stretch [H; W] [H; W] l)
    with (if (H =? H)%nat
          then concat (map (stretch [W] [W]) (rows H (size [W]) l))
          else concat (repeat (stretch [W] [W] l) H)).
  rewrite Nat.eqb_refl. replace (size [W]) with W by (simpl; lia).
  assert (Hs : shaped H W (rows H W l)) by (apply rows_shaped; lia).
  assert (Hmap : map (stretch [W] [W]) (rows H W l) = rows H W l).
  { rewrite <- (map_id (rows H W l)) at 2. apply map_ext_in.
    intros r Hr. destruct Hs as [_ Hall].
    apply (proj1 (Forall_forall _ _) Hall) in Hr.
    simpl stretch. rewrite Nat.eqb_refl. simpl size.
    rewrite map_id. apply concat_rows. lia. }
  rewrite Hmap. apply concat_rows, Hl.
Qed.

(** What [flush_fits] does when the shapes fit. *)
Lemma flush_fits_returns (fs : files) (f : String.string)
    (d newimage : ndarray) (pre : list nat) (h' w' H W : nat) :
  fs f = Some (Some d) -> well_formed d ->
  shape d = pre ++ [H; W] -> (length pre <= 2)%nat ->
  Forall (fun n => (0 < n)%nat) pre ->
  shape newimage = [h'; w'] ->
  h' = H \/ h' = 1%nat -> w' = W \/ w' = 1%nat ->
  flush_fits newimage f fs =
  (Returned tt,
   write fs f
     (Some {| shape := shape d; dtype := dtype d;
              elements :=
                map (dtype d)
                    (stretch [h'; w'] [H; W] (elements newimage)) ++
                skipn (H * W) (elements d) |})).
Proof.
  intros Hf Hwf Hshape Hpre Hpos Hnew Hh Hw.
  unfold flush_fits. rewrite Hf.
  rewrite (plane_returns d pre H W Hwf Hshape Hpre Hpos).
  unfold broadcast_to. cbn [shape]. rewrite Hnew.
  unfold align. cbn [length Nat.leb Nat.sub repeat app].
  assert (Hb : broadcastable [h'; w'] [H; W] = true).
  { simpl. apply andb_true_iff. split.
    - apply orb_true_iff. destruct Hh as [->| ->];
        [left | right]; apply Nat.eqb_refl.
    - rewrite andb_true_r. apply orb_true_iff. destruct Hw as [->| ->];
        [left | right]; apply Nat.eqb_refl. }
  rewrite Hb. replace (size [H; W]) with (H * W)%nat by (simpl; lia).
  reflexivity.
Qed.

Lemma well_formed_size (d : ndarray) (pre : list nat) (H W : nat) :
  well_formed d -> shape d = pre ++ [H; W] ->
  Forall (fun n => (0 < n)%nat) pre ->
  (H * W <= length (elements d))%nat.
Proof.
  unfold well_formed. intros -> -> Hpos.
  induction pre as [|a pre IH].
  - simpl. lia.
  - inversion Hpos as [|? ? Ha Hrest]; subst.
    specialize (IH Hrest). simpl app. simpl size.
    change (fold_right Nat.mul 1%nat (pre ++ [H; W]))
      with (size (pre ++ [H; W])). nia.
Qed.

(** The file after a flush holds an array of the old shape whose plane is
    the new one. *)
Lemma flushed_plane (d : ndarray) (pre : list nat) (H W : nat)
    (l : list Q) :
  well_formed d -> shape d = pre ++ [H; W] -> (length pre <= 2)%nat ->
  Forall (fun n => (0 < n)%nat) pre -> length l = (H * W)%nat ->
  let d' := {| shape := shape d; dtype := dtype d;
               elements := l ++ skipn (H * W) (elements d) |} in
  well_formed d' /\
  plane d' = Returned {| shape := [H; W]; dtype := dtype d;
                         elements := l |}.
Proof.
  intros Hwf Hshape Hpre Hpos Hl d'.
  pose proof (well_formed_size d pre H W Hwf Hshape Hpos) as Hsize.
  assert (Hwf' : well_formed d').
  { unfold well_formed, d'. cbn [shape elements].
    rewrite length_app, length_skipn, Hl.
    unfold well_formed in Hwf. lia. }
  split; [exact Hwf'|].
  rewrite (plane_returns d' pre H W Hwf' Hshape Hpre Hpos).
  unfold d'. cbn [elements].
  rewrite firstn_app, firstn_all2 by lia.
  replace (H * W - length l)%nat with 0%nat by lia.
  simpl. rewrite app_nil_r. reflexivity.
Qed.

(** Flushing an image of the plane's shape: [get_image] reads it
    afterwards, converted to the dtype of the file, and no other file
    changes. *)
Lemma flush_same_shape (fs : files) (f : String.string)
    (d newimage : ndarray) (pre : list nat) (H W : nat) :
  fs f = Some (Some d) -> well_formed d ->
  shape d = pre ++ [H; W] -> (length pre <= 2)%nat ->
  Forall (fun n => (0 < n)%nat) pre ->
  shape newimage = [H; W] -> well_formed newimage ->
  exists fs',
    flush_fits newimage f fs = (Returned tt, fs') /\
    get_image f fs'
    = Returned {| shape := [H; W]; dtype := dtype d;
                  elements := map (dtype d) (elements newimage) |} /\
    forall p, p <> f -> fs' p = fs p.
Proof.
  intros Hf Hwf Hshape Hpre Hpos Hnew Hwfn.
  assert (Hlen : length (elements newimage) = (H * W)%nat).
  { unfold well_formed in Hwfn. rewrite Hnew in Hwfn. simpl in Hwfn. lia. }
  pose proof (flush_fits_returns fs f d newimage pre H W H W Hf Hwf Hshape
                Hpre Hpos Hnew (or_introl eq_refl) (or_introl eq_refl))
    as Hflush.
  rewrite (stretch_same H W _ Hlen) in Hflush.
  assert (Hlen' : length (map (dtype d) (elements newimage)) = (H * W)%nat)
    by (rewrite length_map; exact Hlen).
  destruct (flushed_plane d pre H W _ Hwf Hshape Hpre Hpos Hlen')
    as [_ Hplane].
  eexists. split; [exact Hflush|]. split.
  - unfold get_image. rewrite write_same. exact Hplane.
  - intros p Hp. apply write_other, Hp.
Qed.

(** ** Reading and writing the plane *)

(** X9.  For a file of 2, 3 or 4 axes whose leading axes are not empty,
    [get_image] returns an array of the shape of the last two axes, and its
    pixel [(i, j)] is the element at offset [i * W + j] of the data: that is
    [data[i, j]], [data[0, i, j]] or [data[0, 0, i, j]]. *)
Theorem get_image_reads_first_plane (fs : files) (f : String.string)
    (d : ndarray) (pre : list nat) (H W : nat) :
  fs f = Some (Some d) -> well_formed d ->
  shape d = pre ++ [H; W] -> (length pre <= 2)%nat ->
  Forall (fun n => (0 < n)%nat) pre ->
  exists img,
    get_image f fs = Returned img /\ shape img = [H; W] /\
    well_formed img /\
    forall i j, (i < H)%nat -> (j < W)%nat ->
      get 0 (to_grid img) i j = nth (i * W + j) (elements d) 0.
Proof.
  intros Hf Hwf Hshape Hpre Hpos.
  pose proof (well_formed_size d pre H W Hwf Hshape Hpos) as Hsize.
  exists {| shape := [H; W]; dtype := dtype d;
            elements := firstn (H * W) (elements d) |}.
  split; [|split; [reflexivity | split]].
  - unfold get_image. rewrite Hf.
    apply (plane_returns d pre H W Hwf Hshape Hpre Hpos).
  - unfold well_formed. cbn [shape elements]. rewrite length_firstn.
    simpl size. lia.
  - intros i j Hi Hj. unfold to_grid. cbn [shape elements nth].
    rewrite (get_rows H W _ i j Hi Hj). rewrite nth_firstn.
    destruct (Nat.ltb_spec (i * W + j) (H * W)) as [_|Hge];
      [reflexivity | nia].
Qed.

Lemma get_image_reads_first_plane_witness :
  exists img,
    get_image "cube.fits"%string (one_file "cube.fits"%string cube)
    = Returned img /\
    shape img = [2; 3]%nat /\ well_formed img /\
    forall i j, (i < 2)%nat -> (j < 3)%nat ->
      get 0 (to_grid img) i j = nth (i * 3 + j) (elements cube) 0.
Proof.
  apply (get_image_reads_first_plane
           (one_file "cube.fits"%string cube) "cube.fits"%string cube
           [2; 1]%nat 2 3).
  - reflexivity.
  - reflexivity.
  - reflexivity.
  - simpl; lia.
  - repeat constructor.
Defined.

(** X10.  Writing an image of the plane's shape and reading it back
    gives the image converted to the dtype of the file: its elements
    themselves where the dtype holds each of them exactly.  The flush
    touches no other file, keeps the shape and the dtype of the data, and
    keeps every element outside the first plane. *)
Theorem flush_then_get_image (fs : files) (f : String.string)
    (d newimage : ndarray) (pre : list nat) (H W : nat) :
  fs f = Some (Some d) -> well_formed d ->
  shape d = pre ++ [H; W] -> (length pre <= 2)%nat ->
  Forall (fun n => (0 < n)%nat) pre ->
  shape newimage = [H; W] -> well_formed newimage ->
  exists fs' d' img,
    flush_fits newimage f fs = (Returned tt, fs') /\
    get_image f fs' = Returned img /\
    shape img = [H; W] /\
    elements img = map (dtype d) (elements newimage) /\
    ((forall v, In v (elements newimage) -> dtype d v = v) ->
     elements img = elements newimage) /\
    (forall p, p <> f -> fs' p = fs p) /\
    fs' f = Some (Some d') /\ shape d' = shape d /\ dtype d' = dtype d /\
    well_formed d' /\
    skipn (H * W) (elements d') = skipn (H * W) (elements d).
Proof.
  intros Hf Hwf Hshape Hpre Hpos Hnew Hwfn.
  assert (Hlen : length (elements newimage) = (H * W)%nat).
  { unfold well_formed in Hwfn. rewrite Hnew in Hwfn. simpl in Hwfn. lia. }
  pose proof (flush_fits_returns fs f d newimage pre H W H W Hf Hwf Hshape
                Hpre Hpos Hnew (or_introl eq_refl) (or_introl eq_refl))
    as Hflush.
  rewrite (stretch_same H W _ Hlen) in Hflush.
  assert (Hlen' : length (map (dtype d) (elements newimage)) = (H * W)%nat)
    by (rewrite length_map; exact Hlen).
  destruct (flushed_plane d pre H W _ Hwf Hshape Hpre Hpos Hlen')
    as [Hwf' Hplane].
  eexists. eexists. eexists. split; [exact Hflush|].
  split; [unfold get_image; rewrite write_same; exact Hplane|].
  split; [reflexivity|]. split; [reflexivity|].
  split; [|split; [|split; [|split; [|split; [|split]]]]].
  - intros Hrep. cbn [elements].
    rewrite <- (map_id (elements newimage)) at 2.
    apply map_ext_in, Hrep.
  - intros p Hp. apply write_other, Hp.
  - apply write_same.
  - reflexivity.
  - reflexivity.
  - exact Hwf'.
  - cbn [elements]. rewrite skipn_app, skipn_all2 by lia.
    replace (H * W - length (map (dtype d) (elements newimage)))%nat
      with 0%nat by lia.
    reflexivity.
Qed.

Lemma flush_then_get_image_witness :
  exists fs' d' img,
    flush_fits
      {| shape := [2; 3]%nat; dtype := float64;
         elements := [1 # 2; 1; 0; 1; 3 # 2; 0] |}
      "cube.fits"%string (one_file "cube.fits"%string int_cube)
    = (Returned tt, fs') /\
    get_image "cube.fits"%string fs' = Returned img /\
    shape img = [2; 3]%nat /\
    elements img = map (dtype int_cube) [1 # 2; 1; 0; 1; 3 # 2; 0] /\
    ((forall v, In v [1 # 2; 1; 0; 1; 3 # 2; 0] -> dtype int_cube v = v) ->
     elements img = [1 # 2; 1; 0; 1; 3 # 2; 0]) /\
    (forall p, p <> "cube.fits"%string ->
       fs' p = one_file "cube.fits"%string int_cube p) /\
    fs' "cube.fits"%string = Some (Some d') /\
    shape d' = shape int_cube /\ dtype d' = dtype int_cube /\
    well_formed d' /\
    skipn (2 * 3) (elements d') = skipn (2 * 3) (elements int_cube).
Proof.
  apply (flush_then_get_image
           (one_file "cube.fits"%string int_cube) "cube.fits"%string int_cube
           {| shape := [2; 3]%nat; dtype := float64;
              elements := [1 # 2; 1; 0; 1; 3 # 2; 0] |}
           [2; 1]%nat 2 3).
  - reflexivity.
  - reflexivity.
  - reflexivity.
  - simpl; lia.
  - repeat constructor.
  - reflexivity.
  - reflexivity.
Defined.

(** X11.  [flush_fits] broadcasts as numpy does.  A 2-d image whose axes
    have the plane's length or length 1 is written without complaint, an
    axis of length 1 being repeated along the plane: the pixel read back at
    [(i, j)] is the pixel of the image at [(i, j)], or at index 0 along an
    axis of length 1, converted to the dtype of the file.  Any other shape
    raises [ValueError] and writes nothing. *)
Theorem flush_fits_broadcasts (fs : files) (f : String.string)
    (d newimage : ndarray) (pre : list nat) (h' w' H W : nat) :
  fs f = Some (Some d) -> well_formed d ->
  shape d = pre ++ [H; W] -> (length pre <= 2)%nat ->
  Forall (fun n => (0 < n)%nat) pre ->
  shape newimage = [h'; w'] -> well_formed newimage ->
  ((h' = H \/ h' = 1%nat) /\ (w' = W \/ w' = 1%nat) ->
   exists fs' img,
     flush_fits newimage f fs = (Returned tt, fs') /\
     get_image f fs' = Returned img /\ shape img = [H; W] /\
     forall i j, (i < H)%nat -> (j < W)%nat ->
       get 0 (to_grid img) i j =
       dtype d
         (get 0 (to_grid newimage) (if (h' =? H)%nat then i else 0%nat)
                                   (if (w' =? W)%nat then j else 0%nat))) /\
  (~ ((h' = H \/ h' = 1%nat) /\ (w' = W \/ w' = 1%nat)) ->
   flush_fits newimage f fs = (Raised ValueError, fs)).
Proof.
  intros Hf Hwf Hshape Hpre Hpos Hnew Hwfn.
  assert (Hlen : length (elements newimage) = (h' * w')%nat).
  { unfold well_formed in Hwfn. rewrite Hnew in Hwfn. simpl in Hwfn. lia. }
  split.
  - intros [Hh Hw].
    pose proof (flush_fits_returns fs f d newimage pre h' w' H W Hf Hwf
                  Hshape Hpre Hpos Hnew Hh Hw) as Hflush.
    destruct (stretch_image h' w' H W (elements newimage) Hlen Hh Hw)
      as [g [Hg [Hs Hget]]].
    rewrite Hg in Hflush.
    assert (Hcast : map (dtype d) (concat g) = concat (gmap (dtype d) g)).
    { unfold gmap. apply concat_map. }
    rewrite Hcast in Hflush.
    pose proof (shaped_gmap (dtype d) H W g Hs) as Hs'.
    destruct (flushed_plane d pre H W (concat (gmap (dtype d) g)) Hwf Hshape
                Hpre Hpos (length_concat_shaped H W _ Hs')) as [_ Hplane].
    eexists.
    exists {| shape := [H; W]; dtype := dtype d;
              elements := concat (gmap (dtype d) g) |}.
    split; [exact Hflush|]. split; [|split; [reflexivity|]].
    + unfold get_image. rewrite write_same. exact Hplane.
    + intros i j Hi Hj. unfold to_grid. rewrite Hnew.
      cbn [shape elements nth]. rewrite (rows_concat H W _ Hs').
      rewrite (get_gmap_inside (dtype d) 0 0 g H W i j Hs Hi Hj).
      f_equal. apply Hget; assumption.
  - intros Hno. unfold flush_fits. rewrite Hf.
    rewrite (plane_returns d pre H W Hwf Hshape Hpre Hpos).
    unfold broadcast_to. cbn [shape]. rewrite Hnew.
    unfold align. cbn [length Nat.leb Nat.sub repeat app broadcastable].
    destruct (Nat.eqb_spec h' H) as [Hh|Hh];
      destruct (Nat.eqb_spec h' 1) as [Hh1|Hh1];
      destruct (Nat.eqb_spec w' W) as [Hw|Hw];
      destruct (Nat.eqb_spec w' 1) as [Hw1|Hw1];
      try reflexivity; exfalso; apply Hno; split; auto.
Qed.

Lemma flush_fits_broadcasts_witness :
  (exists fs' img,
     flush_fits
       {| shape := [1; 3]%nat; dtype := float64;
          elements := [7; 17 # 2; 9] |}
       "cube.fits"%string (one_file "cube.fits"%string int_cube)
     = (Returned tt, fs') /\
     get_image "cube.fits"%string fs' = Returned img /\
     shape img = [2; 3]%nat /\
     forall i j, (i < 2)%nat -> (j < 3)%nat ->
       get 0 (to_grid img) i j =
       dtype int_cube
         (get 0 [[7; 17 # 2; 9]] (if (1 =? 2)%nat then i else 0%nat)
                                 (if (3 =? 3)%nat then j else 0%nat))).
Proof.
  apply (flush_fits_broadcasts
           (one_file "cube.fits"%string int_cube) "cube.fits"%string int_cube
           {| shape := [1; 3]%nat; dtype := float64;
              elements := [7; 17 # 2; 9] |}
           [2; 1]%nat 1 3 2 3).
  - reflexivity.
  - reflexivity.
  - reflexivity.
  - simpl; lia.
  - repeat constructor.
  - reflexivity.
  - reflexivity.
  - split; [right; reflexivity | left; reflexivity].
Defined.

(** ** File names *)

Lemma length_append (s1 s2 : String.string) :
  String.length (String.append s1 s2)
  = (String.length s1 + String.length s2)%nat.
Proof.
  induction s1 as [|a s1 IH]; [reflexivity|].
  simpl. rewrite IH. reflexivity.
Qed.

Lemma replace_absent (old new s : String.string) :
  contains old s = false -> replace old new s = s.
Proof.
  unfold replace. induction s as [|a s IH]; intros Hc; [reflexivity|].
  cbn [contains] in Hc. apply orb_false_iff in Hc. destruct Hc as [Hp Hc].
  cbn [replace_from]. rewrite Hp. rewrite (IH Hc). reflexivity.
Qed.

Lemma replace_from_length (old new : String.string) :
  (0 < String.length old)%nat ->
  (String.length old <= String.length new)%nat ->
  forall s skip,
    (String.length s <=
     String.length (replace_from old new skip s) + skip)%nat.
Proof.
  intros Hold Hnew. induction s as [|a s IH]; intros skip.
  - simpl. lia.
  - cbn [replace_from]. destruct skip as [|k].
    + destruct (String.prefix old (String.String a s)).
      * rewrite length_append.
        specialize (IH (String.length old - 1)%nat).
        cbn [String.length]. lia.
      * specialize (IH 0%nat). cbn [String.length]. lia.
    + specialize (IH k). cbn [String.length]. lia.
Qed.

Lemma replace_present (old new s : String.string) :
  (0 < String.length old)%nat ->
  (String.length old < String.length new)%nat ->
  contains old s = true ->
  (String.length s < String.length (replace old new s))%nat.
Proof.
  intros Hold Hnew. unfold replace.
  induction s as [|a s IH]; intros Hc.
  - cbn [contains] in Hc. rewrite orb_false_r in Hc.
    destruct old; [simpl in Hold; lia | discriminate].
  - cbn [contains] in Hc. cbn [replace_from].
    destruct (String.prefix old (String.String a s)) eqn:Hp.
    + rewrite length_append.
      pose proof (replace_from_length old new Hold (Nat.lt_le_incl _ _ Hnew)
                    s (String.length old - 1)%nat).
      cbn [String.length]. lia.
    + simpl in Hc. specialize (IH Hc). cbn [String.length]. lia.
Qed.

Lemma replace_dot_fits (new s : String.string) :
  (String.length dot_fits < String.length new)%nat ->
  replace dot_fits new s = s <-> contains dot_fits s = false.
Proof.
  intros Hnew. split.
  - intros Heq. destruct (contains dot_fits s) eqn:Hc; [|reflexivity].
    assert (Hold : (0 < String.length dot_fits)%nat) by (simpl; lia).
    pose proof (replace_present dot_fits new s Hold Hnew Hc) as Hlt.
    rewrite Heq in Hlt. lia.
  - apply replace_absent.
Qed.

(** X12.  Without [--outfile] the mask is written to the path of the input
    itself exactly when that path does not contain [.fits]; the same holds
    for the path of the noise image. *)
Theorem default_paths_differ_from_input (input_fits : String.string) :
  (mask_path String.EmptyString input_fits = input_fits <->
   contains dot_fits input_fits = false) /\
  (noise_path input_fits = input_fits <->
   contains dot_fits input_fits = false).
Proof.
  split.
  - unfold mask_path. cbn [String.eqb].
    apply replace_dot_fits. simpl. lia.
  - unfold noise_path. apply replace_dot_fits. simpl. lia.
Qed.

(** ** The run with its files *)

Lemma make_noise_map_shaped (Phi : Q -> Q) (image : Image) (b : Z)
    (noise : NoiseMap) (h w : nat) :
  shaped h w image -> (0 < h)%nat ->
  make_noise_map Phi image b = Ok noise -> shaped h w noise.
Proof.
  unfold make_noise_map. generalize (calibration_ratio Phi b).
  intros ratio Hs Hh Hnoise.
  apply (clamped_noise_shape ratio image b noise h w Hs Hh Hnoise).
Qed.

Lemma make_mask_shaped (image : Image) (noise : NoiseMap) (o : options)
    (mask : Mask) (h w : nat) :
  shaped h w image -> (0 < h)%nat -> (0 < w)%nat ->
  make_mask image noise o = Ok mask -> shaped h w mask.
Proof.
  intros Hs Hh Hw Hmask. unfold make_mask in Hmask.
  apply (post_process_shape _ mask o h w
           (threshold_mask_shaped image (threshold o) noise h w Hs Hh)
           Hh Hw Hmask).
Qed.

Lemma of_grid_shaped (g : grid Q) (h w : nat) :
  shaped h w g -> (0 < h)%nat ->
  shape (of_grid g) = [h; w] /\ well_formed (of_grid g).
Proof.
  intros Hs Hh. unfold of_grid, well_formed. cbn [shape elements].
  unfold height. rewrite (proj1 Hs), (shaped_width h w g Hs Hh).
  split; [reflexivity|].
  unfold flatten. rewrite (length_concat_shaped h w g Hs). simpl. lia.
Qed.

(** Copying a file, where the operating system lets the copy through, and
    flushing an image of the plane's shape into the copy. *)
Lemma copy_then_flush
    (os_error : String.string -> String.string -> option exception)
    (fs : files) (src dst : String.string)
    (d img : ndarray) (pre : list nat) (H W : nat) :
  fs src = Some (Some d) -> well_formed d ->
  shape d = pre ++ [H; W] -> (length pre <= 2)%nat ->
  Forall (fun n => (0 < n)%nat) pre ->
  shape img = [H; W] -> well_formed img -> dst <> src ->
  os_error src dst = None ->
  exists fs',
    (_ <~ copyfile os_error src dst ;; flush_fits img dst) fs
    = (Returned tt, fs') /\
    get_image dst fs'
    = Returned {| shape := [H; W]; dtype := dtype d;
                  elements := map (dtype d) (elements img) |} /\
    forall p, p <> dst -> fs' p = fs p.
Proof.
  intros Hf Hwf Hshape Hpre Hpos Himg Hwfi Hne Hos.
  unfold and_then, copyfile. rewrite Hf.
  destruct (String.eqb_spec src dst) as [Heq|_]; [congruence|].
  rewrite Hos.
  destruct (flush_same_shape (write fs dst (Some d)) dst d img pre
              H W (write_same fs dst (Some d)) Hwf Hshape Hpre Hpos Himg Hwfi)
    as [fs' [Hflush [Hget Hframe]]].
  exists fs'. split; [exact Hflush|]. split; [exact Hget|].
  intros p Hp. rewrite (Hframe p Hp). apply write_other, Hp.
Qed.

(** In a file of float64 data the array read back is the array written. *)
Lemma to_grid_written (cast : Q -> Q) (g : grid Q) (H W : nat) :
  (forall v, cast v = v) -> shaped H W g ->
  to_grid {| shape := [H; W]; dtype := cast;
             elements := map cast (flatten g) |} = g.
Proof.
  intros Hid Hs. unfold to_grid. cbn [shape elements nth].
  assert (Hmap : map cast (flatten g) = flatten g).
  { rewrite <- (map_id (flatten g)) at 2. apply map_ext, Hid. }
  rewrite Hmap. apply rows_concat, Hs.
Qed.

Lemma get_image_plane (fs : files) (f : String.string) (d : ndarray)
    (pre : list nat) (H W : nat) :
  fs f = Some (Some d) -> well_formed d ->
  shape d = pre ++ [H; W] -> (length pre <= 2)%nat ->
  Forall (fun n => (0 < n)%nat) pre ->
  get_image f fs =
  Returned {| shape := [H; W]; dtype := dtype d;
              elements := firstn (H * W) (elements d) |} /\
  shaped H W
    (to_grid {| shape := [H; W]; dtype := dtype d;
                elements := firstn (H * W) (elements d) |}).
Proof.
  intros Hf Hwf Hshape Hpre Hpos. split.
  - unfold get_image. rewrite Hf.
    apply (plane_returns d pre H W Hwf Hshape Hpre Hpos).
  - unfold to_grid. cbn [shape elements nth]. apply rows_shaped.
    pose proof (well_formed_size d pre H W Hwf Hshape Hpos).
    rewrite length_firstn. lia.
Qed.

(** X13.  A run on a FITS file of float64 data with 2, 3 or 4 axes, with
    a box size and a dilation count of the range of a C integer, whose
    output paths differ from the input path and where the operating system
    lets the copies through.  When the pipeline returns its noise map of
    numbers and its mask, the run returns, the input file is as before, the
    first plane of the mask file holds the mask as the numbers 1 and 0, the
    noise file (with [--savenoise], unless the mask is written over it)
    holds the noise map, and no other file changes. *)
Theorem main_files_writes_mask
    (os_error : String.string -> String.string -> option exception)
    (Phi : Q -> Q) (c : command_line)
    (arg input_fits : String.string) (fs : files) (d img : ndarray)
    (pre : list nat) (H W : nat) (w : written) :
  rstrip "/"%char arg = input_fits ->
  fs input_fits = Some (Some d) -> well_formed d ->
  (forall v, dtype d v = v) ->
  shape d = pre ++ [H; W] -> (length pre <= 2)%nat ->
  Forall (fun n => (0 < n)%nat) pre -> (0 < H)%nat -> (0 < W)%nat ->
  get_image input_fits fs = Returned img ->
  (- 2 ^ 31 <= boxsize (pipeline_options c) < 2 ^ 31)%Z ->
  (- 2 ^ 31 < dilate (pipeline_options c) < 2 ^ 31)%Z ->
  main Phi (fun _ => to_grid img) (pipeline_options c) [arg] = Ok w ->
  mask_path (outfile c) input_fits <> input_fits ->
  os_error input_fits (mask_path (outfile c) input_fits) = None ->
  (savenoise (pipeline_options c) = true ->
   noise_path input_fits <> input_fits /\
   os_error input_fits (noise_path input_fits) = None) ->
  exists fs',
    main_files os_error Phi c [arg] fs = (Returned tt, fs') /\
    fs' input_fits = fs input_fits /\
    (exists m,
       get_image (mask_path (outfile c) input_fits) fs' = Returned m /\
       shape m = [H; W] /\
       to_grid m = gmap (fun b : bool => if b then 1 else 0) (mask_fits w)) /\
    (forall noise, noise_fits w = Some noise ->
       noise_path input_fits <> mask_path (outfile c) input_fits ->
       exists n,
         get_image (noise_path input_fits) fs' = Returned n /\
         shape n = [H; W] /\ to_grid n = noise) /\
    (forall p, p <> mask_path (outfile c) input_fits ->
       p <> noise_path input_fits -> fs' p = fs p) /\
    (savenoise (pipeline_options c) = false ->
     forall p, p <> mask_path (outfile c) input_fits -> fs' p = fs p).
Proof.
  intros Harg Hf Hwf Hid Hshape Hpre Hpos HH HW Hget Hbox Hdil.
  destruct (get_image_plane fs input_fits d pre H W Hf Hwf Hshape Hpre Hpos)
    as [Hget' Hs].
  rewrite Hget' in Hget. injection Hget as <-.
  unfold main, main_files. rewrite Harg.
  unfold and_then at 1. unfold read. rewrite Hget'.
  unfold and_then at 1. cbn [ndim shape length Nat.eqb ret].
  set (image := to_grid _) in *.
  generalize (make_noise_map_shaped Phi image (boxsize (pipeline_options c))).
  generalize (make_noise_map Phi image (boxsize (pipeline_options c))).
  intros [noise|e] Hnoise_shaped; [|discriminate].
  specialize (Hnoise_shaped noise H W Hs HH eq_refl).
  cbn [bind]. intros Hmain Hmask_ne Hmask_os Hnoise_ok.
  destruct (make_mask image noise (pipeline_options c)) as [mask|e] eqn:Emask;
    [|discriminate].
  cbn [bind] in Hmain. injection Hmain as <-. cbn [mask_fits noise_fits].
  pose proof (make_mask_shaped image noise (pipeline_options c) mask H W
                Hs HH HW Emask) as Hmask_shaped.
  destruct (of_grid_shaped noise H W Hnoise_shaped HH) as [Hn1 Hn2].
  pose proof (shaped_gmap (fun b : bool => if b then 1 else 0) H W mask
                Hmask_shaped) as Hnum_shaped.
  assert (Hm : shape (of_mask mask) = [H; W] /\ well_formed (of_mask mask)).
  { unfold of_mask. apply of_grid_shaped; [exact Hnum_shaped | exact HH]. }
  destruct Hm as [Hm1 Hm2].
  unfold and_then at 1. unfold run at 1. unfold ret at 1.
  unfold and_then at 1.
  destruct (savenoise (pipeline_options c)) eqn:Esave.
  - destruct (Hnoise_ok eq_refl) as [Hnoise_ne Hnoise_os].
    destruct (copy_then_flush os_error fs input_fits (noise_path input_fits)
                d (of_grid noise) pre H W Hf Hwf Hshape Hpre Hpos Hn1 Hn2
                Hnoise_ne Hnoise_os) as [fs1 [Hrun1 [Hget1 Hframe1]]].
    rewrite Hrun1.
    unfold and_then at 1. unfold run at 1. rewrite Emask.
    unfold ret at 1.
    assert (Hf1 : fs1 input_fits = Some (Some d)).
    { rewrite Hframe1 by (intros Heq; apply Hnoise_ne; symmetry; exact Heq).
      exact Hf. }
    destruct (copy_then_flush os_error fs1 input_fits
                (mask_path (outfile c) input_fits) d (of_mask mask) pre H W
                Hf1 Hwf Hshape Hpre Hpos Hm1 Hm2 Hmask_ne Hmask_os)
      as [fs2 [Hrun2 [Hget2 Hframe2]]].
    exists fs2. split; [exact Hrun2|].
    split; [|split; [|split; [|split]]].
    + rewrite Hframe2 by (intros Heq; apply Hmask_ne; symmetry; exact Heq).
      rewrite Hf1. symmetry. exact Hf.
    + eexists. split; [exact Hget2|]. split; [reflexivity|].
      apply (to_grid_written (dtype d) _ H W Hid Hnum_shaped).
    + intros noise' Hnoise' Hdiff. injection Hnoise' as <-.
      eexists. split.
      * unfold get_image. rewrite (Hframe2 _ Hdiff). exact Hget1.
      * split; [reflexivity|].
        apply (to_grid_written (dtype d) noise H W Hid Hnoise_shaped).
    + intros p Hp1 Hp2. rewrite (Hframe2 p Hp1). apply (Hframe1 p Hp2).
    + discriminate.
  - unfold ret at 1.
    unfold and_then at 1. unfold run at 1. rewrite Emask.
    unfold ret at 1.
    destruct (copy_then_flush os_error fs input_fits
                (mask_path (outfile c) input_fits) d (of_mask mask) pre H W
                Hf Hwf Hshape Hpre Hpos Hm1 Hm2 Hmask_ne Hmask_os)
      as [fs2 [Hrun2 [Hget2 Hframe2]]].
    exists fs2. split; [exact Hrun2|].
    split; [|split; [|split; [|split]]].
    + apply Hframe2. intros Heq; apply Hmask_ne; symmetry; exact Heq.
    + eexists. split; [exact Hget2|]. split; [reflexivity|].
      apply (to_grid_written (dtype d) _ H W Hid Hnum_shaped).
    + intros noise' Hnoise'. discriminate.
    + intros p Hp1 _. apply (Hframe2 p Hp1).
    + intros _ p Hp. apply (Hframe2 p Hp).
Qed.

Lemma main_files_writes_mask_witness :
  exists w,
    main Phi_pw (fun _ => spot_image) (pipeline_options save_all)
      ["image.fits/"%string] = Ok w /\
    exists fs',
      main_files no_error Phi_pw save_all ["image.fits/"%string]
        (one_file "image.fits"%string spot_cube) = (Returned tt, fs') /\
      fs' "image.fits"%string
      = one_file "image.fits"%string spot_cube "image.fits"%string /\
      (exists m,
         get_image (mask_path (outfile save_all) "image.fits"%string) fs'
         = Returned m /\
         shape m = [7; 7]%nat /\
         to_grid m = gmap (fun b : bool => if b then 1 else 0) (mask_fits w)) /\
      (forall noise, noise_fits w = Some noise ->
         noise_path "image.fits"%string
         <> mask_path (outfile save_all) "image.fits"%string ->
         exists n,
           get_image (noise_path "image.fits"%string) fs' = Returned n /\
           shape n = [7; 7]%nat /\ to_grid n = noise) /\
      (forall p, p <> mask_path (outfile save_all) "image.fits"%string ->
         p <> noise_path "image.fits"%string ->
         fs' p = one_file "image.fits"%string spot_cube p) /\
      (savenoise (pipeline_options save_all) = false ->
       forall p, p <> mask_path (outfile save_all) "image.fits"%string ->
         fs' p = one_file "image.fits"%string spot_cube p).
Proof.
  eexists. split; [vm_compute; reflexivity|].
  apply (main_files_writes_mask no_error Phi_pw save_all
           "image.fits/"%string
           "image.fits"%string (one_file "image.fits"%string spot_cube)
           spot_cube
           {| shape := [7; 7]%nat; dtype := float64;
              elements := flatten spot_image |}
           [1]%nat 7 7).
  - reflexivity.
  - reflexivity.
  - reflexivity.
  - reflexivity.
  - reflexivity.
  - simpl; lia.
  - repeat constructor.
  - lia.
  - lia.
  - reflexivity.
  - simpl; lia.
  - simpl; lia.
  - vm_compute; reflexivity.
  - vm_compute; discriminate.
  - reflexivity.
  - intros _; split; [vm_compute; discriminate | reflexivity].
Defined.

(** X14.  A run whose input path contains no [.fits], without [--outfile]:
    the pipeline runs, and then the copy of the input onto its own path
    raises [SameFileError].  No file is written. *)
Theorem main_files_same_file
    (os_error : String.string -> String.string -> option exception)
    (Phi : Q -> Q) (c : command_line)
    (arg : String.string) (fs : files) (img : ndarray) (w : written) :
  outfile c = String.EmptyString ->
  contains dot_fits (rstrip "/"%char arg) = false ->
  get_image (rstrip "/"%char arg) fs = Returned img -> ndim img = 2%nat ->
  main Phi (fun _ => to_grid img) (pipeline_options c) [arg] = Ok w ->
  main_files os_error Phi c [arg] fs = (Raised SameFileError, fs).
Proof.
  intros Hout Hc Hget Hnd.
  assert (Hexists : exists content, fs (rstrip "/"%char arg) = Some content).
  { unfold get_image in Hget.
    destruct (fs (rstrip "/"%char arg)) as [content|]; [|discriminate].
    exists content. reflexivity. }
  destruct Hexists as [content Hf].
  unfold main, main_files.
  unfold and_then at 1. unfold read. rewrite Hget.
  unfold and_then at 1. rewrite Hnd. cbn [Nat.eqb ret].
  generalize (make_noise_map Phi (to_grid img) (boxsize (pipeline_options c))).
  intros [noise|e]; [|discriminate]. cbn [bind].
  destruct (make_mask (to_grid img) noise (pipeline_options c))
    as [mask|e] eqn:Emask; [|discriminate].
  intros _.
  unfold and_then at 1. unfold run at 1. unfold ret at 1.
  unfold and_then at 1.
  destruct (savenoise (pipeline_options c)).
  - unfold noise_path. rewrite (replace_absent _ _ _ Hc).
    unfold and_then at 1. unfold copyfile at 1. rewrite Hf.
    rewrite String.eqb_refl. reflexivity.
  - unfold ret at 1. unfold and_then at 1. unfold run at 1. rewrite Emask.
    unfold ret at 1. rewrite Hout. unfold mask_path. cbn [String.eqb].
    rewrite (replace_absent _ _ _ Hc).
    unfold and_then at 1. unfold copyfile at 1. rewrite Hf.
    rewrite String.eqb_refl. reflexivity.
Qed.

Lemma main_files_same_file_witness :
  main_files no_error Phi_pw
    {| pipeline_options := run_options 1 3 0;
       outfile := String.EmptyString |}
    ["image"%string] (one_file "image"%string spot_cube)
  = (Raised SameFileError, one_file "image"%string spot_cube).
Proof.
  eapply (main_files_same_file no_error Phi_pw
            {| pipeline_options := run_options 1 3 0;
               outfile := String.EmptyString |}
            "image"%string (one_file "image"%string spot_cube)).
  - reflexivity.
  - reflexivity.
  - reflexivity.
  - reflexivity.
  - vm_compute; reflexivity.
Defined.
